(** * Studio Foam website scripts: scroll animator and foam timing assigner

  A shallow embedding of [initScrollAnimations] and [initFoamAnimation]
  of script.js.  The DOM is a store of nodes addressed by identity; every
  assignment to [el.style.*] and every [classList.add] is recorded as a
  [Write] in program order, and [replay] turns a sequence of writes into
  the resulting store.  Browser services the script calls
  (IntersectionObserver, setTimeout, requestAnimationFrame, getBBox,
  Math.random) are explicit parts of the state or inputs.  Numbers are
  IEEE 754 binary64 values, held as the rationals they denote; every
  arithmetic operation rounds its exact result to the nearest binary64
  value. *)

From Stdlib Require Import QArith Qround Qpower Lqa.
From Stdlib Require PrimFloat FloatOps.
From stdpp Require Import base decidable list gmap strings.

Local Open Scope string_scope.
Local Open Scope list_scope.

(** ** The DOM as the script sees it *)

Module Dom.

(** A node is addressed by identity. *)
Abbreviation Element := nat.

(** The inline style properties the two functions assign. *)
Inductive StyleProp :=
| opacity | transform | transition
| transformOrigin | animationDelay | animationDuration.

#[global] Instance StyleProp_eq_dec : EqDecision StyleProp.
Proof. solve_decision. Defined.

(** Assigned values.  String literals are kept as they are; the template
    literals [`${a}px ${b}px`] and [`${t}s`] keep the interpolated numbers
    as numbers. *)
Inductive Value :=
| Str (s : string)
| Px2 (cx cy : Q)
| Seconds (t : Q).

Inductive Write :=
| SetStyle (el : Element) (p : StyleProp) (v : Value)
| ClassListAdd (el : Element) (c : string).

Record Node := mkNode {
  style : StyleProp -> option Value;
  classList : list string
}.

Definition blank : Node := {| style := fun _ => None; classList := [] |}.

#[global] Instance Node_inhabited : Inhabited Node := populate blank.

Definition set_style (p : StyleProp) (v : Value) (n : Node) : Node :=
  {| style := fun q => if decide (q = p) then Some v else style n q;
     classList := classList n |}.

(** [classList.add] keeps the token list duplicate free. *)
Definition add_class (c : string) (n : Node) : Node :=
  {| style := style n;
     classList := if bool_decide (c ∈ classList n)
                  then classList n else classList n ++ [c] |}.

Definition perform (w : Write) (d : gmap nat Node) : gmap nat Node :=
  match w with
  | SetStyle el p v => <[el := set_style p v (d !!! el)]> d
  | ClassListAdd el c => <[el := add_class c (d !!! el)]> d
  end.

(** Writes are replayed oldest first. *)
Definition replay (ws : list Write) (d : gmap nat Node) : gmap nat Node :=
  foldl (fun acc w => perform w acc) d ws.

Definition written (w : Write) : Element :=
  match w with SetStyle el _ _ => el | ClassListAdd el _ => el end.

(** The writes of a log that touch one node. *)
Definition writes_on (el : Element) (ws : list Write) : list Write :=
  filter (fun w => written w = el) ws.

Definition sets (p : StyleProp) (w : Write) : bool :=
  match w with
  | SetStyle _ q _ => bool_decide (q = p)
  | ClassListAdd _ _ => false
  end.

Definition adds (c : string) (w : Write) : bool :=
  match w with
  | SetStyle _ _ _ => false
  | ClassListAdd _ c' => bool_decide (c' = c)
  end.

(** How often a log assigns property [p] of node [el]. *)
Definition assignments (el : Element) (p : StyleProp) (ws : list Write) : nat :=
  length (filter (fun w => sets p w = true) (writes_on el ws)).

(** How often a log adds class [c] to node [el]. *)
Definition class_adds (el : Element) (c : string) (ws : list Write) : nat :=
  length (filter (fun w => adds c w = true) (writes_on el ws)).

End Dom.
Import Dom.

(** ** JavaScript numbers *)

Module Binary64.

Local Open Scope Q_scope.

(** A finite JavaScript number is a rational [m * 2^e] with [|m| < 2^53]
    and [-1074 <= e]; it is held as that rational.  The value of an
    operator applied to two numbers is its exact result rounded to the
    nearest such rational, ties to the one with an even [m].  Results of
    magnitude 2^1024 and more, which IEEE 754 turns into an infinity, are
    out of reach of this script (its operands are node-list indices, draws
    of [Math.random], small constants and rendered geometry) and are
    rounded like the others. *)

(** The binary exponent of a positive rational: [2^k <= q < 2^(k+1)]. *)
Definition ilog2 (q : Q) : Z :=
  let k := (Z.log2 (Qnum q) - Z.log2 (Z.pos (Qden q)))%Z in
  if Qle_bool (2 ^ k) q then k else (k - 1)%Z.

(** The nearest integer, ties to even. *)
Definition rne (q : Q) : Z :=
  let f := Qfloor q in
  match Qcompare (q - inject_Z f) (1 # 2) with
  | Lt => f
  | Gt => (f + 1)%Z
  | Eq => if Z.even f then f else (f + 1)%Z
  end.

(** The exponent of the last of the 53 bits of a positive rational; it
    stays at -1074 for subnormal magnitudes. *)
Definition exponent (q : Q) : Z := Z.max (ilog2 q - 52) (-1074).

Definition round_pos (q : Q) : Q :=
  let e := exponent q in Qred (inject_Z (rne (q * 2 ^ (- e))) * 2 ^ e).

(** Round to nearest, ties to even, on sign and magnitude. *)
Definition round (q : Q) : Q :=
  match Qcompare q 0 with
  | Eq => 0
  | Gt => round_pos q
  | Lt => - round_pos (- q)
  end.

(** The operators [+], [-], [*] and [/] on numbers. *)
Definition fadd (a b : Q) : Q := round (a + b).
Definition fsub (a b : Q) : Q := round (a - b).
Definition fmul (a b : Q) : Q := round (a * b).
Definition fdiv (a b : Q) : Q := round (a / b).

(** A decimal literal of the source text denotes the nearest number. *)
Definition literal (q : Q) : Q := round q.

(** A rational that is a number. *)
Definition representable (q : Q) : Prop := round q == q.

(** The rational a binary64 float of the proof checker's own arithmetic
    denotes; [None] for NaN and the infinities. *)
Definition Q_of_float (f : PrimFloat.float) : option Q :=
  match FloatOps.Prim2SF f with
  | SpecFloat.S754_zero _ => Some 0
  | SpecFloat.S754_finite s m e =>
      Some (Qred ((if s then -1 else 1) * inject_Z (Z.pos m) * 2 ^ e))
  | _ => None
  end.

#[global] Arguments round : simpl never.
#[global] Arguments fadd : simpl never.
#[global] Arguments fsub : simpl never.
#[global] Arguments fmul : simpl never.
#[global] Arguments fdiv : simpl never.
#[global] Arguments literal : simpl never.

End Binary64.
Import Binary64.

(** ** Scroll-triggered animations *)

Module Scroll.

(** An IntersectionObserverEntry, reduced to the fields the callback reads. *)
Record Entry := mkEntry { target : Element; isIntersecting : bool }.

(** A pending [setTimeout].  The scheduled closure captures only
    [entry.target], so a timer is its target and its delay in ms. *)
Record Timer := mkTimer { reveals : Element; delay : nat }.

(** The part of the page the animator reads and changes: the observer's
    target set, the pending timers, and the style writes made so far. *)
Record Page := mkPage {
  observed : gset nat;
  timers : list Timer;
  writes : list Write
}.

Definition fresh : Page := {| observed := ∅; timers := []; writes := [] |}.

Definition emit (w : Write) (pg : Page) : Page :=
  {| observed := observed pg; timers := timers pg; writes := writes pg ++ [w] |}.

Definition observe (el : Element) (pg : Page) : Page :=
  {| observed := {[el]} ∪ observed pg; timers := timers pg; writes := writes pg |}.

Definition unobserve (el : Element) (pg : Page) : Page :=
  {| observed := observed pg ∖ {[el]}; timers := timers pg; writes := writes pg |}.

Definition setTimeout (el : Element) (ms : nat) (pg : Page) : Page :=
  {| observed := observed pg;
     timers := timers pg ++ [{| reveals := el; delay := ms |}];
     writes := writes pg |}.

(** [Array.prototype.forEach((x, index) => ...)] over a state. *)
Fixpoint forEach {T} (f : T -> nat -> Page -> Page)
    (index : nat) (l : list T) (pg : Page) : Page :=
  match l with
  | [] => pg
  | x :: rest => forEach f (S index) rest (f x index pg)
  end.

(** Lines 128-132: the initial state of one element. *)
Definition hide (el : Element) (pg : Page) : Page :=
  emit (SetStyle el transition (Str "opacity 0.5s ease, transform 0.5s ease"))
    (emit (SetStyle el transform (Str "translateY(20px)"))
      (emit (SetStyle el opacity (Str "0")) pg)).

(** Lines 138-141: the body of the timeout closure. *)
Definition reveal (el : Element) (pg : Page) : Page :=
  emit (SetStyle el transform (Str "translateY(0)"))
    (emit (SetStyle el opacity (Str "1")) pg).

(** Lines 135-146: the body of the observer callback for one entry. *)
Definition on_entry (entry : Entry) (index : nat) (pg : Page) : Page :=
  if isIntersecting entry
  then unobserve (target entry) (setTimeout (target entry) (index * 100) pg)
  else pg.

(** Lines 134-147: the observer callback. *)
Definition observer_callback (entries : list Entry) (pg : Page) : Page :=
  forEach on_entry 0 entries pg.

(** Lines 117-153.  [supported] is ['IntersectionObserver' in window];
    [animatedElements] is the result of the [querySelectorAll]. *)
Definition initScrollAnimations (supported : bool)
    (animatedElements : list Element) (pg : Page) : Page :=
  if negb supported then pg
  else if (length animatedElements =? 0)%nat then pg
  else
    let pg1 := forEach (fun el _ => hide el) 0 animatedElements pg in
    forEach (fun el _ => observe el) 0 animatedElements pg1.

(** *** The browser side

    The browser reports intersection changes only for targets the observer
    currently observes; whatever else changes on screen never reaches the
    callback.  A pending timer may fire at any later time. *)

Definition delivered (raw : list Entry) (pg : Page) : list Entry :=
  filter (fun e => target e ∈ observed pg) raw.

Definition fire (k : nat) (pg : Page) : Page :=
  match timers pg !! k with
  | None => pg
  | Some t =>
      reveal (reveals t)
        {| observed := observed pg;
           timers := take k (timers pg) ++ drop (S k) (timers pg);
           writes := writes pg |}
  end.

Inductive Event :=
| Notify (raw : list Entry)
| Fire (k : nat).

Definition step (pg : Page) (ev : Event) : Page :=
  match ev with
  | Notify raw => observer_callback (delivered raw pg) pg
  | Fire k => fire k pg
  end.

Definition run (pg : Page) (evs : list Event) : Page := foldl step pg evs.

(** The timers one run of the callback adds when its first entry has
    position [index]. *)
Fixpoint batch_timers (index : nat) (entries : list Entry) : list Timer :=
  match entries with
  | [] => []
  | e :: rest =>
      (if isIntersecting e then [{| reveals := target e; delay := index * 100 |}] else [])
      ++ batch_timers (S index) rest
  end.

(** The targets a batch asks to reveal. *)
Definition intersecting_targets (entries : list Entry) : list Element :=
  target <$> filter (fun e => isIntersecting e = true) entries.

(** The timers a page holds for one element. *)
Definition timers_for (el : Element) (pg : Page) : list Timer :=
  filter (fun t => reveals t = el) (timers pg).

(** The delays of the timers a callback adds, oldest first. *)
Definition scheduled_delays (entries : list Entry) : list nat :=
  delay <$> timers (observer_callback entries fresh).

(** The positions, in the [entries] array, of the intersecting entries. *)
Definition intersecting_positions (entries : list Entry) : list nat :=
  fst <$> filter (fun p => isIntersecting (snd p) = true)
                 (zip (seq 0 (length entries)) entries).

(** The delays the specification describes: the [k]-th intersecting entry
    of the batch waits [k * 100] ms. *)
Definition spec_stagger_delays (entries : list Entry) : list nat :=
  (fun k => k * 100) <$> seq 0 (length (filter (fun e => isIntersecting e = true) entries)).

(** The style writes an element has received, plus the two writes each of
    its pending reveals is going to make. *)
Definition footprint (el : Element) (pg : Page) : nat :=
  length (writes_on el (writes pg)) + 2 * length (timers_for el pg).

(** How many intersecting entries a batch holds for one element. *)
Definition reports (el : Element) (entries : list Entry) : nat :=
  length (filter (fun e => target e = el /\ isIntersecting e = true) entries).

(** A notification that reports each target at most once. *)
Definition tidy (ev : Event) : Prop :=
  match ev with
  | Notify raw => NoDup (target <$> raw)
  | Fire _ => True
  end.

(** The look [initScrollAnimations] gives an element before it is revealed. *)
Definition hidden_look (n : Node) : Prop :=
  style n opacity = Some (Str "0")
  /\ style n transform = Some (Str "translateY(20px)")
  /\ style n transition = Some (Str "opacity 0.5s ease, transform 0.5s ease").

End Scroll.

(** ** Foam cell animation *)

Module Foam.

(** The result of [getBBox()] (an SVGRect); its four attributes are
    numbers. *)
Record BBox := mkBBox { x : Q; y : Q; width : Q; height : Q }.

(** A foam cell: its node, and what [cell.getBBox()] does when called on
    it.  [None] stands for a call that throws. *)
Record Cell := mkCell { node : Element; getBBox : option BBox }.

(** What the two [querySelectorAll] calls and the [querySelector] call of
    [initFoamAnimation] find in the document. *)
Record Document := mkDocument {
  foamCells : list Cell;
  interstitialCells : list Cell;
  svg : option Element
}.

(** The closure handed to [requestAnimationFrame]; it captures the two
    node lists. *)
Record Frame := mkFrame { primary : list Cell; interstitial : list Cell }.

(** The state the script acts on: how many numbers [Math.random] has
    handed out, the style writes so far, and the callbacks waiting for the
    next animation frame. *)
Record World := mkWorld {
  draws : nat;
  writes : list Write;
  animationFrames : list Frame
}.

Definition pristine : World :=
  {| draws := 0; writes := []; animationFrames := [] |}.

Inductive Exn := BBoxFailure.

(** Computations that change the world and may throw.  Writes made before
    a throw stay made. *)
Definition M (A : Type) : Type := World -> (Exn + A) * World.

Definition ret {A} (a : A) : M A := fun w => (inr a, w).

Definition bind {A B} (m : M A) (k : A -> M B) : M B :=
  fun w => match m w with
           | (inl e, w') => (inl e, w')
           | (inr a, w') => k a w'
           end.

Definition throw {A} (e : Exn) : M A := fun w => (inl e, w).

Definition try_catch {A} (body : M A) (handler : Exn -> M A) : M A :=
  fun w => match body w with
           | (inl e, w') => handler e w'
           | (inr a, w') => (inr a, w')
           end.

Declare Scope foam_scope.
Delimit Scope foam_scope with foam.
Notation "'let!' x ':=' m 'in' k" := (bind m (fun x => k))
  (at level 10, x name, m at level 100, k at level 200) : foam_scope.
Notation "m '>>' k" := (bind m (fun _ => k))
  (at level 100, k at level 200, right associativity) : foam_scope.

Definition emit (wr : Write) : M unit :=
  fun w => (inr tt, {| draws := draws w; writes := writes w ++ [wr];
                       animationFrames := animationFrames w |}).

Definition requestAnimationFrame (f : Frame) : M unit :=
  fun w => (inr tt, {| draws := draws w; writes := writes w;
                       animationFrames := animationFrames w ++ [f] |}).

Definition call_getBBox (cell : Cell) : M BBox :=
  match getBBox cell with
  | Some b => ret b
  | None => throw BBoxFailure
  end.

Section Random.

(** [random n] is the number the [n]-th call of [Math.random] returns. *)
Variable random : nat -> Q.

Definition Math_random : M Q :=
  fun w => (inr (random (draws w)),
            {| draws := S (draws w); writes := writes w;
               animationFrames := animationFrames w |}).

Local Open Scope foam_scope.
Local Open Scope Q_scope.

Fixpoint forEach {T} (f : T -> nat -> M unit) (index : nat) (l : list T) : M unit :=
  match l with
  | [] => ret tt
  | c :: rest => f c index >> forEach f (S index) rest
  end.

(** A [forEach] index as a number. *)
Definition number (n : nat) : Q := inject_Z (Z.of_nat n).

(** Lines 205-233: the callback of [foamCells.forEach].  The literals
    [0.5], [1.5], [2] and [20] are numbers as they stand; [0.8] is not and
    denotes the number nearest to it. *)
Definition main_cell (cell : Cell) (index : nat) : M unit :=
  try_catch
    (let! bbox := call_getBBox cell in
     let centerX := fadd (x bbox) (fdiv (width bbox) 2) in
     let centerY := fadd (y bbox) (fdiv (height bbox) 2) in
     emit (SetStyle (node cell) transformOrigin (Px2 centerX centerY)) >>
     (if (index mod 2 =? 1)%nat
      then emit (ClassListAdd (node cell) "phase-contract")
      else ret tt) >>
     let baseDelay := fmul (number index) (-1.5) in
     let! r := Math_random in
     let randomOffset := fmul (fsub r 0.5) (literal 0.8) in
     emit (SetStyle (node cell) animationDelay
             (Seconds (fadd baseDelay randomOffset))) >>
     let! r' := Math_random in
     let durationVariation := fmul (fsub r' 0.5) 2 in
     emit (SetStyle (node cell) animationDuration
             (Seconds (fadd 20 durationVariation))))
    (fun _ => emit (SetStyle (node cell) transformOrigin (Str "center center"))).

(** Lines 236-253: the callback of [interstitialCells.forEach].  [-0.6]
    is the negation of the number nearest to 0.6. *)
Definition interstitial_cell (cell : Cell) (index : nat) : M unit :=
  try_catch
    (let! bbox := call_getBBox cell in
     let centerX := fadd (x bbox) (fdiv (width bbox) 2) in
     let centerY := fadd (y bbox) (fdiv (height bbox) 2) in
     emit (SetStyle (node cell) transformOrigin (Px2 centerX centerY)) >>
     let! r := Math_random in
     let delay := fadd (fmul (number index) (- literal 0.6))
                       (fmul (fsub r 0.5) 1.5) in
     emit (SetStyle (node cell) animationDelay (Seconds delay)) >>
     let! r' := Math_random in
     let duration := fadd 5 (fmul (fsub r' 0.5) 1.5) in
     emit (SetStyle (node cell) animationDuration (Seconds duration)))
    (fun _ => emit (SetStyle (node cell) transformOrigin (Str "center center"))).

(** Lines 203-254: the body of the animation-frame callback. *)
Definition frame_callback (f : Frame) : M unit :=
  forEach main_cell 0 (primary f) >>
  forEach interstitial_cell 0 (interstitial f).

(** Lines 192-255. *)
Definition initFoamAnimation (doc : Document) : M unit :=
  if (length (foamCells doc) =? 0)%nat then ret tt
  else match svg doc with
       | None => ret tt
       | Some _ =>
           requestAnimationFrame
             {| primary := foamCells doc; interstitial := interstitialCells doc |}
       end.

(** The browser's next animation frame: the queue is taken and every
    callback in it runs. *)
Fixpoint run_frames (fs : list Frame) : M unit :=
  match fs with
  | [] => ret tt
  | f :: rest => frame_callback f >> run_frames rest
  end.

Definition next_animation_frame : M unit :=
  fun w => run_frames (animationFrames w)
             {| draws := draws w; writes := writes w; animationFrames := [] |}.

(** A page load: the DOMContentLoaded handler calls [initFoamAnimation],
    then the browser reaches the next animation frame. *)
Definition page_load (doc : Document) : M unit :=
  initFoamAnimation doc >> next_animation_frame.

End Random.

(** *** Reading the log of a frame *)

Definition calm (n : nat) : World :=
  {| draws := n; writes := []; animationFrames := [] |}.

(** What one [forEach] callback writes for a cell at position [index] when
    it runs on its own, [Math.random] having been called [n] times before. *)
Definition cell_log (f : Cell -> nat -> M unit) (c : Cell) (index n : nat)
    : list Write :=
  writes (snd (f c index (calm n))).

(** What the animation-frame callback writes, [Math.random] having been
    called [n] times before. *)
Definition frame_log (random : nat -> Q) (f : Frame) (n : nat) : list Write :=
  writes (snd (frame_callback random f (calm n))).

Definition measurable (c : Cell) : bool :=
  match getBBox c with Some _ => true | None => false end.

(** Calls of [Math.random] a cell costs. *)
Definition cost (c : Cell) : nat := if measurable c then 2 else 0.

Definition pass_cost (cells : list Cell) : nat := sum_list (cost <$> cells).

Fixpoint pass_log (f : Cell -> nat -> M unit) (index n : nat) (cells : list Cell)
    : list Write :=
  match cells with
  | [] => []
  | c :: rest => cell_log f c index n ++ pass_log f (S index) (n + cost c) rest
  end.

(** A callback that never throws, appends to the log what it would write
    on its own, writes to its own cell only, and leaves the frame queue
    alone. *)
Definition orderly (f : Cell -> nat -> M unit) : Prop :=
  forall c index w,
    f c index w
    = (inr tt, {| draws := draws w + cost c;
                  writes := writes w ++ cell_log f c index (draws w);
                  animationFrames := animationFrames w |})
    /\ Forall (fun wr => written wr = node c) (cell_log f c index (draws w)).

End Foam.

(** ** Sample pages *)

Module Samples.

(** A callback batch whose first entry reports an element that is not
    intersecting, as the first notification after [observe] does for every
    element still outside the trigger zone. *)
Definition mixed_batch : list Scroll.Entry :=
  [Scroll.mkEntry 0 false; Scroll.mkEntry 1 true].

(** Two cards entering together. *)
Definition entering_batch : list Scroll.Entry :=
  [Scroll.mkEntry 0 true; Scroll.mkEntry 1 true].

(** A card that came in, went out and came in again before the observer's
    callback ran: the batch holds all three changes. *)
Definition flicker_batch : list Scroll.Entry :=
  [Scroll.mkEntry 0 true; Scroll.mkEntry 0 false; Scroll.mkEntry 0 true].

(** A store whose node 0 carries the hidden look as inline style already. *)
Definition prehidden : gmap nat Node :=
  {[ 0 := set_style transform (Str "translateY(20px)")
            (set_style opacity (Str "0") blank) ]}.

(** A generator that always answers 0.5. *)
Definition steady : nat -> Q := fun _ => 0.5%Q.

Definition box : Foam.BBox :=
  {| Foam.x := 0; Foam.y := 0; Foam.width := 10; Foam.height := 10 |}.

(** Four main cells and two interstitial ones, all measurable. *)
Definition four_cells : Foam.Frame :=
  {| Foam.primary := [Foam.mkCell 0 (Some box); Foam.mkCell 1 (Some box);
                      Foam.mkCell 2 (Some box); Foam.mkCell 3 (Some box)];
     Foam.interstitial := [Foam.mkCell 4 (Some box); Foam.mkCell 5 (Some box)] |}.

(** The second main cell and the first interstitial cell cannot be
    measured: [getBBox] throws for them. *)
Definition unmeasured : Foam.Frame :=
  {| Foam.primary := [Foam.mkCell 0 (Some box); Foam.mkCell 1 None;
                      Foam.mkCell 2 (Some box)];
     Foam.interstitial := [Foam.mkCell 3 None; Foam.mkCell 4 (Some box)] |}.

(** A page with interstitial cells only. *)
Definition no_main_cells : Foam.Document :=
  {| Foam.foamCells := [];
     Foam.interstitialCells := [Foam.mkCell 4 (Some box); Foam.mkCell 5 (Some box)];
     Foam.svg := Some 9 |}.

(** A page whose cells are not inside a [.foam-cells] container. *)
Definition no_container : Foam.Document :=
  {| Foam.foamCells := [Foam.mkCell 0 (Some box); Foam.mkCell 1 (Some box)];
     Foam.interstitialCells := [Foam.mkCell 4 (Some box)];
     Foam.svg := None |}.

End Samples.

(** ** Strings, whitespace and the e-mail pattern *)

Module Text.

(** A JavaScript string is the list of its UTF-16 code units.  [units]
    reads an ASCII literal. *)
Definition units (s : string) : list N :=
  Ascii.N_of_ascii <$> String.list_ascii_of_string s.

(** WhiteSpace and LineTerminator of the language: what [\s] matches and
    what [trim] strips. *)
Definition is_space (c : N) : bool :=
  ((9 <=? c) && (c <=? 13) || (c =? 32) || (c =? 160) || (c =? 5760)
   || (8192 <=? c) && (c <=? 8202) || (c =? 8232) || (c =? 8233)
   || (c =? 8239) || (c =? 8287) || (c =? 12288) || (c =? 65279))%N.

Fixpoint trimStart (s : list N) : list N :=
  match s with
  | [] => []
  | c :: rest => if is_space c then trimStart rest else s
  end.

(** [String.prototype.trim]. *)
Definition trim (s : list N) : list N := rev (trimStart (rev (trimStart s))).

(** A string is falsy exactly when it is empty. *)
Definition truthy (s : list N) : bool :=
  match s with [] => false | _ => true end.

(** Patterns without back references, matched against a whole string. *)
Inductive Regex :=
| Never
| Empty
| Class (p : N -> bool)
| Seq (r s : Regex)
| Or (r s : Regex)
| Star (r : Regex).

(** [c] *)
Definition Lit (c : N) : Regex := Class (N.eqb c).

(** [r+] *)
Definition Plus (r : Regex) : Regex := Seq r (Star r).

(** The strings a pattern matches from [^] to [$]. *)
Inductive matches : Regex -> list N -> Prop :=
| matches_empty : matches Empty []
| matches_class p c : p c = true -> matches (Class p) [c]
| matches_seq r s u v : matches r u -> matches s v -> matches (Seq r s) (u ++ v)
| matches_or_l r s u : matches r u -> matches (Or r s) u
| matches_or_r r s u : matches s u -> matches (Or r s) u
| matches_star_stop r : matches (Star r) []
| matches_star_more r u v :
    matches r u -> matches (Star r) v -> matches (Star r) (u ++ v).

(** Matching by derivatives. *)
Fixpoint nullable (r : Regex) : bool :=
  match r with
  | Never => false
  | Empty => true
  | Class _ => false
  | Seq r s => nullable r && nullable s
  | Or r s => nullable r || nullable s
  | Star _ => true
  end.

Fixpoint derive (c : N) (r : Regex) : Regex :=
  match r with
  | Never => Never
  | Empty => Never
  | Class p => if p c then Empty else Never
  | Seq r s =>
      if nullable r then Or (Seq (derive c r) s) (derive c s)
      else Seq (derive c r) s
  | Or r s => Or (derive c r) (derive c s)
  | Star r => Seq (derive c r) (Star r)
  end.

(** [RegExp.prototype.test] for a pattern anchored at both ends. *)
Fixpoint test (r : Regex) (s : list N) : bool :=
  match s with
  | [] => nullable r
  | c :: rest => test (derive c r) rest
  end.

(** [[^\s@]] *)
Definition plain (c : N) : bool := negb (is_space c || (c =? 64)%N).

(** Line 177: [/^[^\s@]+@[^\s@]+\.[^\s@]+$/]. *)
Definition emailRegex : Regex :=
  Seq (Plus (Class plain))
    (Seq (Lit 64)
       (Seq (Plus (Class plain))
          (Seq (Lit 46) (Plus (Class plain))))).

End Text.

(** ** Class lists *)

Module ClassList.

(** A DOMTokenList is an ordered list of tokens. *)
Definition contains (c : string) (l : list string) : bool := bool_decide (c ∈ l).

Definition add (c : string) (l : list string) : list string :=
  if contains c l then l else l ++ [c].

Definition remove (c : string) (l : list string) : list string :=
  filter (fun t => t <> c) l.

(** [toggle(c)] *)
Definition toggle (c : string) (l : list string) : list string :=
  if contains c l then remove c l else l ++ [c].

(** [toggle(c, force)] *)
Definition toggle_to (c : string) (force : bool) (l : list string) : list string :=
  if force then add c l else remove c l.

(** The class lists of the page, by node.  A node without an entry has
    no class. *)
Definition update (f : list string -> list string) (el : Element)
    (cls : gmap nat (list string)) : gmap nat (list string) :=
  <[el := f (cls !!! el)]> cls.

End ClassList.

(** ** Form validation *)

Module Form.

Import Text ClassList.

(** What the two queries of [validateForm] find in the form: the first
    e-mail input, if any, and the fields carrying [required]. *)
Record FormElement := mkForm {
  email : option Element;
  requiredFields : list Element
}.

(** Lines 166-173: the callback of [requiredFields.forEach], on the pair
    of [isValid] and the class lists.  [value] gives the current
    [.value] of every field. *)
Definition check_required (value : Element -> list N)
    (acc : bool * gmap nat (list string)) (field : Element)
    : bool * gmap nat (list string) :=
  if negb (truthy (trim (value field)))
  then (false, update (add "error") field (snd acc))
  else (fst acc, update (remove "error") field (snd acc)).

(** Lines 160-185. *)
Definition validateForm (value : Element -> list N) (formElement : FormElement)
    (cls : gmap nat (list string)) : bool * gmap nat (list string) :=
  let acc := foldl (check_required value) (true, cls) (requiredFields formElement) in
  match email formElement with
  | Some e =>
      if truthy (value e)
      then if negb (test emailRegex (value e))
           then (false, update (add "error") e (snd acc))
           else acc
      else acc
  | None => acc
  end.

(** Only whitespace. *)
Definition blank (s : list N) : Prop := Forall (fun c => is_space c = true) s.

(** [local@domain.tld]: three non-empty runs free of whitespace and [@],
    separated by an [@] and a dot. *)
Definition address_shaped (s : list N) : Prop :=
  exists u v w,
    s = u ++ 64%N :: v ++ 46%N :: w
    /\ u <> [] /\ v <> [] /\ w <> []
    /\ Forall (fun c => plain c = true) u
    /\ Forall (fun c => plain c = true) v
    /\ Forall (fun c => plain c = true) w.

(** What one pass over the required fields does to the class list of a
    field. *)
Definition verdict_on (value : Element -> list N) (field : Element)
    (l : list string) : list string :=
  if negb (truthy (trim (value field))) then add "error" l else remove "error" l.

(** The e-mail input is [el], it is filled in, and the pattern rejects it. *)
Definition rejected_email (value : Element -> list N) (formElement : FormElement)
    (el : Element) : bool :=
  match email formElement with
  | Some e => bool_decide (e = el) && truthy (value e)
              && negb (test emailRegex (value e))
  | None => false
  end.

End Form.

(** ** Menu, accordion and anchors *)

Module UI.

Import ClassList.

(** Calls the anchor handler makes on the event and on the target. *)
Inductive Call :=
| preventDefault
| scrollIntoView (target : Element).

(** The part of the page the listeners of lines 19-110 read and change:
    the class lists, [document.body.style.overflow], and the calls made
    by the anchor handler. *)
Record Site := mkSite {
  classes : gmap nat (list string);
  overflow : string;
  calls : list Call
}.

(** What [document.querySelector] does with a selector. *)
Inductive Found :=
| Throws
| Missing
| Present (el : Element).

(** What the handlers read from the document when they run: the [href]
    attribute of an anchor, and the result of a selector query. *)
Record Env := mkEnv {
  href : Element -> list N;
  querySelector : list N -> Found
}.

(** The closures passed to [addEventListener], with what they capture. *)
Inductive Handler :=
| toggle_click (toggle mobileMenu : Element)
| link_click (toggle mobileMenu : Element)
| escape_key (toggle mobileMenu : Element)
| question_click (item : Element) (faqItems : list Element)
| anchor_click (anchor : Element).

Inductive Target :=
| document
| node (el : Element).

Inductive Kind :=
| click
| keydown.

Record Listener := mkListener {
  target : Target;
  kind : Kind;
  handler : Handler
}.

(** An event reaching a listener target: a click arriving at a node (a
    click on a page passes through the clicked node and its ancestors,
    one [Click] each), or a key press arriving at the document. *)
Inductive Event :=
| Click (el : Element)
| Keydown (key : string).

Definition has_class (c : string) (el : Element) (s : Site) : bool :=
  contains c (classes s !!! el).

Definition set_classes (f : list string -> list string) (el : Element)
    (s : Site) : Site :=
  {| classes := update f el (classes s); overflow := overflow s; calls := calls s |}.

Definition set_overflow (v : string) (s : Site) : Site :=
  {| classes := classes s; overflow := v; calls := calls s |}.

Definition call (c : Call) (s : Site) : Site :=
  {| classes := classes s; overflow := overflow s; calls := calls s ++ [c] |}.

(** Lines 25-36. *)
Definition on_toggle_click (toggle mobileMenu : Element) (s : Site) : Site :=
  let isOpen := has_class "active" mobileMenu s in
  let s1 := set_classes (ClassList.toggle "active") mobileMenu s in
  let s2 := set_classes (ClassList.toggle "active") toggle s1 in
  set_overflow (if isOpen then "" else "hidden") s2.

(** Lines 40-44 and 50-52. *)
Definition close_menu (toggle mobileMenu : Element) (s : Site) : Site :=
  let s1 := set_classes (remove "active") mobileMenu s in
  let s2 := set_classes (remove "active") toggle s1 in
  set_overflow "" s2.

(** Lines 48-54. *)
Definition on_keydown (toggle mobileMenu : Element) (key : string) (s : Site) : Site :=
  if String.eqb key "Escape" && has_class "active" mobileMenu s
  then close_menu toggle mobileMenu s
  else s.

(** Lines 70-82. *)
Definition on_question_click (item : Element) (faqItems : list Element)
    (s : Site) : Site :=
  let isActive := has_class "active" item s in
  let s1 := foldl (fun acc otherItem =>
                     if decide (otherItem <> item)
                     then set_classes (remove "active") otherItem acc
                     else acc) s faqItems in
  set_classes (toggle_to "active" (negb isActive)) item s1.

(** Lines 93-108.  A query that throws ends the handler. *)
Definition on_anchor_click (env : Env) (anchor : Element) (s : Site) : Site :=
  let targetId := href env anchor in
  if bool_decide (targetId = [35%N]) then s
  else match querySelector env targetId with
       | Present t => call (scrollIntoView t) (call preventDefault s)
       | Missing => s
       | Throws => s
       end.

Definition handle (env : Env) (h : Handler) (ev : Event) (s : Site) : Site :=
  match h with
  | toggle_click t m => on_toggle_click t m s
  | link_click t m => close_menu t m s
  | escape_key t m =>
      match ev with
      | Keydown key => on_keydown t m key s
      | Click _ => s
      end
  | question_click item faqItems => on_question_click item faqItems s
  | anchor_click a => on_anchor_click env a s
  end.

Definition hears (l : Listener) (ev : Event) : bool :=
  match ev, target l, kind l with
  | Click el, node el', click => bool_decide (el = el')
  | Keydown _, document, keydown => true
  | _, _, _ => false
  end.

(** The listeners that hear an event run in registration order. *)
Definition dispatch (env : Env) (ls : list Listener) (ev : Event) (s : Site) : Site :=
  foldl (fun acc l => if hears l ev then handle env (handler l) ev acc else acc) s ls.

Definition run (env : Env) (ls : list Listener) (evs : list Event) (s : Site) : Site :=
  foldl (fun acc ev => dispatch env ls ev acc) s evs.

(** What [initMobileMenu] finds: the toggle, the menu, and the links
    inside the menu. *)
Record MenuParts := mkMenu {
  nav_toggle : option Element;
  mobile_menu : option Element;
  menu_links : list Element
}.

(** Lines 19-55. *)
Definition initMobileMenu (d : MenuParts) : list Listener :=
  match nav_toggle d, mobile_menu d with
  | Some t, Some m =>
      [mkListener (node t) click (toggle_click t m)]
      ++ ((fun link => mkListener (node link) click (link_click t m)) <$> menu_links d)
      ++ [mkListener document keydown (escape_key t m)]
  | _, _ => []
  end.

(** A [.faq-item] and the [.faq-question] found inside it, if any. *)
Record FaqItem := mkFaq { item : Element; question : option Element }.

Inductive Exn :=
| TypeError
| FromFoam (e : Foam.Exn).

(** Lines 67-83: [question.addEventListener] throws when [question] is
    null, and the listeners added before stay. *)
Fixpoint wire_faq (faqItems : list Element) (rest : list FaqItem)
    : (Exn + unit) * list Listener :=
  match rest with
  | [] => (inr tt, [])
  | it :: rest' =>
      match question it with
      | None => (inl TypeError, [])
      | Some q =>
          let '(r, ls) := wire_faq faqItems rest' in
          (r, mkListener (node q) click (question_click (item it) faqItems) :: ls)
      end
  end.

(** Lines 62-84. *)
Definition initFAQ (items : list FaqItem) : (Exn + unit) * list Listener :=
  if (length items =? 0)%nat then (inr tt, [])
  else wire_faq (item <$> items) items.

(** Lines 91-110. *)
Definition initSmoothScroll (anchors : list Element) : list Listener :=
  (fun a => mkListener (node a) click (anchor_click a)) <$> anchors.

(** Everything the initialisers look up in the document. *)
Record Document := mkDocument {
  menu : MenuParts;
  faq : list FaqItem;
  anchors : list Element;
  has_IntersectionObserver : bool;
  animatedElements : list Element;
  foam : Foam.Document
}.

(** The page once the DOMContentLoaded handler has run. *)
Record Loaded := mkLoaded {
  listeners : list Listener;
  page : Scroll.Page;
  world : Foam.World
}.

(** Lines 6-12: the initialisers run in order, and an exception ends the
    handler. *)
Definition on_DOMContentLoaded (doc : Document) : (Exn + unit) * Loaded :=
  let ls1 := initMobileMenu (menu doc) in
  match initFAQ (faq doc) with
  | (inl e, ls2) =>
      (inl e, {| listeners := ls1 ++ ls2; page := Scroll.fresh;
                 world := Foam.pristine |})
  | (inr _, ls2) =>
      let ls3 := initSmoothScroll (anchors doc) in
      let pg := Scroll.initScrollAnimations (has_IntersectionObserver doc)
                  (animatedElements doc) Scroll.fresh in
      let '(r, w) := Foam.initFoamAnimation (foam doc) Foam.pristine in
      (match r with inl e => inl (FromFoam e) | inr u => inr u end,
       {| listeners := ls1 ++ ls2 ++ ls3; page := pg; world := w |})
  end.

(** A listener as the initialisers register it on the page [doc]. *)
Definition wired (doc : Document) (l : Listener) : Prop :=
  match handler l with
  | toggle_click t m | link_click t m =>
      nav_toggle (menu doc) = Some t /\ mobile_menu (menu doc) = Some m
      /\ kind l = click
  | escape_key t m =>
      nav_toggle (menu doc) = Some t /\ mobile_menu (menu doc) = Some m
  | question_click it all =>
      all = item <$> faq doc /\ it ∈ all /\ kind l = click
  | anchor_click a =>
      a ∈ anchors doc /\ kind l = click
  end.

(** The two calls of a smooth scroll towards each of [ts], in order. *)
Definition smooth_scrolls (ts : list Element) : list Call :=
  ts ≫= (fun t => [preventDefault; scrollIntoView t]).

(** The menu is open, the toggle shows it, and the page behind is locked;
    or none of the three. *)
Definition in_step (t m : Element) (s : Site) : Prop :=
  has_class "active" t s = has_class "active" m s
  /\ overflow s = (if has_class "active" m s then "hidden" else "").

(** At most one of the items is open. *)
Definition one_open (items : list Element) (s : Site) : Prop :=
  forall a b, a ∈ items -> b ∈ items ->
    has_class "active" a s = true -> has_class "active" b s = true -> a = b.

End UI.

(** ** Traces of the scroll animator *)

Module Traces.

Import Scroll.

(** An event that does not report [el] as intersecting. *)
Definition keeps_out (el : Element) (ev : Event) : Prop :=
  match ev with
  | Notify raw => mkEntry el true ∉ raw
  | Fire _ => True
  end.

(** The writes the animator can make: a string assigned to [opacity],
    [transform] or [transition] of one of the watched elements. *)
Definition animator_write (els : list Element) (w : Write) : Prop :=
  match w with
  | SetStyle el p (Str _) =>
      el ∈ els /\ (p = opacity \/ p = transform \/ p = transition)
  | _ => False
  end.

(** The two writes of a reveal. *)
Definition reveal_write (w : Write) : Prop :=
  exists el, w = SetStyle el opacity (Str "1")
             \/ w = SetStyle el transform (Str "translateY(0)").

(** The look of a revealed element. *)
Definition shown_look (n : Node) : Prop :=
  style n opacity = Some (Str "1")
  /\ style n transform = Some (Str "translateY(0)").

(** What holds of every page the animator can reach from the watched
    elements [els]. *)
Definition settled (els : list Element) (pg : Page) : Prop :=
  Forall (animator_write els) (writes pg)
  /\ observed pg ⊆ list_to_set els
  /\ Forall (fun t => reveals t ∈ els /\ reveals t ∉ observed pg) (timers pg).

End Traces.

(** ** The writes of the foam assigner *)

Module Layers.

(** The writes the foam assigner can make: transform-origin,
    animation-delay, animation-duration, or a class. *)
Definition foam_write (w : Write) : Prop :=
  match w with
  | SetStyle _ p _ =>
      p = transformOrigin \/ p = animationDelay \/ p = animationDuration
  | ClassListAdd _ _ => True
  end.

(** The writes of the scroll animator, whatever the element. *)
Definition scroll_write (w : Write) : Prop :=
  match w with
  | SetStyle _ p _ => p = opacity \/ p = transform \/ p = transition
  | ClassListAdd _ _ => False
  end.

End Layers.

(** ** More sample pages *)

Module Cases.

(** A page with a menu (toggle 10, menu 11, one link 12), two FAQ items
    (20 and 21, with questions 30 and 31), one anchor (40), two cards and a
    foam drawing. *)
Definition site : UI.Document :=
  {| UI.menu := {| UI.nav_toggle := Some 10; UI.mobile_menu := Some 11;
                   UI.menu_links := [12] |};
     UI.faq := [UI.mkFaq 20 (Some 30); UI.mkFaq 21 (Some 31)];
     UI.anchors := [40];
     UI.has_IntersectionObserver := true;
     UI.animatedElements := [20; 21];
     UI.foam := {| Foam.foamCells := Foam.primary Samples.four_cells;
                   Foam.interstitialCells := Foam.interstitial Samples.four_cells;
                   Foam.svg := Some 9 |} |}.

(** The same page, the second FAQ item lacking its question. *)
Definition broken_site : UI.Document :=
  {| UI.menu := UI.menu site;
     UI.faq := [UI.mkFaq 20 (Some 30); UI.mkFaq 21 None];
     UI.anchors := UI.anchors site;
     UI.has_IntersectionObserver := true;
     UI.animatedElements := UI.animatedElements site;
     UI.foam := UI.foam site |}.

(** Anchor 40 points at "#top", which is node 50. *)
Definition links_to_top : UI.Env :=
  {| UI.href := fun _ => Text.units "#top";
     UI.querySelector := fun _ => UI.Present 50 |}.

Definition closed : UI.Site :=
  {| UI.classes := ∅; UI.overflow := ""; UI.calls := [] |}.

(** Both FAQ items open, as the markup may have them. *)
Definition both_open : UI.Site :=
  {| UI.classes := {[ 20 := ["faq-item"; "active"]; 21 := ["faq-item"; "active"] ]};
     UI.overflow := ""; UI.calls := [] |}.

(** A filled-in form whose optional e-mail input carries an old error mark. *)
Definition stale_marks : gmap nat (list string) := {[ 1 := ["input"; "error"] ]}.

(** The name is left blank (two spaces), the address lacks a dot. *)
Definition sloppy (el : nat) : list N :=
  match el with
  | 0 => Text.units "  "
  | 1 => Text.units "ada@example"
  | _ => []
  end.

(** Form fields: 0 a name, 1 an e-mail input. *)
Definition filled (el : nat) : list N :=
  match el with
  | 0 => Text.units "Ada"
  | 1 => Text.units "ada@example.org"
  | _ => []
  end.

Definition contact_form : Form.FormElement :=
  {| Form.email := Some 1; Form.requiredFields := [0] |}.




End Cases.

(** * Rounding to binary64 *)

Section Binary64Facts.

Local Open Scope Q_scope.

Lemma two_nonzero : ~ 2 == 0.
Proof. discriminate. Qed.

Lemma pow2_pos (e : Z) : 0 < 2 ^ e.
Proof. apply Qpower_0_lt. reflexivity. Qed.

Lemma pow2_add (a b : Z) : 2 ^ (a + b) == 2 ^ a * 2 ^ b.
Proof. apply Qpower_plus, two_nonzero. Qed.

Lemma pow2_cancel (e : Z) : 2 ^ (- e) * 2 ^ e == 1.
Proof.
  rewrite <- pow2_add. replace (- e + e)%Z with 0%Z by lia. reflexivity.
Qed.

Lemma pow2_le (a b : Z) : (a <= b)%Z -> 2 ^ a <= 2 ^ b.
Proof. intros H. apply Qpower_le_compat_l; [exact H | discriminate]. Qed.

Lemma pow2_lt_inv (a b : Z) : 2 ^ a < 2 ^ b -> (a < b)%Z.
Proof. intros H. apply (Qpower_lt_compat_l_inv 2); [exact H | reflexivity]. Qed.

Lemma pow2_Z (n : Z) : (0 <= n)%Z -> 2 ^ n == inject_Z (2 ^ n).
Proof. intros H. symmetry. exact (Zpower_Qpower 2 n H). Qed.

(** [ilog2] is the binary exponent of a positive number. *)
Lemma ilog2_spec (q : Q) : 0 < q -> 2 ^ ilog2 q <= q /\ q < 2 ^ (ilog2 q + 1).
Proof.
  intros Hq. unfold ilog2.
  destruct q as [n d]. cbn [Qnum Qden].
  assert (Hn : (0 < n)%Z).
  { unfold Qlt in Hq. cbn in Hq. lia. }
  set (ln := Z.log2 n). set (ld := Z.log2 (Z.pos d)).
  destruct (Z.log2_spec n Hn) as [Hn1 Hn2]. fold ln in Hn1, Hn2.
  destruct (Z.log2_spec (Z.pos d) (Pos2Z.is_pos d)) as [Hd1 Hd2].
  fold ld in Hd1, Hd2.
  assert (Hln : (0 <= ln)%Z) by apply Z.log2_nonneg.
  assert (Hld : (0 <= ld)%Z) by apply Z.log2_nonneg.
  rewrite Z.pow_succ_r in Hn2, Hd2 by assumption.
  set (A := (2 ^ ln)%Z) in *. set (B := (2 ^ ld)%Z) in *.
  assert (HA : (0 < A)%Z) by (apply Z.pow_pos_nonneg; lia).
  assert (HB : (0 < B)%Z) by (apply Z.pow_pos_nonneg; lia).
  assert (Hk : forall j : Z, 2 ^ (ln - ld + j) == inject_Z A / inject_Z B * 2 ^ j).
  { intros j. rewrite pow2_add. unfold Z.sub. rewrite pow2_add, Qpower_opp.
    rewrite (pow2_Z ln Hln), (pow2_Z ld Hld). reflexivity. }
  assert (Hk0 : 2 ^ (ln - ld) == inject_Z A / inject_Z B).
  { rewrite <- (Z.add_0_r (ln - ld)), Hk. cbn. ring. }
  assert (HBq : 0 < inject_Z B) by (rewrite <- (Zlt_Qlt 0); exact HB).
  (* q below twice A/B, and at least half of it *)
  assert (Hup : n # d < inject_Z A / inject_Z B * 2).
  { unfold Qlt, Qdiv, Qmult, Qinv, inject_Z. cbn.
    destruct B as [|b|b]; try lia. cbn. nia. }
  assert (Hlow : inject_Z A / inject_Z B * (1 # 2) <= n # d).
  { unfold Qle, Qdiv, Qmult, Qinv, inject_Z. cbn.
    destruct B as [|b|b]; try lia. cbn. nia. }
  destruct (Qle_bool (2 ^ (ln - ld)) (n # d)) eqn:Ht.
  - apply Qle_bool_iff in Ht. split; [exact Ht|].
    rewrite Hk. exact Hup.
  - assert (Hlt : n # d < 2 ^ (ln - ld)).
    { apply Qnot_le_lt. intros H. apply Qle_bool_iff in H. congruence. }
    split.
    + replace (ln - ld - 1)%Z with (ln - ld + -1)%Z by lia.
      rewrite Hk. exact Hlow.
    + replace (ln - ld - 1 + 1)%Z with (ln - ld)%Z by lia. exact Hlt.
Qed.


Lemma rne_bounds (q : Q) : (Qfloor q <= rne q <= Qfloor q + 1)%Z.
Proof.
  unfold rne. destruct (Qcompare _ _); [destruct (Z.even _)| |]; lia.
Qed.

Lemma rne_Z (z : Z) : rne (inject_Z z) = z.
Proof.
  unfold rne. rewrite Qfloor_Z.
  destruct (Qcompare_spec (inject_Z z - inject_Z z) (1 # 2)); [lra | reflexivity | lra].
Qed.

Lemma rne_comp (p q : Q) : p == q -> rne p = rne q.
Proof.
  intros H. unfold rne. rewrite (Qfloor_comp p q H).
  assert (E : p - inject_Z (Qfloor q) == q - inject_Z (Qfloor q))
    by (rewrite H; reflexivity).
  rewrite (Qcompare_comp _ _ E _ _ (Qeq_refl (1 # 2))). reflexivity.
Qed.

(** Rounding to the nearest integer keeps the order. *)
Lemma rne_mono (p q : Q) : p <= q -> (rne p <= rne q)%Z.
Proof.
  intros H.
  pose proof (Qfloor_resp_le p q H) as Hf.
  destruct (Z.eq_dec (Qfloor p) (Qfloor q)) as [E|N].
  - unfold rne. rewrite E.
    assert (Hd : p - inject_Z (Qfloor q) <= q - inject_Z (Qfloor q)) by lra.
    destruct (Qcompare_spec (p - inject_Z (Qfloor q)) (1 # 2)) as [H1|H1|H1];
    destruct (Qcompare_spec (q - inject_Z (Qfloor q)) (1 # 2)) as [H2|H2|H2];
    try destruct (Z.even (Qfloor q)); try lia; lra.
  - pose proof (rne_bounds p). pose proof (rne_bounds q). lia.
Qed.

Lemma rne_nonneg (q : Q) : 0 <= q -> (0 <= rne q)%Z.
Proof. intros H. rewrite <- (rne_Z 0). apply rne_mono. exact H. Qed.

Lemma round_pos_eq (q : Q) :
  round_pos q == inject_Z (rne (q * 2 ^ (- exponent q))) * 2 ^ exponent q.
Proof. unfold round_pos. apply Qred_correct. Qed.

Lemma round_pos_nonneg (q : Q) : 0 <= q -> 0 <= round_pos q.
Proof.
  intros H. rewrite round_pos_eq.
  apply Qmult_le_0_compat.
  - rewrite <- (Zle_Qle 0). apply rne_nonneg.
    apply Qmult_le_0_compat; [exact H | apply Qlt_le_weak, pow2_pos].
  - apply Qlt_le_weak, pow2_pos.
Qed.

Lemma ilog2_mono (p q : Q) : 0 < p -> p <= q -> (ilog2 p <= ilog2 q)%Z.
Proof.
  intros Hp Hpq.
  destruct (ilog2_spec p Hp) as [H1 _].
  destruct (ilog2_spec q) as [_ H2]; [lra|].
  assert (H : 2 ^ ilog2 p < 2 ^ (ilog2 q + 1)) by lra.
  apply pow2_lt_inv in H. lia.
Qed.

(** Rounding a positive number keeps the order. *)
Lemma round_pos_mono (p q : Q) : 0 < p -> p <= q -> round_pos p <= round_pos q.
Proof.
  intros Hp Hpq. assert (Hq : 0 < q) by lra.
  rewrite !round_pos_eq.
  pose proof (ilog2_mono p q Hp Hpq) as Hl.
  set (ep := exponent p). set (eq := exponent q).
  assert (He : (ep <= eq)%Z) by (unfold ep, eq, exponent; lia).
  destruct (Z.eq_dec ep eq) as [E|N].
  - rewrite E. apply Qmult_le_compat_r; [|apply Qlt_le_weak, pow2_pos].
    rewrite <- Zle_Qle. apply rne_mono.
    apply Qmult_le_compat_r; [exact Hpq | apply Qlt_le_weak, pow2_pos].
  - assert (Heq : eq = (ilog2 q - 52)%Z) by (unfold ep, eq, exponent in *; lia).
    assert (Hep : (ilog2 p - 52 <= ep)%Z) by (unfold ep, exponent; lia).
    destruct (ilog2_spec p Hp) as [_ Hp2].
    destruct (ilog2_spec q Hq) as [Hq1 _].
    (* the mantissa of p is at most 2^53, that of q at least 2^52 *)
    assert (Hmp : (rne (p * 2 ^ (- ep)) <= 2 ^ 53)%Z).
    { rewrite <- (rne_Z (2 ^ 53)). apply rne_mono.
      rewrite <- (pow2_Z 53) by lia.
      apply Qle_trans with (2 ^ (ilog2 p + 1) * 2 ^ (- ep)).
      - apply Qmult_le_compat_r; [lra | apply Qlt_le_weak, pow2_pos].
      - rewrite <- pow2_add. apply pow2_le. lia. }
    assert (Hmq : (2 ^ 52 <= rne (q * 2 ^ (- eq)))%Z).
    { rewrite <- (rne_Z (2 ^ 52)) at 1. apply rne_mono.
      rewrite <- (pow2_Z 52) by lia.
      apply Qle_trans with (2 ^ ilog2 q * 2 ^ (- eq)).
      - rewrite <- pow2_add. apply pow2_le. lia.
      - apply Qmult_le_compat_r; [lra | apply Qlt_le_weak, pow2_pos]. }
    apply Qle_trans with (2 ^ (53 + ep)).
    + rewrite pow2_add, (pow2_Z 53) by lia.
      apply Qmult_le_compat_r; [|apply Qlt_le_weak, pow2_pos].
      rewrite <- Zle_Qle. exact Hmp.
    + apply Qle_trans with (2 ^ (52 + eq)).
      * apply pow2_le. lia.
      * rewrite pow2_add, (pow2_Z 52) by lia.
        apply Qmult_le_compat_r; [|apply Qlt_le_weak, pow2_pos].
        rewrite <- Zle_Qle. exact Hmq.
Qed.

Lemma round_pos_comp (p q : Q) : p == q -> 0 < p -> round_pos p == round_pos q.
Proof.
  intros E Hp. apply Qle_antisym; apply round_pos_mono; lra.
Qed.

Lemma round_nonneg (q : Q) : 0 <= q -> 0 <= round q.
Proof.
  intros H. unfold round.
  destruct (Qcompare_spec q 0) as [E|L|G]; [lra | lra |].
  apply round_pos_nonneg. exact H.
Qed.

Lemma round_nonpos (q : Q) : q <= 0 -> round q <= 0.
Proof.
  intros H. unfold round.
  destruct (Qcompare_spec q 0) as [E|L|G]; [lra | | lra].
  pose proof (round_pos_nonneg (- q)). lra.
Qed.

(** Rounding to binary64 is monotone. *)
Lemma round_mono (p q : Q) : p <= q -> round p <= round q.
Proof.
  intros H.
  destruct (Qlt_le_dec 0 p) as [Hp|Hp].
  - unfold round.
    destruct (Qcompare_spec p 0) as [?|?|?]; [lra | lra |].
    destruct (Qcompare_spec q 0) as [?|?|?]; [lra | lra |].
    apply round_pos_mono; assumption.
  - destruct (Qlt_le_dec q 0) as [Hq|Hq].
    + unfold round.
      destruct (Qcompare_spec p 0) as [?|?|?]; [lra | | lra].
      destruct (Qcompare_spec q 0) as [?|?|?]; [lra | | lra].
      assert (round_pos (- q) <= round_pos (- p)) by (apply round_pos_mono; lra).
      lra.
    + apply Qle_trans with 0; [apply round_nonpos | apply round_nonneg]; assumption.
Qed.

#[global] Instance round_comp : Proper (Qeq ==> Qeq) round.
Proof.
  intros p q H. apply Qle_antisym; apply round_mono; rewrite H; apply Qle_refl.
Qed.

(** Numbers with a 53-bit numerator over a power of two (down to 2^-1074)
    are binary64 values: rounding leaves them alone. *)
Lemma round_pos_dyadic (k p : Z) :
  (0 < k < 2 ^ 53)%Z -> (0 <= p <= 1074)%Z ->
  round_pos (inject_Z k * 2 ^ (- p)) == inject_Z k * 2 ^ (- p).
Proof.
  intros Hk Hp. set (q := inject_Z k * 2 ^ (- p)).
  assert (Hq : 0 < q).
  { unfold q. apply Qmult_lt_0_compat; [|apply pow2_pos].
    rewrite <- (Zlt_Qlt 0). lia. }
  assert (He : (exponent q <= - p)%Z).
  { destruct (ilog2_spec q Hq) as [H1 _].
    assert (H2 : q < 2 ^ (53 - p)).
    { unfold q. unfold Z.sub. rewrite pow2_add, (pow2_Z 53) by lia.
      apply Qmult_lt_compat_r; [apply pow2_pos|].
      rewrite <- Zlt_Qlt. lia. }
    assert (H3 : 2 ^ ilog2 q < 2 ^ (53 - p)) by lra.
    apply pow2_lt_inv in H3. unfold exponent. lia. }
  rewrite round_pos_eq. fold q.
  set (e := exponent q) in *.
  assert (Hs : q * 2 ^ (- e) == inject_Z (k * 2 ^ (- p - e))).
  { unfold q. rewrite inject_Z_mult, <- (pow2_Z (- p - e)) by lia.
    unfold Z.sub. rewrite pow2_add. ring. }
  rewrite (rne_comp _ _ Hs), rne_Z, <- Hs.
  rewrite <- Qmult_assoc, pow2_cancel. ring.
Qed.

Lemma round_dyadic (k p : Z) :
  (Z.abs k < 2 ^ 53)%Z -> (0 <= p <= 1074)%Z ->
  round (inject_Z k * 2 ^ (- p)) == inject_Z k * 2 ^ (- p).
Proof.
  intros Hk Hp. unfold round.
  pose proof (pow2_pos (- p)) as H2.
  destruct (Qcompare_spec (inject_Z k * 2 ^ (- p)) 0) as [E|L|G].
  - rewrite E. reflexivity.
  - assert (Hneg : (k < 0)%Z).
    { destruct (Z.lt_ge_cases k 0) as [?|Hge]; [assumption|].
      rewrite (Zle_Qle 0) in Hge.
      pose proof (Qmult_le_0_compat _ _ Hge (Qlt_le_weak _ _ H2)). lra. }
    assert (E : - (inject_Z k * 2 ^ (- p)) == inject_Z (- k) * 2 ^ (- p))
      by (rewrite inject_Z_opp; ring).
    rewrite (round_pos_comp _ _ E) by lra.
    rewrite round_pos_dyadic by lia. rewrite inject_Z_opp. ring.
  - assert (Hpos : (0 < k)%Z).
    { destruct (Z.lt_ge_cases 0 k) as [?|Hle]; [assumption|].
      rewrite (Zle_Qle k 0) in Hle.
      assert (inject_Z k * 2 ^ (- p) <= 0 * 2 ^ (- p)).
      { apply Qmult_le_compat_r; [exact Hle | lra]. }
      lra. }
    apply round_pos_dyadic; lia.
Qed.

(** Whole numbers below 2^53 are binary64 values. *)
Lemma round_Z (k : Z) : (Z.abs k < 2 ^ 53)%Z -> round (inject_Z k) == inject_Z k.
Proof.
  intros H. pose proof (round_dyadic k 0 H ltac:(lia)) as E.
  cbn in E. rewrite Qmult_1_r in E. exact E.
Qed.

Lemma fadd_mono (a b c d : Q) : a <= c -> b <= d -> fadd a b <= fadd c d.
Proof. intros H1 H2. apply round_mono. lra. Qed.

Lemma fsub_mono (a b c d : Q) : a <= c -> d <= b -> fsub a b <= fsub c d.
Proof. intros H1 H2. apply round_mono. lra. Qed.

Lemma fmul_mono (a b c : Q) : 0 <= c -> a <= b -> fmul a c <= fmul b c.
Proof.
  intros H1 H2. apply round_mono. apply Qmult_le_compat_r; assumption.
Qed.

Lemma fdiv_mono (a b c : Q) : 0 < c -> a <= b -> fdiv a c <= fdiv b c.
Proof.
  intros H1 H2. apply round_mono. unfold Qdiv.
  apply Qmult_le_compat_r; [exact H2|].
  apply Qlt_le_weak, Qinv_lt_0_compat, H1.
Qed.

(** The literals of the script that are numbers as they stand. *)
Lemma exact_literals :
  representable 0.5 /\ representable 1.5 /\ representable 2
  /\ representable 20 /\ representable 5 /\ representable 0.75
  /\ representable 19 /\ representable 21
  /\ representable 4.25 /\ representable 5.75.
Proof. unfold representable. repeat split; vm_compute; reflexivity. Qed.


End Binary64Facts.

Section Binary64Hardware.

Import PrimFloat.
Local Set Warnings "-inexact-float".
Local Open Scope Q_scope.

(** On the expressions of the script, evaluated at the ends of the range
    of [Math.random] and at a few indices, [round] and the operators built
    on it give what hardware binary64 arithmetic gives. *)
Lemma agrees_with_binary64_hardware :
  let hard_main (i r : PrimFloat.float) :=
    PrimFloat.add (PrimFloat.mul i (PrimFloat.opp 1.5%float))
      (PrimFloat.mul (PrimFloat.sub r 0.5%float) 0.8%float) in
  let soft_main (i r : Q) :=
    fadd (fmul i (- 1.5)) (fmul (fsub r 0.5) (literal 0.8)) in
  let hard_inter (j r : PrimFloat.float) :=
    PrimFloat.add (PrimFloat.mul j (PrimFloat.opp 0.6%float))
      (PrimFloat.mul (PrimFloat.sub r 0.5%float) 1.5%float) in
  let soft_inter (j r : Q) :=
    fadd (fmul j (- literal 0.6)) (fmul (fsub r 0.5) 1.5) in
  Q_of_float (hard_main 3 0)%float = Some (soft_main 3 0)
  /\ Q_of_float (hard_main 4 0x1.fffffffffffffp-1)%float
     = Some (soft_main 4 (1 - (1 # 9007199254740992)))
  /\ Q_of_float (hard_inter 9 0x1.ffffffffffffep-1)%float
     = Some (soft_inter 9 (1 - (1 # 4503599627370496)))
  /\ Q_of_float (hard_inter 7 0x1p-1074)%float
     = Some (soft_inter 7 (2 ^ (- 1074)))
  /\ Q_of_float (PrimFloat.add 0.1 (PrimFloat.div 0.4 2))%float
     = Some (fadd (literal 0.1) (fdiv (literal 0.4) 2))
  /\ Q_of_float (PrimFloat.mul 0x1p-1074 1.5)%float
     = Some (fmul (2 ^ (- 1074)) 1.5)
  /\ Q_of_float (PrimFloat.div 0x1p-1074 2)%float
     = Some (fdiv (2 ^ (- 1074)) 2).
Proof. repeat split; vm_compute; reflexivity. Qed.

End Binary64Hardware.

(** * Facts about lists and logs *)

Section LogFacts.

Lemma filter_none {A} (P : A -> Prop) `{forall a, Decision (P a)} (l : list A) :
  (forall a, a ∈ l -> ~ P a) -> filter P l = [].
Proof.
  induction l as [|a l IH]; intros Hno; [done|].
  rewrite filter_cons_False by (apply Hno; left).
  apply IH. intros b Hb. apply Hno. by right.
Qed.

Lemma filter_all {A} (P : A -> Prop) `{forall a, Decision (P a)} (l : list A) :
  (forall a, a ∈ l -> P a) -> filter P l = l.
Proof.
  induction l as [|a l IH]; intros Hall; [done|].
  rewrite filter_cons_True by (apply Hall; left).
  f_equal. apply IH. intros b Hb. apply Hall. by right.
Qed.

Lemma writes_on_app el ws ws' :
  writes_on el (ws ++ ws') = writes_on el ws ++ writes_on el ws'.
Proof. apply filter_app. Qed.

Lemma replay_app ws ws' d : replay (ws ++ ws') d = replay ws' (replay ws d).
Proof. apply foldl_app. Qed.

(** A style write changes one property of one node. *)
Lemma perform_set_eq el p v d :
  style (perform (SetStyle el p v) d !!! el) p = Some v.
Proof.
  cbn [perform]. rewrite lookup_total_insert_eq. cbn.
  by rewrite decide_True.
Qed.

Lemma perform_set_ne el el' p q v d :
  q <> p ->
  style (perform (SetStyle el' p v) d !!! el) q = style (d !!! el) q.
Proof.
  intros Hne. cbn [perform]. destruct (decide (el' = el)) as [->|Hel].
  - rewrite lookup_total_insert_eq. cbn. by rewrite decide_False.
  - by rewrite lookup_total_insert_ne.
Qed.

Lemma perform_elsewhere w el d :
  written w <> el -> perform w d !!! el = d !!! el.
Proof.
  intros Hne. destruct w as [el' p v|el' c]; cbn in *;
    by rewrite lookup_total_insert_ne.
Qed.

Lemma length_filter_fmap {A B} (g : A -> B) (P : B -> Prop)
    `{forall b, Decision (P b)} (l : list A) :
  length (filter (fun a => P (g a)) l) = length (filter P (g <$> l)).
Proof.
  induction l as [|a l IH]; [done|].
  rewrite fmap_cons, !filter_cons. destruct (decide (P (g a))); cbn; by rewrite IH.
Qed.

Lemma NoDup_count (x : nat) (l : list nat) :
  NoDup l ->
  length (filter (fun y => y = x) l) = if decide (x ∈ l) then 1 else 0.
Proof.
  induction 1 as [|y l Hy Hnd IH]; [done|].
  rewrite filter_cons. destruct (decide (y = x)) as [->|Hne].
  - cbn. rewrite IH, decide_False, decide_True by set_solver. done.
  - rewrite IH. destruct (decide (x ∈ l)).
    + by rewrite decide_True by set_solver.
    + by rewrite decide_False by set_solver.
Qed.

End LogFacts.

Ltac compute_decision :=
  match goal with
  | |- ?P => apply (@bool_decide_unpack P _); vm_compute; exact I
  end.

(** * Properties of the scroll animator *)

Section ScrollFacts.

Import Scroll.

Lemma run_snoc pg evs evs' : run pg (evs ++ evs') = run (run pg evs) evs'.
Proof. apply foldl_app. Qed.

Lemma forEach_on_entry index entries pg :
  forEach on_entry index entries pg =
  {| observed := observed pg ∖ list_to_set (intersecting_targets entries);
     timers := timers pg ++ batch_timers index entries;
     writes := writes pg |}.
Proof.
  revert index pg. unfold intersecting_targets.
  induction entries as [|e rest IH]; intros index pg; cbn [forEach batch_timers].
  - destruct pg as [o t w]; cbn. f_equal.
    + set_solver.
    + by rewrite app_nil_r.
  - rewrite IH. unfold on_entry.
    destruct e as [tg []]; cbn [isIntersecting target].
    + rewrite filter_cons_True by done. cbn. f_equal.
      * set_solver.
      * by rewrite <- app_assoc.
    + rewrite filter_cons_False by done. done.
Qed.

Lemma batch_timers_delays index entries :
  delay <$> batch_timers index entries =
  (fun k => k * 100) <$>
    (fst <$> filter (fun p => isIntersecting (snd p) = true)
                    (zip (seq index (length entries)) entries)).
Proof.
  revert index.
  induction entries as [|[tg b] rest IH]; intros index; [done|].
  cbn [batch_timers length seq zip zip_with isIntersecting target].
  rewrite fmap_app, IH. destruct b.
  - rewrite filter_cons_True by done. done.
  - rewrite filter_cons_False by done. done.
Qed.

Lemma batch_timers_targets index entries :
  reveals <$> batch_timers index entries = intersecting_targets entries.
Proof.
  revert index. unfold intersecting_targets.
  induction entries as [|[tg b] rest IH]; intros index; [done|].
  cbn [batch_timers isIntersecting target].
  rewrite fmap_app, IH. destruct b.
  - rewrite filter_cons_True by done. done.
  - rewrite filter_cons_False by done. done.
Qed.

Lemma all_intersecting_positions index (entries : list Entry) :
  Forall (fun e => isIntersecting e = true) entries ->
  fst <$> filter (fun p => isIntersecting (snd p) = true)
                 (zip (seq index (length entries)) entries)
  = seq index (length entries).
Proof.
  intros Hall. revert index.
  induction Hall as [|e rest He _ IH]; intros index; [done|].
  cbn [length seq zip zip_with].
  rewrite filter_cons_True by done. cbn [fmap list_fmap fst]. by rewrite IH.
Qed.

Lemma callback_leaves_writes entries pg :
  writes (observer_callback entries pg) = writes pg.
Proof. unfold observer_callback. by rewrite forEach_on_entry. Qed.

Lemma callback_observed entries pg :
  observed (observer_callback entries pg)
  = observed pg ∖ list_to_set (intersecting_targets entries).
Proof. unfold observer_callback. by rewrite forEach_on_entry. Qed.

Lemma callback_timers entries pg :
  timers (observer_callback entries pg) = timers pg ++ batch_timers 0 entries.
Proof. unfold observer_callback. by rewrite forEach_on_entry. Qed.

Lemma fire_observed k pg : observed (fire k pg) = observed pg.
Proof. unfold fire. by destruct (timers pg !! k). Qed.

Lemma step_observed pg ev : observed (step pg ev) ⊆ observed pg.
Proof.
  destruct ev as [raw|k]; cbn [step].
  - rewrite callback_observed. set_solver.
  - by rewrite fire_observed.
Qed.

Lemma run_observed evs pg : observed (run pg evs) ⊆ observed pg.
Proof.
  revert pg. induction evs as [|ev evs IH]; intros pg; cbn; [done|].
  etrans; [apply IH | apply step_observed].
Qed.

(** A callback adds no timer for an element the observer does not watch. *)
Lemma notify_spares_unobserved el raw pg :
  el ∉ observed pg ->
  timers_for el (step pg (Notify raw)) = timers_for el pg.
Proof.
  intros Hout. unfold timers_for. cbn [step].
  rewrite callback_timers, filter_app.
  assert (filter (fun t => reveals t = el) (batch_timers 0 (delivered raw pg)) = [])
    as ->; [|by rewrite app_nil_r].
  apply filter_none. intros t Ht Heq.
  assert (reveals t ∈ intersecting_targets (delivered raw pg)) as Hin.
  { rewrite <- (batch_timers_targets 0). by apply list_elem_of_fmap_2. }
  unfold intersecting_targets, delivered in Hin.
  apply list_elem_of_fmap in Hin as (e & He & Hin).
  apply list_elem_of_filter in Hin as [_ Hin].
  apply list_elem_of_filter in Hin as [Hobs _].
  apply Hout. by rewrite <- Heq, He.
Qed.

Lemma fresh_is_inert ev : step fresh ev = fresh.
Proof.
  destruct ev as [raw|k]; cbn [step].
  - unfold delivered. rewrite filter_none; [done|].
    intros e _. cbn. set_solver.
  - done.
Qed.

(** C1, as worded, fails: in a batch whose first entry is not
    intersecting, the only intersecting element is first among the
    intersecting ones, yet its reveal is delayed by 100ms, not 0ms. *)
Lemma stagger_counts_skipped_entries :
  scheduled_delays Samples.mixed_batch = [100]
  /\ spec_stagger_delays Samples.mixed_batch = [0]
  /\ scheduled_delays Samples.mixed_batch <> spec_stagger_delays Samples.mixed_batch.
Proof. repeat split; try reflexivity. discriminate. Qed.

(** C1, amended: the delay of each scheduled reveal is 100ms times the
    position of its entry in the [entries] array of the callback, counting
    the entries that are not intersecting too; reveals are scheduled in
    batch order, one per intersecting entry, after whatever timers were
    pending.  When every entry of the batch is intersecting, the delays are
    exactly 0ms, 100ms, ..., (N-1)*100ms. *)
Theorem stagger_delay_is_entry_position (entries : list Entry) (pg : Page) :
  scheduled_delays entries = (fun k => k * 100) <$> intersecting_positions entries
  /\ reveals <$> timers (observer_callback entries fresh) = intersecting_targets entries
  /\ timers (observer_callback entries pg)
     = timers pg ++ timers (observer_callback entries fresh)
  /\ (Forall (fun e => isIntersecting e = true) entries ->
      scheduled_delays entries = spec_stagger_delays entries).
Proof.
  unfold scheduled_delays, intersecting_positions, spec_stagger_delays.
  rewrite !callback_timers. cbn [timers fresh app].
  repeat split.
  - apply batch_timers_delays.
  - apply batch_timers_targets.
  - intros Hall. rewrite batch_timers_delays, all_intersecting_positions by done.
    rewrite filter_all; [done|].
    intros e He. by eapply Forall_forall in Hall.
Qed.

Lemma stagger_delay_is_entry_position_witness :
  scheduled_delays Samples.entering_batch = [0; 100].
Proof.
  destruct (stagger_delay_is_entry_position Samples.entering_batch fresh)
    as (_ & _ & _ & Hall).
  rewrite Hall; [reflexivity|].
  repeat constructor.
Defined.

(** C4, as worded, fails: without IntersectionObserver the animator
    reveals nothing.  A card that carries the hidden look before the call
    (opacity 0, shifted 20px down) still has it afterwards. *)
Lemma no_observer_no_reveal :
  let pg := initScrollAnimations false [0] fresh in
  writes pg = []
  /\ style (replay (writes pg) Samples.prehidden !!! 0) opacity = Some (Str "0")
  /\ style (replay (writes pg) Samples.prehidden !!! 0) transform
     = Some (Str "translateY(20px)").
Proof. repeat split; reflexivity. Qed.

(** C4, amended: without IntersectionObserver the animator returns before
    touching anything.  It writes no style (so it neither hides nor
    reveals an element, and every element keeps the look it had), observes
    nothing and schedules nothing, and no later browser event changes
    that. *)
Theorem without_observer_nothing_happens
    (animatedElements : list Element) (pg : Page) (evs : list Event)
    (d : gmap nat Node) :
  initScrollAnimations false animatedElements pg = pg
  /\ run (initScrollAnimations false animatedElements fresh) evs = fresh
  /\ replay (writes (run (initScrollAnimations false animatedElements fresh) evs)) d = d.
Proof.
  assert (run fresh evs = fresh) as Hrun.
  { induction evs as [|ev evs IH]; [done|].
    cbn [run foldl]. rewrite fresh_is_inert. apply IH. }
  cbn [initScrollAnimations negb]. rewrite Hrun. done.
Qed.

Lemma forEach_snoc {T} (f : T -> nat -> Page -> Page) index l a pg :
  forEach f index (l ++ [a]) pg = f a (index + length l) (forEach f index l pg).
Proof.
  revert index pg. induction l as [|b l IH]; intros index pg; cbn.
  - by rewrite Nat.add_0_r.
  - rewrite IH. f_equal. lia.
Qed.

Lemma forEach_observe_writes index els pg :
  writes (forEach (fun el _ => observe el) index els pg) = writes pg.
Proof.
  revert index pg. induction els as [|a els IH]; intros index pg; cbn; [done|].
  by rewrite IH.
Qed.

Lemma forEach_observe_timers index els pg :
  timers (forEach (fun el _ => observe el) index els pg) = timers pg.
Proof.
  revert index pg. induction els as [|a els IH]; intros index pg; cbn; [done|].
  by rewrite IH.
Qed.

(** After the first loop of [initScrollAnimations] every element of the
    list wears the hidden look. *)
Lemma forEach_hide_look index els pg d el :
  el ∈ els ->
  hidden_look (replay (writes (forEach (fun e _ => hide e) index els pg)) d !!! el).
Proof.
  revert index pg. induction els as [|a els IH] using rev_ind; intros index pg Hin.
  - by apply elem_of_nil in Hin.
  - rewrite forEach_snoc. cbn [hide emit writes].
    rewrite <- !app_assoc. cbn [app]. rewrite replay_app. cbn [replay foldl].
    destruct (decide (a = el)) as [->|Hne].
    + repeat split.
      * rewrite perform_set_ne, perform_set_ne by done. apply perform_set_eq.
      * rewrite perform_set_ne by done. apply perform_set_eq.
      * apply perform_set_eq.
    + rewrite !perform_elsewhere by done.
      apply IH. apply elem_of_app in Hin as [Hin|Hin]; [done|].
      apply list_elem_of_singleton in Hin. congruence.
Qed.

(** Nothing after initialisation assigns [transition]. *)
Lemma step_keeps_transition pg ev d el :
  style (replay (writes (step pg ev)) d !!! el) transition
  = style (replay (writes pg) d !!! el) transition.
Proof.
  destruct ev as [raw|k]; cbn [step].
  - by rewrite callback_leaves_writes.
  - unfold fire. destruct (timers pg !! k) as [t|]; [|done].
    cbn [reveal emit writes]. rewrite <- !app_assoc. cbn [app].
    rewrite replay_app. cbn [replay foldl].
    by rewrite !perform_set_ne.
Qed.

Lemma run_keeps_transition evs pg d el :
  style (replay (writes (run pg evs)) d !!! el) transition
  = style (replay (writes pg) d !!! el) transition.
Proof.
  revert pg. induction evs as [|ev evs IH]; intros pg; [done|].
  cbn [run foldl]. etrans; [apply IH|]. apply step_keeps_transition.
Qed.

(** C9: when IntersectionObserver is available, initialisation leaves
    every watched element with opacity 0, transform translateY(20px) and
    transition "opacity 0.5s ease, transform 0.5s ease", before any
    notification.  Whenever later a reveal timer of the element fires, it
    writes exactly opacity 1 and transform translateY(0), in this order and
    nothing else, and the transition configured at initialisation is still
    in place. *)
Theorem hidden_until_revealed
    (animatedElements : list Element) (el : Element) (d : gmap nat Node) :
  el ∈ animatedElements ->
  let pg0 := initScrollAnimations true animatedElements fresh in
  hidden_look (replay (writes pg0) d !!! el)
  /\ forall (evs : list Event) (k : nat) (t : Timer),
       let pg := run pg0 evs in
       timers pg !! k = Some t -> reveals t = el ->
       writes (fire k pg)
       = writes pg ++ [SetStyle el opacity (Str "1");
                       SetStyle el transform (Str "translateY(0)")]
       /\ style (replay (writes (fire k pg)) d !!! el) opacity = Some (Str "1")
       /\ style (replay (writes (fire k pg)) d !!! el) transform
          = Some (Str "translateY(0)")
       /\ style (replay (writes (fire k pg)) d !!! el) transition
          = Some (Str "opacity 0.5s ease, transform 0.5s ease").
Proof.
  intros Hin pg0.
  assert (hidden_look (replay (writes pg0) d !!! el)) as Hlook.
  { subst pg0. unfold initScrollAnimations. cbn [negb].
    destruct animatedElements as [|a rest]; [by apply elem_of_nil in Hin|].
    cbn [length Nat.eqb]. rewrite forEach_observe_writes.
    by apply forEach_hide_look. }
  split; [exact Hlook|].
  intros evs k t pg Hk Ht.
  assert (writes (fire k pg)
          = writes pg ++ [SetStyle el opacity (Str "1");
                          SetStyle el transform (Str "translateY(0)")]) as Hw.
  { unfold fire. rewrite Hk, Ht. cbn [reveal emit writes].
    by rewrite <- !app_assoc. }
  split; [exact Hw|]. rewrite Hw, replay_app. cbn [replay foldl].
  repeat split.
  - rewrite perform_set_ne by done. apply perform_set_eq.
  - apply perform_set_eq.
  - rewrite !perform_set_ne by done. subst pg.
    rewrite run_keeps_transition. apply Hlook.
Qed.

Lemma hidden_until_revealed_witness :
  let pg := run (initScrollAnimations true [0; 1] fresh) [Notify Samples.entering_batch] in
  hidden_look (replay (writes (initScrollAnimations true [0; 1] fresh)) ∅ !!! 1)
  /\ style (replay (writes (fire 1 pg)) ∅ !!! 1) opacity = Some (Str "1").
Proof.
  intros pg.
  destruct (hidden_until_revealed [0; 1] 1 ∅) as [Hlook Hfire].
  - repeat constructor.
  - split; [exact Hlook|].
    destruct (Hfire [Notify Samples.entering_batch] 1 (mkTimer 1 100))
      as (_ & Hop & _); [reflexivity | reflexivity | exact Hop].
Defined.

(** *** Counting reveals *)

Lemma batch_timers_count el index entries :
  NoDup (target <$> entries) ->
  length (filter (fun t => reveals t = el) (batch_timers index entries))
  = if decide (el ∈ intersecting_targets entries) then 1 else 0.
Proof.
  intros Hnd.
  etrans; [exact (length_filter_fmap reveals (fun y => y = el) _)|].
  rewrite batch_timers_targets.
  apply NoDup_count. unfold intersecting_targets.
  eapply sublist_NoDup; [exact Hnd|].
  apply fmap_sublist, sublist_filter.
Qed.

Lemma delivered_targets_observed el raw pg :
  el ∈ intersecting_targets (delivered raw pg) -> el ∈ observed pg.
Proof.
  unfold intersecting_targets, delivered.
  intros (e & -> & He)%list_elem_of_fmap.
  apply list_elem_of_filter in He as [_ He].
  by apply list_elem_of_filter in He as [Hobs _].
Qed.

Lemma notify_footprint el raw pg :
  NoDup (target <$> raw) ->
  footprint el (step pg (Notify raw))
  = footprint el pg
    + (if decide (el ∈ intersecting_targets (delivered raw pg)) then 2 else 0).
Proof.
  intros Hnd. unfold footprint, timers_for. cbn [step].
  rewrite callback_leaves_writes, callback_timers, filter_app, length_app.
  rewrite batch_timers_count.
  - destruct (decide (el ∈ intersecting_targets (delivered raw pg))); lia.
  - eapply sublist_NoDup; [exact Hnd|].
    apply fmap_sublist, sublist_filter.
Qed.

Lemma fire_footprint el k pg : footprint el (fire k pg) = footprint el pg.
Proof.
  unfold fire. destruct (timers pg !! k) as [t|] eqn:Hk; [|done].
  unfold footprint, timers_for. cbn [reveal emit writes timers].
  rewrite <- (take_drop_middle (timers pg) k t Hk) at 3.
  rewrite <- !app_assoc. cbn [app].
  rewrite writes_on_app, !filter_app, !length_app, filter_cons.
  unfold writes_on. rewrite !filter_cons, filter_nil. cbn [written].
  destruct (decide (reveals t = el)); cbn [length]; lia.
Qed.

Lemma forEach_hide_footprint el index els pg :
  NoDup els ->
  length (writes_on el (writes (forEach (fun e _ => hide e) index els pg)))
  = length (writes_on el (writes pg)) + (if decide (el ∈ els) then 3 else 0).
Proof.
  intros Hnd. revert index pg.
  induction Hnd as [|a els Ha Hnd IH]; intros index pg; cbn [forEach].
  - rewrite decide_False by set_solver. lia.
  - rewrite IH. cbn [hide emit writes]. rewrite <- !app_assoc. cbn [app].
    rewrite writes_on_app, length_app. unfold writes_on at 2.
    rewrite !filter_cons, filter_nil. cbn [written].
    destruct (decide (a = el)) as [->|Hne].
    + rewrite decide_False, decide_True by set_solver. cbn [length]. lia.
    + destruct (decide (el ∈ els)).
      * rewrite decide_True by set_solver. cbn [length]. lia.
      * rewrite decide_False by set_solver. cbn [length]. lia.
Qed.

Lemma forEach_hide_timers index els pg :
  timers (forEach (fun e _ => hide e) index els pg) = timers pg.
Proof.
  revert index pg. induction els as [|a els IH]; intros index pg; cbn [forEach]; [done|].
  by rewrite IH.
Qed.

Lemma forEach_observe_observed index els pg :
  observed (forEach (fun el _ => observe el) index els pg)
  = list_to_set els ∪ observed pg.
Proof.
  revert index pg. induction els as [|a els IH]; intros index pg; cbn [forEach].
  - set_solver.
  - rewrite IH. cbn. set_solver.
Qed.

Lemma forEach_hide_observed index els pg :
  observed (forEach (fun e _ => hide e) index els pg) = observed pg.
Proof.
  revert index pg. induction els as [|a els IH]; intros index pg; cbn [forEach]; [done|].
  by rewrite IH.
Qed.

(** X6: Over the life of a page whose notifications report each target at
    most once, a watched element receives the three writes of its initial
    state while it is observed, and once it is no longer observed exactly
    one reveal on top: two more writes, made or still pending. *)
Lemma one_reveal_per_element animatedElements el evs :
  NoDup animatedElements -> el ∈ animatedElements -> Forall tidy evs ->
  let pg := run (initScrollAnimations true animatedElements fresh) evs in
  footprint el pg = if decide (el ∈ observed pg) then 3 else 5.
Proof.
  intros Hnd Hin Htidy pg. subst pg.
  set (pg0 := initScrollAnimations true animatedElements fresh).
  assert (footprint el pg0 = if decide (el ∈ observed pg0) then 3 else 5) as H0.
  { subst pg0. unfold initScrollAnimations, footprint, timers_for. cbn [negb].
    destruct animatedElements as [|a rest] eqn:Hels; [by apply elem_of_nil in Hin|].
    cbn [length Nat.eqb]. rewrite <- Hels in *.
    rewrite forEach_observe_writes, forEach_observe_timers, forEach_observe_observed.
    rewrite forEach_hide_footprint by done.
    rewrite forEach_hide_timers. cbn [timers fresh writes].
    rewrite !decide_True by set_solver. done. }
  clearbody pg0. revert pg0 H0.
  induction Htidy as [|ev evs Hev _ IH]; intros pg Hpg; [done|].
  cbn [run foldl]. apply IH.
  destruct ev as [raw|k]; cbn [tidy] in Hev.
  - rewrite notify_footprint, Hpg by done. cbn [step].
    rewrite callback_observed.
    destruct (decide (el ∈ intersecting_targets (delivered raw pg))) as [Hyes|Hno].
    + pose proof (delivered_targets_observed _ _ _ Hyes).
      rewrite decide_True, decide_False by set_solver. done.
    + destruct (decide (el ∈ observed pg)).
      * rewrite decide_True by set_solver. done.
      * rewrite decide_False by set_solver. done.
  - cbn [step]. by rewrite fire_footprint, fire_observed.
Qed.

(** The timers a callback adds for an element: one per intersecting entry
    the batch holds for it. *)
Lemma batch_timers_reports el index entries :
  length (filter (fun t => reveals t = el) (batch_timers index entries))
  = reports el entries.
Proof.
  revert index. unfold reports.
  induction entries as [|[tg b] rest IH]; intros index; [done|].
  cbn [batch_timers isIntersecting target].
  rewrite filter_app, length_app, IH, (filter_cons _ (mkEntry tg b)).
  cbn [target isIntersecting].
  destruct b.
  - rewrite filter_cons, filter_nil. cbn [reveals].
    destruct (decide (tg = el)) as [->|Hne].
    + by rewrite decide_True.
    + rewrite decide_False; [done|]. by intros [? _].
  - rewrite filter_nil, decide_False; [done|]. by intros [_ ?].
Qed.

Lemma reports_positive el entries :
  mkEntry el true ∈ entries -> 1 <= reports el entries.
Proof.
  intros Hin. unfold reports.
  assert (mkEntry el true
            ∈ filter (fun e => target e = el /\ isIntersecting e = true) entries)
    as Hf by (by apply list_elem_of_filter).
  destruct (filter _ entries); [by apply elem_of_nil in Hf | cbn; lia].
Qed.

Lemma init_observed animatedElements :
  observed (initScrollAnimations true animatedElements fresh)
  ⊆ list_to_set animatedElements.
Proof.
  unfold initScrollAnimations. cbn [negb].
  destruct (length animatedElements =? 0)%nat; [set_solver|].
  rewrite forEach_observe_observed, forEach_hide_observed. set_solver.
Qed.

(** Right after [initScrollAnimations] a selected element has the three
    writes of its initial state and no reveal pending. *)
Lemma init_footprint animatedElements el :
  NoDup animatedElements -> el ∈ animatedElements ->
  footprint el (initScrollAnimations true animatedElements fresh) = 3.
Proof.
  intros Hnd Hin. unfold initScrollAnimations, footprint, timers_for. cbn [negb].
  destruct animatedElements as [|a rest] eqn:Hels; [by apply elem_of_nil in Hin|].
  cbn [length Nat.eqb]. rewrite <- Hels in *.
  rewrite forEach_observe_writes, forEach_observe_timers.
  rewrite forEach_hide_footprint by done.
  rewrite forEach_hide_timers. cbn [timers fresh writes].
  by rewrite decide_True.
Qed.

(** Each reveal a callback schedules for an element adds two writes to the
    element's footprint. *)
Lemma notify_footprint_reports el raw pg :
  footprint el (step pg (Notify raw))
  = footprint el pg + 2 * reports el (delivered raw pg).
Proof.
  unfold footprint, timers_for. cbn [step].
  rewrite callback_leaves_writes, callback_timers, filter_app, length_app.
  rewrite batch_timers_reports. lia.
Qed.

Lemma reports_unobserved el raw pg :
  el ∉ observed pg -> reports el (delivered raw pg) = 0.
Proof.
  intros Hout. unfold reports, delivered.
  rewrite filter_none; [done|].
  intros e [Hobs _]%list_elem_of_filter [Heq _]. apply Hout. by rewrite <- Heq.
Qed.

(** Nothing that happens later changes the footprint of an element that
    is not observed. *)
Lemma unobserved_footprint el evs pg :
  el ∉ observed pg -> footprint el (run pg evs) = footprint el pg.
Proof.
  revert pg. induction evs as [|ev evs IH]; intros pg Hout; [done|].
  change (run pg (ev :: evs)) with (run (step pg ev) evs).
  rewrite IH.
  - destruct ev as [raw|k].
    + rewrite notify_footprint_reports, reports_unobserved by done. lia.
    + cbn [step]. apply fire_footprint.
  - intros Hobs. apply Hout. by apply (step_observed pg ev).
Qed.

(** While an element of the selection is observed it has received the
    three writes of its initial state and no reveal is pending for it,
    whatever the notifications were. *)
Lemma observed_footprint animatedElements el evs :
  NoDup animatedElements -> el ∈ animatedElements ->
  let pg := run (initScrollAnimations true animatedElements fresh) evs in
  el ∈ observed pg -> footprint el pg = 3.
Proof.
  intros Hnd Hin pg. subst pg.
  assert (el ∈ observed (initScrollAnimations true animatedElements fresh)
          -> footprint el (initScrollAnimations true animatedElements fresh) = 3)
    as Hinit.
  { intros _. by apply init_footprint. }
  revert Hinit.
  generalize (initScrollAnimations true animatedElements fresh).
  induction evs as [|ev evs IH]; intros pg Hpg; [done|].
  change (run pg (ev :: evs)) with (run (step pg ev) evs).
  apply IH. intros Hobs.
  assert (el ∈ observed pg) as Hobs' by (by apply (step_observed pg ev)).
  destruct ev as [raw|k].
  - rewrite notify_footprint_reports, Hpg by done.
    cbn [step] in Hobs. rewrite callback_observed in Hobs.
    assert (reports el (delivered raw pg) = 0) as ->; [|done].
    unfold reports. rewrite filter_none; [done|].
    intros e He [Heq Hint].
    assert (el ∈ intersecting_targets (delivered raw pg)); [|set_solver].
    unfold intersecting_targets. rewrite <- Heq.
    apply list_elem_of_fmap_2. by apply list_elem_of_filter.
  - cbn [step] in *. rewrite fire_footprint. apply Hpg.
    by rewrite fire_observed in Hobs.
Qed.

(** C2, as worded, fails: one callback can hold more than one intersecting
    entry for the same element (it came in, went out and came in again
    before the callback ran), and the callback schedules a reveal for each
    of them.  The card of the sample gets two reveal timers, and once both
    have fired it has been revealed twice. *)
Lemma repeated_entry_reveals_twice :
  let pg := initScrollAnimations true [0] fresh in
  mkEntry 0 true ∈ delivered Samples.flicker_batch pg
  /\ timers_for 0 (step pg (Notify Samples.flicker_batch))
     = [mkTimer 0 0; mkTimer 0 200]
  /\ writes_on 0 (writes (run pg [Notify Samples.flicker_batch; Fire 0; Fire 0]))
     = [SetStyle 0 opacity (Str "0");
        SetStyle 0 transform (Str "translateY(20px)");
        SetStyle 0 transition (Str "opacity 0.5s ease, transform 0.5s ease");
        SetStyle 0 opacity (Str "1");
        SetStyle 0 transform (Str "translateY(0)");
        SetStyle 0 opacity (Str "1");
        SetStyle 0 transform (Str "translateY(0)")].
Proof.
  split; [vm_compute; repeat constructor|]. split; reflexivity.
Qed.

(** C2, amended: once a callback has received an intersecting entry for an
    element, the element is no longer observed, it stays unobserved
    whatever happens next, and every later observer callback, after any
    sequence of further notifications and timer firings, writes no style
    and schedules no reveal for it.  The callback that received the entry
    schedules one reveal for each intersecting entry it holds for the
    element: at least one, and exactly one when the batch reports each
    target at most once.  On a page set up by [initScrollAnimations],
    whatever happened before, the element has three writes (its initial
    state) before that callback, and from then on two more writes, made or
    still pending, for each of those reveals and nothing else. *)
Theorem reveal_once_per_intersecting_entry
    (pg : Page) (raw : list Entry) (el : Element)
    (evs : list Event) (raw' : list Entry) :
  mkEntry el true ∈ delivered raw pg ->
  let pg1 := step pg (Notify raw) in
  let pg2 := run pg1 evs in
  let pg3 := step pg2 (Notify raw') in
  (el ∉ observed pg1)
  /\ (el ∉ observed pg2)
  /\ (el ∉ observed pg3)
  /\ (el ∉ target <$> delivered raw' pg2)
  /\ writes pg3 = writes pg2
  /\ timers_for el pg3 = timers_for el pg2
  /\ length (timers_for el pg1)
     = length (timers_for el pg) + reports el (delivered raw pg)
  /\ 1 <= reports el (delivered raw pg)
  /\ (NoDup (target <$> raw) -> reports el (delivered raw pg) = 1)
  /\ (forall animatedElements evs0,
        NoDup animatedElements ->
        pg = run (initScrollAnimations true animatedElements fresh) evs0 ->
        footprint el pg = 3
        /\ footprint el pg1 = 3 + 2 * reports el (delivered raw pg)
        /\ footprint el pg2 = 3 + 2 * reports el (delivered raw pg)
        /\ footprint el pg3 = 3 + 2 * reports el (delivered raw pg)).
Proof.
  intros Hin pg1 pg2 pg3.
  assert (el ∈ intersecting_targets (delivered raw pg)) as Ht.
  { unfold intersecting_targets.
    apply (list_elem_of_fmap_2' target _ (mkEntry el true)); [|done].
    by apply list_elem_of_filter. }
  assert (el ∈ observed pg) as H0 by (by eapply delivered_targets_observed).
  assert (el ∉ observed pg1) as H1.
  { subst pg1. cbn [step]. rewrite callback_observed. set_solver. }
  assert (el ∉ observed pg2) as H2.
  { intros Hobs. apply H1. by apply (run_observed evs pg1). }
  assert (el ∉ observed pg3) as H3.
  { intros Hobs. apply H2. by apply (step_observed pg2 (Notify raw')). }
  split; [exact H1|]. split; [exact H2|]. split; [exact H3|].
  split.
  { intros (e & -> & He)%list_elem_of_fmap.
    by apply list_elem_of_filter in He as [Hobs _]. }
  split.
  { subst pg3. cbn [step]. apply callback_leaves_writes. }
  split.
  { by apply notify_spares_unobserved. }
  split; [|split; [|split]].
    + subst pg1. unfold timers_for. cbn [step].
      by rewrite callback_timers, filter_app, length_app, batch_timers_reports.
    + by apply reports_positive.
    + intros Hnd. rewrite <- (batch_timers_reports el 0).
      rewrite batch_timers_count, decide_True; [done | done |].
      eapply sublist_NoDup; [exact Hnd|].
      apply fmap_sublist, sublist_filter.
    + intros els evs0 Hnd Hpg.
      assert (el ∈ els) as Hel.
      { subst pg. apply (run_observed evs0) in H0.
        apply init_observed in H0. set_solver. }
      assert (footprint el pg = 3) as F0.
      { subst pg. by apply observed_footprint. }
      assert (footprint el pg1 = 3 + 2 * reports el (delivered raw pg)) as F1.
      { subst pg1. by rewrite notify_footprint_reports, F0. }
      assert (footprint el pg2 = 3 + 2 * reports el (delivered raw pg)) as F2.
      { subst pg2. by rewrite unobserved_footprint. }
      repeat split; try done.
      subst pg3. rewrite notify_footprint_reports, F2.
      rewrite (reports_unobserved el raw' pg2) by done. lia.
Qed.

Lemma reveal_once_per_intersecting_entry_witness :
  let pg := initScrollAnimations true [0; 1] fresh in
  let pg1 := step pg (Notify Samples.entering_batch) in
  let pg2 := run pg1 [Fire 0; Notify [mkEntry 0 false]] in
  let pg3 := step pg2 (Notify [mkEntry 0 true]) in
  timers_for 0 pg3 = timers_for 0 pg2
  /\ length (timers_for 0 pg1) = 1
  /\ footprint 0 pg3 = 5.
Proof.
  intros pg pg1 pg2 pg3.
  destruct (reveal_once_per_intersecting_entry pg Samples.entering_batch 0
              [Fire 0; Notify [mkEntry 0 false]] [mkEntry 0 true])
    as (_ & _ & _ & _ & _ & Hsame & Hcount & _ & Hone & Hfoot).
  - vm_compute. repeat constructor.
  - split; [exact Hsame|]. split.
    + etrans; [exact Hcount|]. rewrite Hone by compute_decision. reflexivity.
    + destruct (Hfoot [0; 1] []) as (_ & _ & _ & H3).
      * compute_decision.
      * reflexivity.
      * etrans; [exact H3|]. rewrite Hone by compute_decision. reflexivity.
Defined.

End ScrollFacts.

(** * Properties of the foam timing assigner *)

Section FoamFacts.

Import Foam.

Variable random : nat -> Q.

Lemma main_cell_orderly : orderly (main_cell random).
Proof.
  intros c index w. unfold cell_log, main_cell, try_catch, call_getBBox, cost, measurable.
  destruct (getBBox c) as [b|].
  - destruct (index mod 2 =? 1)%nat; cbn; rewrite <- !app_assoc; cbn;
      (split; [do 3 f_equal; lia | repeat constructor]).
  - cbn. split; [by rewrite Nat.add_0_r | repeat constructor].
Qed.

Lemma interstitial_cell_orderly : orderly (interstitial_cell random).
Proof.
  intros c index w.
  unfold cell_log, interstitial_cell, try_catch, call_getBBox, cost, measurable.
  destruct (getBBox c) as [b|]; cbn.
  - rewrite <- !app_assoc; cbn. split; [do 3 f_equal; lia | repeat constructor].
  - split; [by rewrite Nat.add_0_r | repeat constructor].
Qed.

Lemma forEach_orderly f index cells w :
  orderly f ->
  forEach f index cells w
  = (inr tt, {| draws := draws w + pass_cost cells;
                writes := writes w ++ pass_log f index (draws w) cells;
                animationFrames := animationFrames w |}).
Proof.
  intros Hf. revert index w.
  induction cells as [|c rest IH]; intros index w; cbn [forEach pass_log].
  - destruct w; cbn. by rewrite Nat.add_0_r, app_nil_r.
  - unfold bind. destruct (Hf c index w) as [-> _]. rewrite IH. cbn.
    unfold pass_cost. cbn. rewrite <- app_assoc, Nat.add_assoc. done.
Qed.

Lemma frame_callback_run f w :
  frame_callback random f w
  = (inr tt,
     {| draws := draws w + pass_cost (primary f) + pass_cost (interstitial f);
        writes := writes w
                  ++ pass_log (main_cell random) 0 (draws w) (primary f)
                  ++ pass_log (interstitial_cell random) 0
                       (draws w + pass_cost (primary f)) (interstitial f);
        animationFrames := animationFrames w |}).
Proof.
  unfold frame_callback, bind.
  rewrite (forEach_orderly _ _ _ _ main_cell_orderly).
  rewrite (forEach_orderly _ _ _ _ interstitial_cell_orderly). cbn.
  by rewrite <- app_assoc.
Qed.

Lemma frame_log_split f n :
  frame_log random f n
  = pass_log (main_cell random) 0 n (primary f)
    ++ pass_log (interstitial_cell random) 0 (n + pass_cost (primary f)) (interstitial f).
Proof. unfold frame_log. by rewrite frame_callback_run. Qed.

Lemma orderly_own f c index n wr :
  orderly f -> wr ∈ cell_log f c index n -> written wr = node c.
Proof.
  intros Hf Hin. destruct (Hf c index (calm n)) as [_ Hall].
  by eapply Forall_forall in Hall.
Qed.

Lemma writes_on_elem el wr ws :
  wr ∈ writes_on el ws <-> written wr = el /\ wr ∈ ws.
Proof. unfold writes_on. by rewrite list_elem_of_filter. Qed.


Lemma writes_on_class el cls ws :
  ClassListAdd el cls ∈ ws -> ClassListAdd el cls ∈ writes_on el ws.
Proof. intros Hin. by apply writes_on_elem. Qed.

(** A cell that is not in the list is not written by the pass. *)
Lemma pass_log_off f index n cells el :
  orderly f -> el ∉ node <$> cells ->
  writes_on el (pass_log f index n cells) = [].
Proof.
  intros Hf. revert index n.
  induction cells as [|c rest IH]; intros index n Hout; [done|].
  cbn [pass_log]. rewrite writes_on_app, IH by set_solver.
  rewrite app_nil_r. apply filter_none. intros wr Hwr Heq.
  apply Hout. rewrite fmap_cons, <- Heq, (orderly_own f c index n wr) by done.
  left.
Qed.

(** With distinct nodes, the writes on a cell are the ones of its own
    callback, run at the cell's own position. *)
Lemma pass_log_on f index n cells j c :
  orderly f -> NoDup (node <$> cells) -> cells !! j = Some c ->
  writes_on (node c) (pass_log f index n cells)
  = cell_log f c (index + j) (n + pass_cost (take j cells)).
Proof.
  intros Hf. revert index n j.
  induction cells as [|c0 rest IH]; intros index n j Hnd Hj; [done|].
  rewrite fmap_cons in Hnd. apply NoDup_cons in Hnd as [Hfresh Hnd].
  cbn [pass_log]. rewrite writes_on_app. destruct j as [|j]; cbn in Hj.
  - injection Hj as ->. rewrite pass_log_off by done.
    rewrite app_nil_r, Nat.add_0_r. unfold pass_cost. cbn. rewrite Nat.add_0_r.
    apply filter_all. intros wr Hwr. by apply (orderly_own f c index n).
  - rewrite (IH (S index) (n + cost c0) j) by done.
    assert (writes_on (node c) (cell_log f c0 index n) = []) as ->.
    { apply filter_none. intros wr Hwr Heq. apply Hfresh.
      rewrite <- (orderly_own f c0 index n wr Hf Hwr), Heq.
      apply list_elem_of_fmap_2. by eapply list_elem_of_lookup_2. }
    cbn [app take]. unfold pass_cost. cbn. f_equal; lia.
Qed.

Lemma pass_log_covers f index n cells j c wr :
  cells !! j = Some c ->
  wr ∈ cell_log f c (index + j) (n + pass_cost (take j cells)) ->
  wr ∈ pass_log f index n cells.
Proof.
  revert index n j.
  induction cells as [|c0 rest IH]; intros index n j Hj Hin; [done|].
  cbn [pass_log]. apply elem_of_app. destruct j as [|j]; cbn in Hj.
  - injection Hj as ->. left. unfold pass_cost in Hin. cbn in Hin.
    by rewrite !Nat.add_0_r in Hin.
  - right. apply (IH (S index) (n + cost c0) j); [done|].
    unfold pass_cost in *. cbn in Hin.
    by replace (S index + j) with (index + S j) by lia; rewrite <- Nat.add_assoc.
Qed.

Section Frame.

Variable f : Frame.
Variable n : nat.
Hypothesis distinct : NoDup (node <$> (primary f ++ interstitial f)).

Lemma frame_on_primary i c :
  primary f !! i = Some c ->
  writes_on (node c) (frame_log random f n)
  = cell_log (main_cell random) c i (n + pass_cost (take i (primary f))).
Proof.
  intros Hi. rewrite frame_log_split, writes_on_app.
  rewrite fmap_app in distinct. apply NoDup_app in distinct as (Hp & Hcross & Hi').
  rewrite (pass_log_on _ 0 n _ i c main_cell_orderly Hp Hi).
  rewrite pass_log_off; [by rewrite app_nil_r | apply interstitial_cell_orderly |].
  apply Hcross, list_elem_of_fmap_2. by eapply list_elem_of_lookup_2.
Qed.

Lemma frame_on_interstitial j c :
  interstitial f !! j = Some c ->
  writes_on (node c) (frame_log random f n)
  = cell_log (interstitial_cell random) c j
      (n + pass_cost (primary f) + pass_cost (take j (interstitial f))).
Proof.
  intros Hj. rewrite frame_log_split, writes_on_app.
  rewrite fmap_app in distinct. apply NoDup_app in distinct as (Hp & Hcross & Hi').
  rewrite (pass_log_on _ 0 _ _ j c interstitial_cell_orderly Hi' Hj).
  rewrite pass_log_off; [done | apply main_cell_orderly |].
  intros Hin. apply (Hcross _ Hin), list_elem_of_fmap_2.
  by eapply list_elem_of_lookup_2.
Qed.

End Frame.

(** What each callback writes, case by case. *)
Lemma main_cell_measured c index m b :
  getBBox c = Some b ->
  cell_log (main_cell random) c index m
  = SetStyle (node c) transformOrigin
      (Px2 (fadd (x b) (fdiv (width b) 2)) (fadd (y b) (fdiv (height b) 2)))
    :: (if (index mod 2 =? 1)%nat
        then [ClassListAdd (node c) "phase-contract"] else [])
    ++ [SetStyle (node c) animationDelay
          (Seconds (fadd (fmul (number index) (-1.5))
                         (fmul (fsub (random m) 0.5) (literal 0.8))));
        SetStyle (node c) animationDuration
          (Seconds (fadd 20 (fmul (fsub (random (S m)) 0.5) 2)))].
Proof.
  intros Hb. unfold cell_log, main_cell, try_catch, call_getBBox. rewrite Hb.
  by destruct (index mod 2 =? 1)%nat.
Qed.

Lemma main_cell_failed c index m :
  getBBox c = None ->
  cell_log (main_cell random) c index m
  = [SetStyle (node c) transformOrigin (Str "center center")].
Proof.
  intros Hb. unfold cell_log, main_cell, try_catch, call_getBBox. by rewrite Hb.
Qed.

Lemma interstitial_cell_measured c index m b :
  getBBox c = Some b ->
  cell_log (interstitial_cell random) c index m
  = [SetStyle (node c) transformOrigin
       (Px2 (fadd (x b) (fdiv (width b) 2)) (fadd (y b) (fdiv (height b) 2)));
     SetStyle (node c) animationDelay
       (Seconds (fadd (fmul (number index) (- literal 0.6))
                      (fmul (fsub (random m) 0.5) 1.5)));
     SetStyle (node c) animationDuration
       (Seconds (fadd 5 (fmul (fsub (random (S m)) 0.5) 1.5)))].
Proof.
  intros Hb. unfold cell_log, interstitial_cell, try_catch, call_getBBox.
  by rewrite Hb.
Qed.

Lemma interstitial_cell_failed c index m :
  getBBox c = None ->
  cell_log (interstitial_cell random) c index m
  = [SetStyle (node c) transformOrigin (Str "center center")].
Proof.
  intros Hb. unfold cell_log, interstitial_cell, try_catch, call_getBBox.
  by rewrite Hb.
Qed.

Lemma run_frames_ok fs w : fst (run_frames random fs w) = inr tt.
Proof.
  revert w. induction fs as [|f fs IH]; intros w; [done|].
  cbn [run_frames]. unfold bind. rewrite frame_callback_run. apply IH.
Qed.

Lemma next_animation_frame_ok w : fst (next_animation_frame random w) = inr tt.
Proof. unfold next_animation_frame. apply run_frames_ok. Qed.

Lemma page_load_ok doc w : fst (page_load random doc w) = inr tt.
Proof.
  unfold page_load, bind, initFoamAnimation.
  destruct (length (foamCells doc) =? 0)%nat.
  { unfold ret. apply next_animation_frame_ok. }
  destruct (svg doc).
  - unfold requestAnimationFrame. apply next_animation_frame_ok.
  - unfold ret. apply next_animation_frame_ok.
Qed.

Lemma frame_log_primary f n i c wr :
  primary f !! i = Some c ->
  wr ∈ cell_log (main_cell random) c i (n + pass_cost (take i (primary f))) ->
  wr ∈ frame_log random f n.
Proof.
  intros Hi Hin. rewrite frame_log_split. apply elem_of_app. left.
  by apply (pass_log_covers _ 0 n _ i c).
Qed.

Lemma frame_log_interstitial f n j c wr :
  interstitial f !! j = Some c ->
  wr ∈ cell_log (interstitial_cell random) c j
         (n + pass_cost (primary f) + pass_cost (take j (interstitial f))) ->
  wr ∈ frame_log random f n.
Proof.
  intros Hj Hin. rewrite frame_log_split. apply elem_of_app. right.
  by apply (pass_log_covers _ 0 _ _ j c).
Qed.

(** With main cells and a container on the page, a page load writes
    what one run of the frame callback writes. *)
Lemma page_load_runs_frame doc c cells e :
  foamCells doc = c :: cells -> svg doc = Some e ->
  page_load random doc pristine
  = (inr tt,
     {| draws := pass_cost (foamCells doc) + pass_cost (interstitialCells doc);
        writes := frame_log random
                    {| primary := foamCells doc;
                       interstitial := interstitialCells doc |} 0;
        animationFrames := [] |}).
Proof.
  intros Hcells Hsvg. unfold page_load, bind, initFoamAnimation.
  rewrite Hsvg, Hcells. cbn [length Nat.eqb requestAnimationFrame].
  unfold next_animation_frame. cbn [animationFrames pristine app run_frames].
  unfold bind. rewrite frame_callback_run. cbn.
  by rewrite frame_log_split.
Qed.

End FoamFacts.

Ltac pick_write H :=
  repeat match type of H with
         | _ ∈ [] => by apply elem_of_nil in H
         | _ ∈ _ :: _ => apply elem_of_cons in H as [H|H]
         | _ ∈ _ ++ _ => apply elem_of_app in H as [H|H]
         | _ ∈ (if ?b then _ else _) => destruct b
         end.

Ltac find_write := cbn [app]; solve [repeat first [left | right]].

Section TimingFacts.

Import Foam.
Local Open Scope Q_scope.














End TimingFacts.

Section FoamClaims.

Import Foam.

(** C3, as worded, fails: a cell whose bounding box cannot be queried gets
    the fallback transform-origin and nothing else.  The second main cell
    of the sample (odd index 1) receives no animation-delay, no
    animation-duration and no phase marker. *)
Lemma unmeasured_cell_gets_no_timing :
  let log := frame_log Samples.steady Samples.unmeasured 0 in
  assignments 1 animationDelay log = 0
  /\ assignments 1 animationDuration log = 0
  /\ class_adds 1 "phase-contract" log = 0
  /\ writes_on 1 log = [SetStyle 1 transformOrigin (Str "center center")].
Proof. repeat split; reflexivity. Qed.

(** C3, amended: in one run of the frame callback over distinct nodes,
    every cell of both sequences receives exactly one transform-origin
    assignment.  A cell whose bounding-box query succeeds receives exactly
    one animation-delay and exactly one animation-duration assignment, and
    a main cell at odd index exactly one phase marker on top; a cell whose
    query fails receives none of the three.  The writes a cell receives
    are those of its own callback run alone at the cell's own index: no
    counter is shared between cells. *)
Theorem measured_cells_timed_once (random : nat -> Q) (f : Frame) (n : nat) :
  NoDup (node <$> (primary f ++ interstitial f)) ->
  let log := frame_log random f n in
  (forall i c, primary f !! i = Some c ->
     assignments (node c) transformOrigin log = 1
     /\ assignments (node c) animationDelay log = (if measurable c then 1 else 0)
     /\ assignments (node c) animationDuration log = (if measurable c then 1 else 0)
     /\ class_adds (node c) "phase-contract" log
        = (if measurable c && (i mod 2 =? 1)%nat then 1 else 0)
     /\ exists m, writes_on (node c) log = cell_log (main_cell random) c i m)
  /\ (forall j c, interstitial f !! j = Some c ->
     assignments (node c) transformOrigin log = 1
     /\ assignments (node c) animationDelay log = (if measurable c then 1 else 0)
     /\ assignments (node c) animationDuration log = (if measurable c then 1 else 0)
     /\ class_adds (node c) "phase-contract" log = 0
     /\ exists m, writes_on (node c) log = cell_log (interstitial_cell random) c j m).
Proof.
  intros Hnd log. subst log. split.
  - intros i c Hi.
    pose proof (frame_on_primary random f n Hnd i c Hi) as Hon.
    cut (assignments (node c) transformOrigin (frame_log random f n) = 1
         /\ assignments (node c) animationDelay (frame_log random f n)
            = (if measurable c then 1 else 0)
         /\ assignments (node c) animationDuration (frame_log random f n)
            = (if measurable c then 1 else 0)
         /\ class_adds (node c) "phase-contract" (frame_log random f n)
            = (if measurable c && (i mod 2 =? 1)%nat then 1 else 0)).
    { intros (? & ? & ? & ?). repeat split; try done. by eexists. }
    unfold assignments, class_adds. rewrite Hon. unfold measurable.
    destruct (getBBox c) as [b|] eqn:Hb.
    + rewrite (main_cell_measured random c i _ b Hb).
      destruct (i mod 2 =? 1)%nat; repeat split; reflexivity.
    + rewrite (main_cell_failed random c i _ Hb). repeat split; reflexivity.
  - intros j c Hj.
    pose proof (frame_on_interstitial random f n Hnd j c Hj) as Hon.
    cut (assignments (node c) transformOrigin (frame_log random f n) = 1
         /\ assignments (node c) animationDelay (frame_log random f n)
            = (if measurable c then 1 else 0)
         /\ assignments (node c) animationDuration (frame_log random f n)
            = (if measurable c then 1 else 0)
         /\ class_adds (node c) "phase-contract" (frame_log random f n) = 0).
    { intros (? & ? & ? & ?). repeat split; try done. by eexists. }
    unfold assignments, class_adds. rewrite Hon. unfold measurable.
    destruct (getBBox c) as [b|] eqn:Hb.
    + rewrite (interstitial_cell_measured random c j _ b Hb).
      repeat split; reflexivity.
    + rewrite (interstitial_cell_failed random c j _ Hb). repeat split; reflexivity.
Qed.

Lemma measured_cells_timed_once_witness :
  assignments 2 animationDelay (frame_log Samples.steady Samples.unmeasured 0) = 1
  /\ assignments 3 animationDelay (frame_log Samples.steady Samples.unmeasured 0) = 0.
Proof.
  destruct (measured_cells_timed_once Samples.steady Samples.unmeasured 0)
    as [Hmain Hinter].
  - vm_compute. repeat constructor; set_solver.
  - split.
    + destruct (Hmain 2 (mkCell 2 (Some Samples.box))) as (_ & Hd & _);
        [reflexivity | exact Hd].
    + destruct (Hinter 0 (mkCell 3 None)) as (_ & Hd & _);
        [reflexivity | exact Hd].
Defined.




(** C6: a bounding-box query that throws is caught inside the callback of
    its own cell.  The frame callback and the whole page load end normally
    whatever the cells do; every cell of both sequences still gets its
    transform-origin assigned; a cell whose query fails gets "center center"
    (and, nodes being distinct, nothing else); and every cell whose query
    succeeds still gets its delay and duration, wherever the failing cells
    sit in the sequences. *)
Theorem bbox_failure_is_absorbed
    (random : nat -> Q) (f : Frame) (doc : Document) (w : World) (n : nat) :
  fst (frame_callback random f w) = inr tt
  /\ fst (page_load random doc w) = inr tt
  /\ forall c, c ∈ primary f ++ interstitial f ->
       (exists v, SetStyle (node c) transformOrigin v ∈ frame_log random f n)
       /\ (getBBox c = None ->
           SetStyle (node c) transformOrigin (Str "center center")
             ∈ frame_log random f n)
       /\ (getBBox c = None ->
           NoDup (node <$> (primary f ++ interstitial f)) ->
           writes_on (node c) (frame_log random f n)
           = [SetStyle (node c) transformOrigin (Str "center center")])
       /\ (measurable c = true ->
           exists d d',
             SetStyle (node c) animationDelay (Seconds d) ∈ frame_log random f n
             /\ SetStyle (node c) animationDuration (Seconds d')
                  ∈ frame_log random f n).
Proof.
  split; [by rewrite frame_callback_run|]. split.
  { apply page_load_ok. }
  intros c [Hc|Hc]%elem_of_app.
  - apply list_elem_of_lookup_1 in Hc as [i Hi].
    pose proof (frame_log_primary random f n i c) as Hcov.
    unfold measurable. destruct (getBBox c) as [b|] eqn:Hb.
    + rewrite (main_cell_measured random c i _ b Hb) in Hcov.
      repeat split; try done.
      * eexists. apply Hcov; [done|]. left.
      * intros _. do 2 eexists.
        split; apply Hcov; try done; destruct (i mod 2 =? 1)%nat; find_write.
    + rewrite (main_cell_failed random c i _ Hb) in Hcov.
      repeat split; try done.
      * eexists. apply Hcov; [done|]. left.
      * intros _. apply Hcov; [done|]. left.
      * intros _ Hnd. rewrite (frame_on_primary random f n Hnd i c Hi).
        by apply main_cell_failed.
  - apply list_elem_of_lookup_1 in Hc as [j Hj].
    pose proof (frame_log_interstitial random f n j c) as Hcov.
    unfold measurable. destruct (getBBox c) as [b|] eqn:Hb.
    + rewrite (interstitial_cell_measured random c j _ b Hb) in Hcov.
      repeat split; try done.
      * eexists. apply Hcov; [done|]. left.
      * intros _. do 2 eexists. split; apply Hcov; try done; find_write.
    + rewrite (interstitial_cell_failed random c j _ Hb) in Hcov.
      repeat split; try done.
      * eexists. apply Hcov; [done|]. left.
      * intros _. apply Hcov; [done|]. left.
      * intros _ Hnd. rewrite (frame_on_interstitial random f n Hnd j c Hj).
        by apply interstitial_cell_failed.
Qed.

Lemma bbox_failure_is_absorbed_witness :
  SetStyle 1 transformOrigin (Str "center center")
    ∈ frame_log Samples.steady Samples.unmeasured 0
  /\ exists d d',
       SetStyle 2 animationDelay (Seconds d)
         ∈ frame_log Samples.steady Samples.unmeasured 0
       /\ SetStyle 2 animationDuration (Seconds d')
            ∈ frame_log Samples.steady Samples.unmeasured 0.
Proof.
  destruct (bbox_failure_is_absorbed Samples.steady Samples.unmeasured
              Samples.no_container pristine 0) as (_ & _ & Hcells).
  split.
  - destruct (Hcells (mkCell 1 None)) as (_ & Hfall & _).
    + vm_compute. find_write.
    + by apply Hfall.
  - destruct (Hcells (mkCell 2 (Some Samples.box))) as (_ & _ & _ & Htimed).
    + vm_compute. find_write.
    + by apply Htimed.
Defined.

(** C7: with no main cell on the page [initFoamAnimation] returns at once:
    it queues no animation-frame callback and writes no style, and the
    next animation frame has nothing to run, whether or not interstitial
    cells exist. *)
Theorem no_main_cells_no_work (random : nat -> Q) (doc : Document) (w : World) :
  foamCells doc = [] ->
  initFoamAnimation doc w = (inr tt, w)
  /\ page_load random doc pristine = (inr tt, pristine).
Proof.
  intros Hempty. unfold page_load, bind, initFoamAnimation.
  by rewrite Hempty.
Qed.

Lemma no_main_cells_no_work_witness :
  interstitialCells Samples.no_main_cells <> []
  /\ page_load Samples.steady Samples.no_main_cells pristine = (inr tt, pristine).
Proof.
  split; [discriminate|].
  by apply (no_main_cells_no_work Samples.steady Samples.no_main_cells pristine).
Defined.

(** C8, as worded, fails: the main cell at index 1 of the sample cannot be
    measured, and although its index is odd it receives no phase marker. *)
Lemma odd_unmeasured_cell_gets_no_marker :
  primary Samples.unmeasured !! 1 = Some (mkCell 1 None)
  /\ 1 mod 2 = 1
  /\ (ClassListAdd 1 "phase-contract"
        ∉ frame_log Samples.steady Samples.unmeasured 0).
Proof.
  repeat split. intros Hin%writes_on_class.
  change (writes_on 1 (frame_log Samples.steady Samples.unmeasured 0))
    with [SetStyle 1 transformOrigin (Str "center center")] in Hin.
  pick_write Hin; discriminate.
Qed.

(** C8, amended: for every main cell at index i whose bounding-box query
    succeeds, the class "phase-contract" is added if and only if
    i mod 2 = 1; a main cell whose query fails receives no class; and no
    other class is ever added to a main cell.  In particular, when the four
    cells of a sequence of length 4 are measurable, indices 1 and 3 receive
    the marker and indices 0 and 2 do not. *)
Theorem contract_marker_on_odd_measured_cells
    (random : nat -> Q) (f : Frame) (n : nat) :
  NoDup (node <$> (primary f ++ interstitial f)) ->
  forall i c, primary f !! i = Some c ->
    (ClassListAdd (node c) "phase-contract" ∈ frame_log random f n
       <-> measurable c = true /\ i mod 2 = 1)
    /\ (forall cls, ClassListAdd (node c) cls ∈ frame_log random f n ->
          cls = "phase-contract").
Proof.
  intros Hnd i c Hi.
  pose proof (frame_on_primary random f n Hnd i c Hi) as Hon.
  pose proof (frame_log_primary random f n i c) as Hcov.
  unfold measurable. destruct (getBBox c) as [b|] eqn:Hb.
  - rewrite (main_cell_measured random c i _ b Hb) in Hon, Hcov.
    destruct (i mod 2 =? 1)%nat eqn:Hodd.
    + apply Nat.eqb_eq in Hodd. split; [split|].
      * done.
      * intros _. apply Hcov; [done|]. find_write.
      * intros cls Hin%writes_on_class. rewrite Hon in Hin.
        pick_write Hin; congruence.
    + apply Nat.eqb_neq in Hodd. split; [split|].
      * intros Hin%writes_on_class. rewrite Hon in Hin.
        pick_write Hin; discriminate.
      * by intros [_ ?].
      * intros cls Hin%writes_on_class. rewrite Hon in Hin.
        pick_write Hin; discriminate.
  - rewrite (main_cell_failed random c i _ Hb) in Hon.
    split; [split|].
    + intros Hin%writes_on_class. rewrite Hon in Hin.
      pick_write Hin; discriminate.
    + by intros [? _].
    + intros cls Hin%writes_on_class. rewrite Hon in Hin.
      pick_write Hin; discriminate.
Qed.

Lemma contract_marker_on_odd_measured_cells_witness :
  let log := frame_log Samples.steady Samples.four_cells 0 in
  ClassListAdd 1 "phase-contract" ∈ log
  /\ ClassListAdd 3 "phase-contract" ∈ log
  /\ (ClassListAdd 0 "phase-contract" ∉ log)
  /\ (ClassListAdd 2 "phase-contract" ∉ log).
Proof.
  intros log.
  assert (NoDup (node <$> (primary Samples.four_cells
                           ++ interstitial Samples.four_cells))) as Hnd.
  { vm_compute. repeat constructor; set_solver. }
  pose proof (contract_marker_on_odd_measured_cells
                Samples.steady Samples.four_cells 0 Hnd) as Hmark.
  repeat split.
  - by apply (Hmark 1 (mkCell 1 (Some Samples.box))).
  - by apply (Hmark 3 (mkCell 3 (Some Samples.box))).
  - intros Hin.
    apply (Hmark 0 (mkCell 0 (Some Samples.box))) in Hin as [_ Hodd];
      [discriminate|reflexivity].
  - intros Hin.
    apply (Hmark 2 (mkCell 2 (Some Samples.box))) in Hin as [_ Hodd];
      [discriminate|reflexivity].
Defined.

(** C10: when no element matches ".foam-cells", [initFoamAnimation]
    returns at once even if main cells exist: it queues no animation-frame
    callback and writes no style, and the next animation frame has nothing
    to run. *)
Theorem no_container_no_work (random : nat -> Q) (doc : Document) (w : World) :
  svg doc = None ->
  initFoamAnimation doc w = (inr tt, w)
  /\ page_load random doc pristine = (inr tt, pristine).
Proof.
  intros Hnone. unfold page_load, bind, initFoamAnimation. rewrite Hnone.
  by destruct (length (foamCells doc) =? 0)%nat.
Qed.

Lemma no_container_no_work_witness :
  foamCells Samples.no_container <> []
  /\ page_load Samples.steady Samples.no_container pristine = (inr tt, pristine).
Proof.
  split; [discriminate|].
  by apply (no_container_no_work Samples.steady Samples.no_container pristine).
Defined.

End FoamClaims.

(** * Further properties of the scroll animator *)

Section ScrollTraces.

Import Scroll Traces.

Lemma batch_timers_from index entries t :
  t ∈ batch_timers index entries ->
  reveals t ∈ intersecting_targets entries
  /\ index * 100 <= delay t < (index + length entries) * 100
  /\ exists k, delay t = k * 100.
Proof.
  revert index. unfold intersecting_targets.
  induction entries as [|[tg b] rest IH]; intros index Hin; [by apply elem_of_nil in Hin|].
  cbn [batch_timers isIntersecting target] in Hin.
  apply elem_of_app in Hin as [Hin|Hin].
  - destruct b; [|by apply elem_of_nil in Hin].
    apply list_elem_of_singleton in Hin as ->. cbn [reveals delay length].
    rewrite filter_cons_True by done. split; [left|]. split; [lia|by eexists].
  - destruct (IH _ Hin) as (Htg & Hd & Hk). cbn [length].
    split; [|split; [lia|done]].
    destruct b.
    + rewrite filter_cons_True by done. by right.
    + by rewrite filter_cons_False by done.
Qed.

Lemma batch_timers_increase index entries i j t t' :
  batch_timers index entries !! i = Some t ->
  batch_timers index entries !! j = Some t' ->
  i < j -> delay t < delay t'.
Proof.
  revert index i j.
  induction entries as [|[tg b] rest IH]; intros index i j Hi Hj Hlt; [done|].
  cbn [batch_timers isIntersecting target] in Hi, Hj.
  destruct b; cbn [app] in Hi, Hj.
  - destruct j as [|j]; [lia|]. cbn in Hj.
    destruct i as [|i]; cbn in Hi.
    + injection Hi as <-. cbn [delay].
      apply list_elem_of_lookup_2, batch_timers_from in Hj. lia.
    + apply (IH (S index) i j); [done|done|lia].
  - by apply (IH (S index) i j).
Qed.

(** X1: In one run of the callback the stagger delays are multiples of 100ms
    that strictly increase in scheduling order and stay below 100ms times
    the number of entries: no two reveals of a batch start together. *)
Theorem stagger_strictly_increases (entries : list Entry) :
  (forall i j d d',
     scheduled_delays entries !! i = Some d ->
     scheduled_delays entries !! j = Some d' ->
     i < j -> d < d')
  /\ (forall d, d ∈ scheduled_delays entries ->
        d < length entries * 100 /\ exists k, d = k * 100).
Proof.
  unfold scheduled_delays. rewrite callback_timers. cbn [timers fresh app]. split.
  - intros i j d d' Hi Hj Hlt.
    rewrite list_lookup_fmap in Hi, Hj.
    destruct (batch_timers 0 entries !! i) as [t|] eqn:Ht; [|done].
    destruct (batch_timers 0 entries !! j) as [t'|] eqn:Ht'; [|done].
    injection Hi as <-. injection Hj as <-.
    by apply (batch_timers_increase 0 entries i j).
  - intros d (t & -> & Ht)%list_elem_of_fmap.
    apply batch_timers_from in Ht as (_ & Hd & Hk). split; [lia|done].
Qed.

Lemma stagger_strictly_increases_witness :
  scheduled_delays Samples.mixed_batch = [100] /\ 100 < 2 * 100.
Proof.
  split; [reflexivity|].
  destruct (stagger_strictly_increases Samples.mixed_batch) as [_ Hbound].
  destruct (Hbound 100) as [Hlt _]; [vm_compute; left | exact Hlt].
Defined.

(** X2: With no element matching the selector the animator does nothing,
    observer or not, and no later browser event changes that. *)
Theorem empty_selection_is_inert (supported : bool) (pg : Page) (evs : list Event) :
  initScrollAnimations supported [] pg = pg
  /\ run (initScrollAnimations supported [] fresh) evs = fresh.
Proof.
  assert (forall q, initScrollAnimations supported [] q = q) as Hinit.
  { intros q. unfold initScrollAnimations. by destruct supported. }
  split; [apply Hinit|]. rewrite Hinit.
  induction evs as [|ev evs IH]; [done|].
  cbn [run foldl]. rewrite fresh_is_inert. apply IH.
Qed.

Lemma forEach_hide_writes_ok (P : Write -> Prop) index els pg :
  (forall el, el ∈ els ->
     P (SetStyle el opacity (Str "0"))
     /\ P (SetStyle el transform (Str "translateY(20px)"))
     /\ P (SetStyle el transition (Str "opacity 0.5s ease, transform 0.5s ease"))) ->
  Forall P (writes pg) ->
  Forall P (writes (forEach (fun e _ => hide e) index els pg)).
Proof.
  revert index pg. induction els as [|a els IH]; intros index pg HP Hpg; [done|].
  cbn [forEach]. apply IH.
  - intros el Hel. apply HP. by right.
  - destruct (HP a) as (H1 & H2 & H3); [left|].
    cbn [hide emit writes]. rewrite !Forall_app, !Forall_singleton. done.
Qed.

Lemma init_settled els : settled els (initScrollAnimations true els fresh).
Proof.
  unfold settled, initScrollAnimations. cbn [negb].
  destruct els as [|a rest] eqn:Hels.
  { cbn. repeat split; [constructor|set_solver|constructor]. }
  cbn [length Nat.eqb]. rewrite <- Hels. clear Hels a rest.
  rewrite forEach_observe_writes, forEach_observe_timers, forEach_observe_observed.
  rewrite forEach_hide_timers, forEach_hide_observed. cbn [timers observed fresh].
  repeat split; [|set_solver|constructor].
  apply forEach_hide_writes_ok; [|constructor].
  intros el Hel. cbn. auto 10.
Qed.

Lemma step_settled els pg ev : settled els pg -> settled els (step pg ev).
Proof.
  intros (Hw & Hobs & Ht). destruct ev as [raw|k]; cbn [step].
  - unfold settled.
    rewrite callback_leaves_writes, callback_observed, callback_timers.
    split; [done|]. split; [set_solver|].
    apply Forall_app. split.
    + eapply Forall_impl; [exact Ht|]. cbn. intros t [? ?]. set_solver.
    + apply Forall_forall. intros t Hin.
      apply batch_timers_from in Hin as (Htg & _).
      pose proof (delivered_targets_observed _ _ _ Htg).
      split; [|set_solver].
      apply Hobs in H. by apply elem_of_list_to_set in H.
  - unfold fire. destruct (timers pg !! k) as [t|] eqn:Hk; [|done].
    assert (reveals t ∈ els) as Hel.
    { eapply Forall_forall in Ht as [? _]; [done|]. by eapply list_elem_of_lookup_2. }
    unfold settled. cbn [reveal emit writes observed timers].
    split; [|split; [done|]].
    + rewrite !Forall_app, !Forall_singleton. cbn. auto 10.
    + rewrite <- (take_drop_middle _ _ _ Hk) in Ht.
      apply Forall_app in Ht as [Ht1 Ht2]. apply Forall_cons in Ht2 as [_ Ht2].
      by apply Forall_app.
Qed.

Lemma run_settled supported els evs :
  settled els (run (initScrollAnimations supported els fresh) evs).
Proof.
  assert (settled els (initScrollAnimations supported els fresh)) as H0.
  { destruct supported; [apply init_settled|].
    cbn. repeat split; [constructor|set_solver|constructor]. }
  revert H0. generalize (initScrollAnimations supported els fresh).
  induction evs as [|ev evs IH]; intros pg Hpg; [done|].
  cbn [run foldl]. by apply IH, step_settled.
Qed.

(** X3: Whatever the browser reports and whenever timers fire, the animator
    only ever assigns strings to opacity, transform and transition of the
    watched elements (no other node, no other property, no class); the
    observer only watches such elements; and every pending reveal is for a
    watched element that is no longer observed. *)
Theorem animator_stays_within_bounds
    (supported : bool) (animatedElements : list Element) (evs : list Event) :
  let pg := run (initScrollAnimations supported animatedElements fresh) evs in
  Forall (animator_write animatedElements) (writes pg)
  /\ observed pg ⊆ list_to_set animatedElements
  /\ Forall (fun t => reveals t ∈ animatedElements /\ reveals t ∉ observed pg)
            (timers pg).
Proof. apply run_settled. Qed.

Lemma step_keeps_out el ev pg :
  keeps_out el ev -> el ∈ observed pg -> timers_for el pg = [] ->
  el ∈ observed (step pg ev)
  /\ timers_for el (step pg ev) = []
  /\ forall d, replay (writes (step pg ev)) d !!! el
               = replay (writes pg) d !!! el.
Proof.
  intros Hout Hobs Hnone. destruct ev as [raw|k]; cbn [step keeps_out] in *.
  - assert (el ∉ intersecting_targets (delivered raw pg)) as Hno.
    { unfold intersecting_targets, delivered.
      intros (e & -> & He)%list_elem_of_fmap.
      apply list_elem_of_filter in He as [Hint He].
      apply list_elem_of_filter in He as [_ He].
      apply Hout. destruct e as [tg b]. cbn in Hint. subst b. exact He. }
    rewrite callback_observed, callback_leaves_writes.
    split; [set_solver|]. split; [|done].
    unfold timers_for in *. rewrite callback_timers, filter_app, Hnone.
    cbn [app]. apply filter_none. intros t Ht Heq.
    apply batch_timers_from in Ht as [Ht _]. by rewrite Heq in Ht.
  - rewrite fire_observed. split; [done|].
    unfold fire. destruct (timers pg !! k) as [t|] eqn:Hk; [|done].
    assert (reveals t <> el) as Hne.
    { intros Heq. unfold timers_for in Hnone.
      assert (t ∈ timers pg) as Hin by (eapply list_elem_of_lookup_2; exact Hk).
      exact (filter_nil_not_elem_of _ _ t Hnone Heq Hin). }
    split.
    + unfold timers_for in *. cbn [reveal emit timers].
      rewrite <- (take_drop_middle _ _ _ Hk), filter_app, filter_cons_False in Hnone
        by done.
      by rewrite filter_app.
    + intros d. cbn [reveal emit writes]. rewrite <- !app_assoc. cbn [app].
      rewrite replay_app. cbn [replay foldl].
      by rewrite !perform_elsewhere.
Qed.

(** X4: A watched element that no notification ever reports as intersecting
    is never revealed: after any such sequence of events it is still
    observed, has no reveal pending, and still wears the hidden look. *)
Theorem unseen_element_stays_hidden
    (animatedElements : list Element) (el : Element) (evs : list Event)
    (d : gmap nat Node) :
  el ∈ animatedElements ->
  Forall (keeps_out el) evs ->
  let pg := run (initScrollAnimations true animatedElements fresh) evs in
  el ∈ observed pg
  /\ timers_for el pg = []
  /\ hidden_look (replay (writes pg) d !!! el).
Proof.
  intros Hin Hout pg. subst pg.
  set (pg0 := initScrollAnimations true animatedElements fresh).
  assert (el ∈ observed pg0 /\ timers_for el pg0 = []
          /\ hidden_look (replay (writes pg0) d !!! el)) as H0.
  { subst pg0. unfold initScrollAnimations, timers_for. cbn [negb].
    destruct animatedElements as [|a rest] eqn:Hels; [by apply elem_of_nil in Hin|].
    cbn [length Nat.eqb]. rewrite <- Hels in *.
    rewrite forEach_observe_writes, forEach_observe_timers, forEach_observe_observed.
    rewrite forEach_hide_timers. cbn [timers fresh].
    split; [set_solver|]. split; [done|]. by apply forEach_hide_look. }
  clearbody pg0. revert pg0 H0.
  induction Hout as [|ev evs Hev _ IH]; intros pg (Hobs & Hnone & Hlook); [done|].
  cbn [run foldl]. apply IH.
  destruct (step_keeps_out el ev pg Hev Hobs Hnone) as (? & ? & Hsame).
  by rewrite Hsame.
Qed.

Lemma unseen_element_stays_hidden_witness :
  hidden_look
    (replay (writes (run (initScrollAnimations true [0; 1] fresh)
                       [Notify [mkEntry 0 true; mkEntry 1 false]; Fire 0]))
       ∅ !!! 1).
Proof.
  apply (unseen_element_stays_hidden [0; 1] 1
           [Notify [mkEntry 0 true; mkEntry 1 false]; Fire 0] ∅).
  - right. left.
  - repeat constructor. cbn. intros Hin.
    repeat (apply elem_of_cons in Hin as [Hin|Hin]; [discriminate|]).
    by apply elem_of_nil in Hin.
Defined.

Lemma step_adds_reveals pg ev :
  exists extra, writes (step pg ev) = writes pg ++ extra
                /\ Forall reveal_write extra.
Proof.
  destruct ev as [raw|k]; cbn [step].
  - exists []. by rewrite callback_leaves_writes, app_nil_r.
  - unfold fire. destruct (timers pg !! k) as [t|].
    + eexists. cbn [reveal emit writes]. rewrite <- !app_assoc. cbn [app].
      split; [done|]. repeat constructor; exists (reveals t); auto.
    + exists []. by rewrite app_nil_r.
Qed.

Lemma run_adds_reveals evs pg :
  exists extra, writes (run pg evs) = writes pg ++ extra
                /\ Forall reveal_write extra.
Proof.
  revert pg. induction evs as [|ev evs IH]; intros pg.
  - exists []. by rewrite app_nil_r.
  - change (run pg (ev :: evs)) with (run (step pg ev) evs).
    destruct (IH (step pg ev)) as (extra & -> & Hextra).
    destruct (step_adds_reveals pg ev) as (first & -> & Hfirst).
    exists (first ++ extra). rewrite app_assoc. split; [done|].
    by apply Forall_app.
Qed.

Lemma reveals_keep_shown extra d el :
  Forall reveal_write extra ->
  shown_look (d !!! el) -> shown_look (replay extra d !!! el).
Proof.
  intros Hall. revert d.
  induction Hall as [|w extra (el' & Hw) _ IH]; intros d Hd; [done|].
  cbn [replay foldl]. apply IH. destruct Hd as [Hop Htr].
  destruct Hw as [-> | ->]; (destruct (decide (el' = el)) as [->|Hne];
    [|by rewrite perform_elsewhere]).
  - split; [apply perform_set_eq | by rewrite perform_set_ne].
  - split; [by rewrite perform_set_ne | apply perform_set_eq].
Qed.

(** X5: A revealed element stays revealed: from the moment one of its reveal
    timers has fired, whatever the page looked like before and whatever
    notifications and timers follow, the element has opacity 1 and
    transform translateY(0). *)
Theorem revealed_element_stays_shown
    (pg : Page) (k : nat) (t : Timer) (evs : list Event) (d : gmap nat Node) :
  timers pg !! k = Some t ->
  shown_look (replay (writes (run (fire k pg) evs)) d !!! reveals t).
Proof.
  intros Hk.
  destruct (run_adds_reveals evs (fire k pg)) as (extra & -> & Hextra).
  rewrite replay_app. apply reveals_keep_shown; [done|].
  unfold fire. rewrite Hk. cbn [reveal emit writes].
  rewrite <- !app_assoc. cbn [app]. rewrite replay_app. cbn [replay foldl].
  split; [by rewrite perform_set_ne; [apply perform_set_eq|] | apply perform_set_eq].
Qed.

Lemma revealed_element_stays_shown_witness :
  let pg := step (initScrollAnimations true [0; 1] fresh)
              (Notify Samples.entering_batch) in
  shown_look
    (replay (writes (run (fire 0 pg) [Notify [mkEntry 0 false]; Fire 0])) ∅ !!! 0).
Proof.
  intros pg.
  apply (revealed_element_stays_shown pg 0 (mkTimer 0 0)
           [Notify [mkEntry 0 false]; Fire 0] ∅).
  reflexivity.
Defined.

Lemma one_reveal_per_element_witness :
  footprint 0 (run (initScrollAnimations true [0; 1] fresh)
                 [Notify Samples.entering_batch; Fire 0;
                  Notify [mkEntry 0 false]; Notify [mkEntry 0 true]]) = 5.
Proof.
  apply (one_reveal_per_element [0; 1] 0
           [Notify Samples.entering_batch; Fire 0;
            Notify [mkEntry 0 false]; Notify [mkEntry 0 true]]).
  - repeat constructor; set_solver.
  - left.
  - repeat constructor; cbn; set_solver.
Defined.

End ScrollTraces.

(** * Writes to different properties *)

Section LayerFacts.

Import Layers.

Lemma perform_style_cong w d1 d2 el p :
  style (d1 !!! el) p = style (d2 !!! el) p ->
  style (perform w d1 !!! el) p = style (perform w d2 !!! el) p.
Proof.
  intros Heq. destruct w as [el' q v|el' c]; cbn [perform];
    (destruct (decide (el' = el)) as [->|Hne];
      [rewrite !lookup_total_insert_eq | by rewrite !lookup_total_insert_ne]).
  - cbn. by destruct (decide (p = q)).
  - done.
Qed.

Lemma replay_style_cong ws d1 d2 el p :
  style (d1 !!! el) p = style (d2 !!! el) p ->
  style (replay ws d1 !!! el) p = style (replay ws d2 !!! el) p.
Proof.
  revert d1 d2. induction ws as [|w ws IH]; intros d1 d2 Heq; [done|].
  cbn [replay foldl]. by apply IH, perform_style_cong.
Qed.

Lemma perform_class_cong w d1 d2 el :
  classList (d1 !!! el) = classList (d2 !!! el) ->
  classList (perform w d1 !!! el) = classList (perform w d2 !!! el).
Proof.
  intros Heq. destruct w as [el' q v|el' c]; cbn [perform];
    (destruct (decide (el' = el)) as [->|Hne];
      [rewrite !lookup_total_insert_eq | by rewrite !lookup_total_insert_ne]).
  - done.
  - cbn. by rewrite Heq.
Qed.

Lemma replay_class_cong ws d1 d2 el :
  classList (d1 !!! el) = classList (d2 !!! el) ->
  classList (replay ws d1 !!! el) = classList (replay ws d2 !!! el).
Proof.
  revert d1 d2. induction ws as [|w ws IH]; intros d1 d2 Heq; [done|].
  cbn [replay foldl]. by apply IH, perform_class_cong.
Qed.

Lemma replay_style_skip ws d el p :
  Forall (fun w => sets p w = false) ws ->
  style (replay ws d !!! el) p = style (d !!! el) p.
Proof.
  intros Hall. revert d. induction Hall as [|w ws Hw _ IH]; intros d; [done|].
  change (replay (w :: ws) d) with (replay ws (perform w d)). rewrite IH.
  destruct w as [el' q v|el' c]; cbn [perform];
    (destruct (decide (el' = el)) as [->|Hne];
      [rewrite !lookup_total_insert_eq | by rewrite !lookup_total_insert_ne]).
  - cbn in *. apply bool_decide_eq_false in Hw. by rewrite decide_False.
  - done.
Qed.

Lemma replay_class_skip ws d el :
  Forall (fun w => forall c, w <> ClassListAdd el c) ws ->
  classList (replay ws d !!! el) = classList (d !!! el).
Proof.
  intros Hall. revert d. induction Hall as [|w ws Hw _ IH]; intros d; [done|].
  change (replay (w :: ws) d) with (replay ws (perform w d)). rewrite IH.
  destruct w as [el' q v|el' c]; cbn [perform];
    (destruct (decide (el' = el)) as [->|Hne];
      [rewrite !lookup_total_insert_eq | by rewrite !lookup_total_insert_ne]).
  - done.
  - by destruct (Hw c).
Qed.

(** Two logs that write different layers of the page can be replayed in
    either order. *)
Lemma layers_commute (S L : list Write) d el :
  Forall scroll_write S -> Forall foam_write L ->
  (forall p, style (replay (S ++ L) d !!! el) p = style (replay (L ++ S) d !!! el) p)
  /\ classList (replay (S ++ L) d !!! el) = classList (replay (L ++ S) d !!! el)
  /\ (forall p, p = opacity \/ p = transform \/ p = transition ->
        style (replay (S ++ L) d !!! el) p = style (replay S d !!! el) p)
  /\ (forall p, p = transformOrigin \/ p = animationDelay \/ p = animationDuration ->
        style (replay (S ++ L) d !!! el) p = style (replay L d !!! el) p)
  /\ classList (replay (S ++ L) d !!! el) = classList (replay L d !!! el).
Proof.
  intros HS HL.
  assert (forall p, p = opacity \/ p = transform \/ p = transition ->
                    Forall (fun w => sets p w = false) L) as HLskip.
  { intros p Hp. eapply Forall_impl; [exact HL|].
    intros [el' q v|el' c] Hw; cbn in *; [|done].
    apply bool_decide_eq_false. intros ->.
    destruct Hp as [->| [->| ->]], Hw as [?|[?|?]]; discriminate. }
  assert (forall p, p = transformOrigin \/ p = animationDelay \/ p = animationDuration ->
                    Forall (fun w => sets p w = false) S) as HSskip.
  { intros p Hp. eapply Forall_impl; [exact HS|].
    intros [el' q v|el' c] Hw; cbn in *; [|done].
    apply bool_decide_eq_false. intros ->.
    destruct Hp as [->| [->| ->]], Hw as [?|[?|?]]; discriminate. }
  assert (Forall (fun w => forall c, w <> ClassListAdd el c) S) as HSclass.
  { eapply Forall_impl; [exact HS|]. intros [el' q v|el' c] Hw; cbn in *; done. }
  assert (forall p, p = opacity \/ p = transform \/ p = transition ->
            style (replay (S ++ L) d !!! el) p = style (replay S d !!! el) p
            /\ style (replay (L ++ S) d !!! el) p = style (replay S d !!! el) p) as Hscroll.
  { intros p Hp. rewrite !replay_app. split.
    - by apply replay_style_skip, HLskip.
    - apply replay_style_cong. by apply replay_style_skip, HLskip. }
  assert (forall p, p = transformOrigin \/ p = animationDelay \/ p = animationDuration ->
            style (replay (S ++ L) d !!! el) p = style (replay L d !!! el) p
            /\ style (replay (L ++ S) d !!! el) p = style (replay L d !!! el) p) as Hfoam.
  { intros p Hp. rewrite !replay_app. split.
    - apply replay_style_cong. by apply replay_style_skip, HSskip.
    - by apply replay_style_skip, HSskip. }
  assert (classList (replay (S ++ L) d !!! el) = classList (replay L d !!! el)
          /\ classList (replay (L ++ S) d !!! el) = classList (replay L d !!! el))
    as [Hc1 Hc2].
  { rewrite !replay_app. split.
    - apply replay_class_cong. by apply replay_class_skip.
    - by apply replay_class_skip. }
  repeat split.
  - intros p. destruct p.
    1-3: match goal with
         | |- style _ ?q = _ => destruct (Hscroll q ltac:(auto)) as [-> ->]
         end; done.
    all: match goal with
         | |- style _ ?q = _ => destruct (Hfoam q ltac:(auto)) as [-> ->]
         end; done.
  - by rewrite Hc1, Hc2.
  - intros p Hp. by apply Hscroll.
  - intros p Hp. by apply Hfoam.
  - done.
Qed.

End LayerFacts.

(** * Further properties of the foam timing assigner *)

Section FoamLogFacts.

Import Foam Layers.

Variable random : nat -> Q.


Lemma pass_log_elem f index n cells wr :
  wr ∈ pass_log f index n cells ->
  exists j c m, cells !! j = Some c /\ wr ∈ cell_log f c (index + j) m.
Proof.
  revert index n.
  induction cells as [|c0 rest IH]; intros index n Hin; [by apply elem_of_nil in Hin|].
  cbn [pass_log] in Hin. apply elem_of_app in Hin as [Hin|Hin].
  - exists 0, c0, n. by rewrite Nat.add_0_r.
  - destruct (IH _ _ Hin) as (j & c & m & Hj & Hwr).
    exists (S j), c, m. split; [done|].
    by replace (index + S j) with (S index + j) by lia.
Qed.

Lemma frame_log_elem f n wr :
  wr ∈ frame_log random f n ->
  (exists i c m, primary f !! i = Some c
                 /\ wr ∈ cell_log (main_cell random) c i m)
  \/ (exists j c m, interstitial f !! j = Some c
                    /\ wr ∈ cell_log (interstitial_cell random) c j m).
Proof.
  rewrite frame_log_split. intros [Hin|Hin]%elem_of_app.
  - left. apply pass_log_elem in Hin as (j & c & m & Hj & Hwr). by exists j, c, m.
  - right. apply pass_log_elem in Hin as (j & c & m & Hj & Hwr). by exists j, c, m.
Qed.


Lemma marker_iff_odd f n i c :
  NoDup (node <$> (primary f ++ interstitial f)) ->
  primary f !! i = Some c -> measurable c = true ->
  ClassListAdd (node c) "phase-contract" ∈ frame_log random f n <-> i mod 2 = 1.
Proof.
  intros Hnd Hi Hm. unfold measurable in Hm.
  destruct (getBBox c) as [b|] eqn:Hb; [clear Hm|done].
  pose proof (frame_on_primary random f n Hnd i c Hi) as Hon.
  pose proof (frame_log_primary random f n i c) as Hcov.
  rewrite (main_cell_measured random c i _ b Hb) in Hon, Hcov.
  destruct (i mod 2 =? 1)%nat eqn:Hodd.
  - apply Nat.eqb_eq in Hodd. split; [done|].
    intros _. apply Hcov; [done|]. right. left.
  - apply Nat.eqb_neq in Hodd. split; [|done].
    intros Hin%writes_on_class. rewrite Hon in Hin.
    pick_write Hin; discriminate.
Qed.

Lemma cell_log_foam f n wr :
  wr ∈ frame_log random f n -> foam_write wr.
Proof.
  intros [(i & c & m & _ & Hin)|(j & c & m & _ & Hin)]%frame_log_elem.
  - destruct (getBBox c) as [b|] eqn:Hb.
    + rewrite (main_cell_measured random c i _ b Hb) in Hin.
      pick_write Hin; subst wr; cbn; auto.
    + rewrite (main_cell_failed random c i _ Hb) in Hin.
      pick_write Hin; subst wr; cbn; auto.
  - destruct (getBBox c) as [b|] eqn:Hb.
    + rewrite (interstitial_cell_measured random c j _ b Hb) in Hin.
      pick_write Hin; subst wr; cbn; auto.
    + rewrite (interstitial_cell_failed random c j _ Hb) in Hin.
      pick_write Hin; subst wr; cbn; auto.
Qed.

End FoamLogFacts.

Section FoamMore.

Import Foam Layers.

(** X7: [initFoamAnimation] does nothing at call time but queue the frame
    callback: it writes no style and draws no random number.  On a page
    with main cells and a container the next animation frame then makes
    exactly the writes of one run of the callback over the two node
    lists, calling [Math.random] twice per measurable cell. *)
Theorem foam_work_is_deferred (random : nat -> Q) (doc : Document) (w : World) :
  writes (snd (initFoamAnimation doc w)) = writes w
  /\ draws (snd (initFoamAnimation doc w)) = draws w
  /\ forall c cells e,
       foamCells doc = c :: cells -> svg doc = Some e ->
       animationFrames (snd (initFoamAnimation doc w))
       = animationFrames w
         ++ [{| primary := foamCells doc; interstitial := interstitialCells doc |}]
       /\ page_load random doc pristine
          = (inr tt,
             {| draws := pass_cost (foamCells doc) + pass_cost (interstitialCells doc);
                writes := frame_log random
                            {| primary := foamCells doc;
                               interstitial := interstitialCells doc |} 0;
                animationFrames := [] |}).
Proof.
  unfold initFoamAnimation.
  destruct (foamCells doc) as [|c0 cells0] eqn:Hcells; cbn [length Nat.eqb].
  { repeat split; try done. }
  destruct (svg doc) as [e0|] eqn:Hsvg.
  - repeat split; try done.
    rewrite <- Hcells. by apply (page_load_runs_frame random doc c0 cells0 e0).
  - repeat split; try done.
Qed.

Lemma foam_work_is_deferred_witness :
  writes (snd (page_load Samples.steady
                 {| foamCells := primary Samples.unmeasured;
                    interstitialCells := interstitial Samples.unmeasured;
                    svg := Some 9 |} pristine))
  = frame_log Samples.steady Samples.unmeasured 0.
Proof.
  destruct (foam_work_is_deferred Samples.steady
              {| foamCells := primary Samples.unmeasured;
                 interstitialCells := interstitial Samples.unmeasured;
                 svg := Some 9 |} pristine) as (_ & _ & Hload).
  destruct (Hload (mkCell 0 (Some Samples.box))
              [mkCell 1 None; mkCell 2 (Some Samples.box)] 9) as [_ Hpage];
    [reflexivity | reflexivity |].
  by rewrite Hpage.
Defined.





(** X10: Neighbouring main cells move in opposition: of two measurable main
    cells that follow each other in the sequence, exactly one carries the
    "phase-contract" class. *)
Theorem neighbours_move_in_opposition
    (random : nat -> Q) (f : Frame) (n : nat) (i : nat) (c c' : Cell) :
  NoDup (node <$> (primary f ++ interstitial f)) ->
  primary f !! i = Some c -> primary f !! (S i) = Some c' ->
  measurable c = true -> measurable c' = true ->
  ClassListAdd (node c) "phase-contract" ∈ frame_log random f n
  <-> ClassListAdd (node c') "phase-contract" ∉ frame_log random f n.
Proof.
  intros Hnd Hi Hi' Hm Hm'.
  rewrite (marker_iff_odd random f n i c Hnd Hi Hm).
  rewrite (marker_iff_odd random f n (S i) c' Hnd Hi' Hm').
  pose proof (Nat.mod_upper_bound i 2). pose proof (Nat.mod_upper_bound (S i) 2).
  assert (S i mod 2 = (i mod 2 + 1) mod 2) as ->.
  { replace (S i) with (i + 1) by lia. by rewrite Nat.Div0.add_mod_idemp_l. }
  destruct (i mod 2) as [|[|k]] eqn:Hk; cbn; [split; [lia|]|split; [lia|]|lia].
  - intros Hno. exfalso. apply Hno. reflexivity.
  - done.
Qed.

Lemma neighbours_move_in_opposition_witness :
  ClassListAdd 2 "phase-contract" ∉ frame_log Samples.steady Samples.four_cells 0.
Proof.
  apply (neighbours_move_in_opposition Samples.steady Samples.four_cells 0 1
           (mkCell 1 (Some Samples.box)) (mkCell 2 (Some Samples.box))).
  - compute_decision.
  - reflexivity.
  - reflexivity.
  - reflexivity.
  - reflexivity.
  - rewrite frame_log_split. cbn. find_write.
Defined.

(** X11: The scroll animator and the foam assigner do not interfere.  For
    every node, replaying the animator's writes (after any browser events)
    and the writes of a frame callback gives the same styles and classes in
    either order; the frame callback leaves opacity, transform and
    transition as the animator set them, and the animator leaves
    transform-origin, animation-delay, animation-duration and the class
    list as the frame callback set them. *)
Theorem animator_and_foam_do_not_interfere
    (random : nat -> Q) (supported : bool) (animatedElements : list Element)
    (evs : list Scroll.Event) (f : Frame) (n : nat)
    (d : gmap nat Node) (el : Element) :
  let S := Scroll.writes
             (Scroll.run (Scroll.initScrollAnimations supported animatedElements
                            Scroll.fresh) evs) in
  let L := frame_log random f n in
  (forall p, style (replay (S ++ L) d !!! el) p = style (replay (L ++ S) d !!! el) p)
  /\ classList (replay (S ++ L) d !!! el) = classList (replay (L ++ S) d !!! el)
  /\ (forall p, p = opacity \/ p = transform \/ p = transition ->
        style (replay (S ++ L) d !!! el) p = style (replay S d !!! el) p)
  /\ (forall p, p = transformOrigin \/ p = animationDelay \/ p = animationDuration ->
        style (replay (S ++ L) d !!! el) p = style (replay L d !!! el) p)
  /\ classList (replay (S ++ L) d !!! el) = classList (replay L d !!! el).
Proof.
  intros S L. apply layers_commute.
  - destruct (run_settled supported animatedElements evs) as (Hw & _).
    eapply Forall_impl; [exact Hw|].
    intros [el' q [s0| |]|el' c] Hwr; cbn in *; try done. by destruct Hwr.
  - apply Forall_forall. intros wr Hwr. by eapply cell_log_foam.
Qed.

Lemma animator_and_foam_do_not_interfere_witness :
  style (replay (Scroll.writes
                   (Scroll.run (Scroll.initScrollAnimations true [0; 1] Scroll.fresh)
                      [Scroll.Notify Samples.entering_batch; Scroll.Fire 0])
                 ++ frame_log Samples.steady Samples.unmeasured 0) ∅ !!! 0) opacity
  = Some (Str "1").
Proof.
  destruct (animator_and_foam_do_not_interfere Samples.steady true [0; 1]
              [Scroll.Notify Samples.entering_batch; Scroll.Fire 0]
              Samples.unmeasured 0 ∅ 0) as (_ & _ & Hkeep & _).
  rewrite Hkeep; [reflexivity | by left].
Defined.

End FoamMore.

(** * Strings and patterns *)

Section TextFacts.

Import Text Form.

Lemma trimStart_blank s : trimStart s = [] <-> blank s.
Proof.
  unfold blank. induction s as [|c s IH]; cbn [trimStart]; [by split|].
  destruct (is_space c) eqn:Hc.
  - rewrite IH. split; [by constructor|]. by intros [_ ?]%Forall_cons.
  - split; [done|]. intros [? _]%Forall_cons. congruence.
Qed.

Lemma trimStart_head s c t : trimStart s = c :: t -> is_space c = false.
Proof.
  induction s as [|a s IH]; cbn [trimStart]; [done|].
  destruct (is_space a) eqn:Ha; [done|]. by intros [= <- _].
Qed.

Lemma falsy_empty s : truthy s = false <-> s = [].
Proof. by destruct s. Qed.

Lemma trim_blank s : truthy (trim s) = false <-> blank s.
Proof.
  rewrite falsy_empty. unfold trim. split.
  - intros Hnil. apply (f_equal (@rev N)) in Hnil.
    rewrite rev_involutive in Hnil. cbn [rev] in Hnil.
    apply trimStart_blank in Hnil. apply Forall_rev in Hnil.
    rewrite rev_involutive in Hnil.
    apply trimStart_blank.
    destruct (trimStart s) as [|c t] eqn:Hs; [done|].
    apply trimStart_head in Hs. apply Forall_cons in Hnil as [? _]. congruence.
  - intros Hb. apply trimStart_blank in Hb. by rewrite Hb.
Qed.

(** *** Derivatives decide matching *)

Lemma matches_never_inv x : matches Never x -> False.
Proof. intros H. inversion H. Qed.

Lemma matches_empty_inv x : matches Empty x -> x = [].
Proof. intros H. by inversion H. Qed.

Lemma matches_class_inv p x : matches (Class p) x -> exists c, x = [c] /\ p c = true.
Proof. intros H. inversion H; subst. eauto. Qed.

Lemma matches_seq_inv r s x :
  matches (Seq r s) x -> exists u v, x = u ++ v /\ matches r u /\ matches s v.
Proof. intros H. inversion H; subst. eauto. Qed.

Lemma matches_or_inv r s x : matches (Or r s) x -> matches r x \/ matches s x.
Proof. intros H. inversion H; subst; auto. Qed.

Lemma nullable_matches r : nullable r = true <-> matches r [].
Proof.
  induction r as [| |p|r IHr s IHs|r IHr s IHs|r IH]; cbn [nullable].
  - split; [done|]. by intros H%matches_never_inv.
  - split; [constructor|done].
  - split; [done|]. by intros (c & ? & _)%matches_class_inv.
  - rewrite andb_true_iff, IHr, IHs. split.
    + intros [Hr Hs]. by apply (matches_seq r s [] []).
    + intros (u & v & Heq & Hu & Hv)%matches_seq_inv.
      symmetry in Heq. apply app_eq_nil in Heq as [-> ->]. done.
  - rewrite orb_true_iff, IHr, IHs. split.
    + intros [H|H]; [by apply matches_or_l | by apply matches_or_r].
    + apply matches_or_inv.
  - split; [constructor|done].
Qed.

(** A non-empty match of [r*] starts with a non-empty match of [r]. *)
Lemma matches_star_cons r c t :
  matches (Star r) (c :: t) ->
  exists u v, t = u ++ v /\ matches r (c :: u) /\ matches (Star r) v.
Proof.
  intros H. remember (Star r) as R eqn:HR. remember (c :: t) as x eqn:Hx.
  revert c t Hx.
  induction H as [| | | | | r'|r' u v Hu _ Hv IHv]; intros c0 t0 Hx;
    try discriminate.
  injection HR as ->.
  destruct u as [|a u].
  - cbn in Hx. by apply IHv.
  - cbn in Hx. injection Hx as -> <-. by exists u, v.
Qed.

Lemma matches_seq_cons r s c t :
  matches (Seq r s) (c :: t) ->
  (exists u v, t = u ++ v /\ matches r (c :: u) /\ matches s v)
  \/ (matches r [] /\ matches s (c :: t)).
Proof.
  intros (u & v & Heq & Hu & Hv)%matches_seq_inv.
  destruct u as [|a u]; cbn in Heq.
  - right. by subst v.
  - left. injection Heq as <- ->. by exists u, v.
Qed.

Lemma derive_matches r c t : matches (derive c r) t <-> matches r (c :: t).
Proof.
  revert t. induction r as [| |p|r IHr s IHs|r IHr s IHs|r IH]; intros t;
    cbn [derive].
  - split; by intros H%matches_never_inv.
  - split; [by intros H%matches_never_inv | by intros H%matches_empty_inv].
  - destruct (p c) eqn:Hp; split.
    + intros ->%matches_empty_inv. by constructor.
    + intros (c' & [= -> ->] & _)%matches_class_inv. constructor.
    + by intros H%matches_never_inv.
    + intros (c' & [= -> ->] & ?)%matches_class_inv. congruence.
  - split.
    + intros H. destruct (nullable r) eqn:Hn.
      * apply matches_or_inv in H as [H|H].
        -- apply matches_seq_inv in H as (u & v & -> & Hu & Hv).
           apply IHr in Hu. by apply (matches_seq r s (c :: u) v).
        -- apply IHs in H. apply nullable_matches in Hn.
           by apply (matches_seq r s [] (c :: t)).
      * apply matches_seq_inv in H as (u & v & -> & Hu & Hv).
        apply IHr in Hu. by apply (matches_seq r s (c :: u) v).
    + intros [(u & v & -> & Hu & Hv)|[Hnil Hs]]%matches_seq_cons.
      * apply IHr in Hu. destruct (nullable r).
        -- apply matches_or_l. by constructor.
        -- by constructor.
      * apply nullable_matches in Hnil. rewrite Hnil.
        apply matches_or_r. by apply IHs.
  - split.
    + intros [H|H]%matches_or_inv.
      * apply matches_or_l. by apply IHr.
      * apply matches_or_r. by apply IHs.
    + intros [H|H]%matches_or_inv.
      * apply matches_or_l. by apply IHr.
      * apply matches_or_r. by apply IHs.
  - split.
    + intros (u & v & -> & Hu & Hv)%matches_seq_inv.
      apply IH in Hu. by apply (matches_star_more r (c :: u) v).
    + intros (u & v & -> & Hu & Hv)%matches_star_cons.
      constructor; [by apply IH|done].
Qed.

Lemma test_matches r s : test r s = true <-> matches r s.
Proof.
  revert r. induction s as [|c s IH]; intros r; cbn [test].
  - apply nullable_matches.
  - rewrite IH. apply derive_matches.
Qed.

(** *** The e-mail pattern *)

Lemma star_class p u :
  matches (Star (Class p)) u <-> Forall (fun c => p c = true) u.
Proof.
  split.
  - intros H. remember (Star (Class p)) as R eqn:HR.
    induction H as [| | | | | r'|r' x y Hx _ Hy IHy]; try discriminate; [done|].
    injection HR as ->.
    apply matches_class_inv in Hx as (c & -> & Hc).
    constructor; [done|]. by apply IHy.
  - induction 1 as [|c u Hc _ IH]; [constructor|].
    apply (matches_star_more (Class p) [c] u); [by constructor|done].
Qed.

Lemma plus_class p u :
  matches (Plus (Class p)) u <-> u <> [] /\ Forall (fun c => p c = true) u.
Proof.
  unfold Plus. split.
  - intros (x & y & -> & (c & -> & Hc)%matches_class_inv & Hy%star_class)%matches_seq_inv.
    split; [done|]. by constructor.
  - intros [Hne Hall]. destruct Hall as [|c u Hc Hall]; [done|].
    apply (matches_seq (Class p) _ [c] u); [by constructor | by apply star_class].
Qed.

Lemma lit_matches c x : matches (Lit c) x <-> x = [c].
Proof.
  unfold Lit. split.
  - intros (c' & -> & Heq%N.eqb_eq)%matches_class_inv. by subst.
  - intros ->. constructor. apply N.eqb_refl.
Qed.

Lemma emailRegex_matches s : matches emailRegex s <-> address_shaped s.
Proof.
  unfold emailRegex, address_shaped. split.
  - intros (u & r1 & -> & Hu%plus_class & H1)%matches_seq_inv.
    apply matches_seq_inv in H1 as (a & r2 & -> & ->%lit_matches & H2).
    apply matches_seq_inv in H2 as (v & r3 & -> & Hv%plus_class & H3).
    apply matches_seq_inv in H3 as (b & w & -> & ->%lit_matches & Hw%plus_class).
    exists u, v, w. destruct Hu, Hv, Hw. repeat split; done.
  - intros (u & v & w & -> & Hu & Hv & Hw & Pu & Pv & Pw).
    apply matches_seq; [by apply plus_class|].
    apply (matches_seq _ _ [64%N]); [by apply lit_matches|].
    apply matches_seq; [by apply plus_class|].
    apply (matches_seq _ _ [46%N]); [by apply lit_matches|].
    by apply plus_class.
Qed.

Lemma plain_spec c : plain c = true <-> is_space c = false /\ c <> 64%N.
Proof.
  unfold plain. rewrite negb_true_iff, orb_false_iff, N.eqb_neq. done.
Qed.

End TextFacts.

Section EmailPattern.

Import Text Form.

(** X12: The pattern accepts exactly the strings of the shape
    [local@domain.tld]: three non-empty runs of code units that are
    neither whitespace nor [@], the first two separated by an [@], the
    last two by a dot. *)
Theorem email_pattern_shape (s : list N) :
  test emailRegex s = true <-> address_shaped s.
Proof. rewrite test_matches. apply emailRegex_matches. Qed.

Lemma email_pattern_shape_witness : address_shaped (units "ada@example.org").
Proof. by apply (email_pattern_shape (units "ada@example.org")). Defined.

(** X13: Whatever the pattern accepts contains exactly one [@], no whitespace
    of any kind, and at least five code units. *)
Theorem accepted_address_is_clean (s : list N) :
  test emailRegex s = true ->
  length (filter (fun c => c = 64%N) s) = 1
  /\ Forall (fun c => is_space c = false) s
  /\ 5 <= length s.
Proof.
  rewrite test_matches, emailRegex_matches.
  intros (u & v & w & -> & Hu & Hv & Hw & Pu & Pv & Pw).
  assert (forall l, Forall (fun c => plain c = true) l ->
                    filter (fun c => c = 64%N) l = []
                    /\ Forall (fun c => is_space c = false) l) as Hplain.
  { intros l Hl. split.
    - apply filter_none. intros c Hc ->.
      eapply Forall_forall in Hl; [|exact Hc]. by apply plain_spec in Hl as [_ ?].
    - eapply Forall_impl; [exact Hl|]. intros c Hc. by apply plain_spec in Hc as [? _]. }
  destruct (Hplain u Pu) as [Fu Su], (Hplain v Pv) as [Fv Sv],
    (Hplain w Pw) as [Fw Sw].
  repeat split.
  - rewrite filter_app, filter_cons_True, filter_app, filter_cons_False by done.
    by rewrite Fu, Fv, Fw.
  - rewrite Forall_app, Forall_cons, Forall_app, Forall_cons. done.
  - rewrite length_app. cbn [length]. rewrite length_app. cbn [length].
    destruct u, v, w; cbn [length]; try done; lia.
Qed.

Lemma accepted_address_is_clean_witness :
  length (filter (fun c => c = 64%N) (units "ada@example.org")) = 1.
Proof.
  by apply (accepted_address_is_clean (units "ada@example.org")).
Defined.

End EmailPattern.

(** * Form validation *)

Section ClassListFacts.

Import ClassList.

Lemma elem_of_add c c' l : c' ∈ add c l <-> c' = c \/ c' ∈ l.
Proof.
  unfold add, contains. case_bool_decide as Hc.
  - split; [auto|]. by intros [->|?].
  - rewrite elem_of_app, list_elem_of_singleton. tauto.
Qed.

Lemma elem_of_remove c c' l : c' ∈ remove c l <-> c' <> c /\ c' ∈ l.
Proof. unfold remove. by rewrite list_elem_of_filter. Qed.

Lemma add_idem c l : add c (add c l) = add c l.
Proof.
  unfold add at 1. unfold contains.
  rewrite bool_decide_true; [done|]. apply elem_of_add. by left.
Qed.

Lemma remove_idem c l : remove c (remove c l) = remove c l.
Proof.
  unfold remove. apply filter_all. by intros t [? _]%list_elem_of_filter.
Qed.

Lemma remove_add c l : remove c (add c l) = remove c l.
Proof.
  unfold add, contains. case_bool_decide; [done|].
  unfold remove. rewrite filter_app, filter_cons_False, filter_nil by auto.
  by rewrite app_nil_r.
Qed.

Lemma lookup_update f el el' cls :
  update f el cls !! el'
  = if decide (el = el') then Some (f (cls !!! el)) else cls !! el'.
Proof. unfold update. apply lookup_insert. Qed.

Lemma lookup_total_update f el el' cls :
  update f el cls !!! el' = if decide (el = el') then f (cls !!! el) else cls !!! el'.
Proof.
  rewrite !lookup_total_alt, lookup_update. by destruct (decide (el = el')).
Qed.

End ClassListFacts.

Section FormFacts.

Import Text ClassList Form.

Variable value : Element -> list N.

Lemma verdict_on_idem f l : verdict_on value f (verdict_on value f l) = verdict_on value f l.
Proof.
  unfold verdict_on. destruct (negb (truthy (trim (value f)))).
  - apply add_idem.
  - apply remove_idem.
Qed.

Lemma loop_verdict b cls fields :
  fst (foldl (check_required value) (b, cls) fields)
  = b && forallb (fun f => truthy (trim (value f))) fields.
Proof.
  revert b cls. induction fields as [|f fields IH]; intros b cls; cbn [foldl forallb].
  - by rewrite andb_true_r.
  - unfold check_required at 2. cbn [fst snd].
    destruct (truthy (trim (value f))); cbn [negb]; rewrite IH.
    + by rewrite andb_true_l.
    + by rewrite andb_false_r.
Qed.

Lemma loop_lookup b cls fields el :
  snd (foldl (check_required value) (b, cls) fields) !! el
  = if decide (el ∈ fields) then Some (verdict_on value el (cls !!! el))
    else cls !! el.
Proof.
  revert b cls. induction fields as [|f fields IH]; intros b cls; cbn [foldl].
  - by rewrite decide_False by apply not_elem_of_nil.
  - assert (exists b', check_required value (b, cls) f
                       = (b', update (verdict_on value f) f cls)) as [b' ->].
    { unfold check_required, verdict_on. cbn [fst snd].
      destruct (negb (truthy (trim (value f)))); by eexists. }
    rewrite IH, lookup_total_update, lookup_update.
    destruct (decide (f = el)) as [->|Hne].
    + rewrite (decide_True (P := el ∈ el :: fields)) by left.
      destruct (decide (el ∈ fields)); [by rewrite verdict_on_idem|done].
    + destruct (decide (el ∈ fields)).
      * by rewrite decide_True by (by right).
      * rewrite decide_False; [done|]. by intros [?|?]%elem_of_cons.
Qed.

Lemma validateForm_verdict form cls :
  fst (validateForm value form cls)
  = forallb (fun f => truthy (trim (value f))) (requiredFields form)
    && match email form with
       | Some e => negb (truthy (value e)) || test emailRegex (value e)
       | None => true
       end.
Proof.
  unfold validateForm. destruct (email form) as [e|].
  - destruct (truthy (value e)); cbn [negb orb].
    + destruct (test emailRegex (value e)); cbn [negb fst].
      * by rewrite loop_verdict, andb_true_r.
      * by rewrite andb_false_r.
    + by rewrite loop_verdict, andb_true_r.
  - by rewrite loop_verdict, andb_true_r.
Qed.

Lemma validateForm_lookup form cls el :
  snd (validateForm value form cls) !!! el
  = let l := if decide (el ∈ requiredFields form)
             then verdict_on value el (cls !!! el) else cls !!! el in
    if rejected_email value form el then add "error" l else l.
Proof.
  assert (snd (foldl (check_required value) (true, cls) (requiredFields form)) !!! el
          = if decide (el ∈ requiredFields form)
            then verdict_on value el (cls !!! el) else cls !!! el) as Hloop.
  { rewrite !lookup_total_alt, loop_lookup.
    by destruct (decide (el ∈ requiredFields form)). }
  unfold validateForm, rejected_email. cbn zeta.
  destruct (email form) as [e|]; [|exact Hloop].
  destruct (truthy (value e)); [|by rewrite andb_false_r].
  destruct (test emailRegex (value e)); cbn [negb]; [by rewrite andb_false_r|].
  cbn [snd]. rewrite lookup_total_update, !andb_true_r.
  destruct (decide (e = el)) as [->|Hne].
  - rewrite bool_decide_true by done. by rewrite Hloop.
  - rewrite bool_decide_false by done. exact Hloop.
Qed.

End FormFacts.

Section FormClaims.

Import Text ClassList Form.

Lemma validateForm_true_iff
    (value : Element -> list N) (form : FormElement) (cls : gmap nat (list string)) :
  fst (validateForm value form cls) = true
  <-> (forall f, f ∈ requiredFields form -> ~ blank (value f))
      /\ (forall e, email form = Some e -> value e = [] \/ address_shaped (value e)).
Proof.
  rewrite validateForm_verdict, andb_true_iff, forallb_forall. split.
  - intros [Hreq Hmail]. split.
    + intros f Hf Hblank. apply trim_blank in Hblank.
      apply list_elem_of_In in Hf. apply Hreq in Hf. congruence.
    + intros e He. rewrite He in Hmail.
      apply orb_true_iff in Hmail as [Hempty|Hok].
      * left. apply negb_true_iff in Hempty. by apply falsy_empty.
      * right. by apply test_matches, emailRegex_matches in Hok.
  - intros [Hreq Hmail]. split.
    + intros f Hf%list_elem_of_In.
      destruct (truthy (trim (value f))) eqn:Ht; [done|].
      apply trim_blank in Ht. by destruct (Hreq f Hf).
    + destruct (email form) as [e|]; [|done].
      destruct (Hmail e eq_refl) as [->|Hok]; [done|].
      apply emailRegex_matches, test_matches in Hok. by rewrite Hok, orb_true_r.
Qed.

(** X14: [validateForm] returns true exactly when every required field holds
    something other than whitespace and the e-mail input, if there is one
    and it is filled in, has the shape local@domain.tld.  The verdict does
    not depend on the classes the fields carry. *)
Theorem validation_verdict
    (value : Element -> list N) (form : FormElement) (cls : gmap nat (list string)) :
  fst (validateForm value form cls) = true
  <-> (forall f, f ∈ requiredFields form -> ~ blank (value f))
      /\ (forall e, email form = Some e -> value e = [] \/ address_shaped (value e)).
Proof. apply validateForm_true_iff. Qed.

Lemma validation_verdict_witness : ~ blank (Cases.filled 0).
Proof.
  destruct (proj1 (validation_verdict Cases.filled Cases.contact_form ∅) eq_refl)
    as [Hreq _].
  apply Hreq. left.
Defined.

(** X15: After [validateForm] a required field carries the class "error"
    exactly when its value is blank, or it is the e-mail input, filled in
    and malformed.  In particular no required field carries "error" when
    the form is valid. *)
Theorem required_fields_marked_exactly
    (value : Element -> list N) (form : FormElement) (cls : gmap nat (list string))
    (f : Element) :
  f ∈ requiredFields form ->
  ("error" ∈ snd (validateForm value form cls) !!! f
   <-> blank (value f)
       \/ (email form = Some f /\ value f <> [] /\ ~ address_shaped (value f)))
  /\ (fst (validateForm value form cls) = true ->
      "error" ∉ snd (validateForm value form cls) !!! f).
Proof.
  intros Hf.
  assert ("error" ∈ snd (validateForm value form cls) !!! f
          <-> blank (value f)
              \/ (email form = Some f /\ value f <> [] /\ ~ address_shaped (value f)))
    as Hmark.
  { rewrite validateForm_lookup. cbn zeta. rewrite decide_True by done.
    unfold rejected_email, verdict_on.
    assert (rejected_email value form f = true
            <-> email form = Some f /\ value f <> [] /\ ~ address_shaped (value f))
      as Hrej.
    { unfold rejected_email. destruct (email form) as [e|]; [|by split; [|intros [? _]]].
      rewrite !andb_true_iff, bool_decide_eq_true, negb_true_iff. split.
      - intros [[-> Hfill] Hbad]. split; [done|]. split.
        + intros Hnil. by rewrite Hnil in Hfill.
        + intros Hshape%emailRegex_matches%test_matches. congruence.
      - intros ([= ->] & Hfill & Hbad). repeat split.
        + by destruct (value f).
        + destruct (test emailRegex (value f)) eqn:Ht; [|done].
          by apply test_matches, emailRegex_matches in Ht. }
    unfold rejected_email in Hrej.
    destruct (truthy (trim (value f))) eqn:Ht; cbn [negb].
    - assert (~ blank (value f)) as Hnb by (intros Hb%trim_blank; congruence).
      destruct (match email form with Some e => _ | None => false end) eqn:Hr.
      + rewrite elem_of_add. split; [intros _; right; by apply Hrej|by left].
      + rewrite elem_of_remove. split; [by intros [? _]|].
        intros [?|Hbad]; [done|]. apply Hrej in Hbad. congruence.
    - apply trim_blank in Ht.
      destruct (match email form with Some e => _ | None => false end).
      + rewrite !elem_of_add. split; [by left|by left].
      + rewrite elem_of_add. split; [by left|by left]. }
  split; [exact Hmark|].
  intros Hvalid Herr. apply Hmark in Herr.
  apply validateForm_true_iff in Hvalid as [Hreq Hmail].
  destruct Herr as [Hblank|(He & Hfill & Hbad)].
  - by apply (Hreq f).
  - by destruct (Hmail f He).
Qed.

Lemma required_fields_marked_exactly_witness :
  "error" ∈ snd (validateForm Cases.sloppy Cases.contact_form ∅) !!! 0.
Proof.
  destruct (required_fields_marked_exactly Cases.sloppy Cases.contact_form ∅ 0)
    as [Hmark _].
  - left.
  - apply Hmark. left. unfold blank. compute_decision.
Defined.

(** X16: [validateForm] never clears the class "error" of an e-mail input
    that is not a required field: afterwards the input carries "error"
    exactly when it carried it before or is filled in and malformed.  A
    form can therefore be reported valid while its e-mail input still
    shows an old error. *)
Theorem optional_email_keeps_old_error
    (value : Element -> list N) (form : FormElement) (cls : gmap nat (list string))
    (e : Element) :
  email form = Some e -> e ∉ requiredFields form ->
  "error" ∈ snd (validateForm value form cls) !!! e
  <-> "error" ∈ cls !!! e \/ (value e <> [] /\ ~ address_shaped (value e)).
Proof.
  intros He Hopt. rewrite validateForm_lookup. cbn zeta.
  rewrite decide_False by done. unfold rejected_email. rewrite He.
  rewrite bool_decide_true by done. cbn [andb].
  destruct (truthy (value e)) eqn:Hfill; cbn [andb].
  - destruct (test emailRegex (value e)) eqn:Ht; cbn [negb].
    + apply test_matches, emailRegex_matches in Ht.
      split; [by left|]. by intros [?|[_ ?]].
    + rewrite elem_of_add. split; [|by left].
      intros _. right. split; [by destruct (value e)|].
      intros Hs%emailRegex_matches%test_matches. congruence.
  - apply falsy_empty in Hfill. split; [by left|]. by intros [?|[? _]].
Qed.

Lemma optional_email_keeps_old_error_witness :
  fst (validateForm Cases.filled Cases.contact_form Cases.stale_marks) = true
  /\ "error" ∈ snd (validateForm Cases.filled Cases.contact_form Cases.stale_marks) !!! 1.
Proof.
  split; [reflexivity|].
  apply (optional_email_keeps_old_error Cases.filled Cases.contact_form
           Cases.stale_marks 1).
  - reflexivity.
  - compute_decision.
  - left. compute_decision.
Defined.

(** X17: [validateForm] touches nothing but the token "error" of the fields
    it inspects: every other class of every node stays as it was, and a
    node that is neither a required field nor the e-mail input keeps its
    class list unchanged. *)
Theorem validation_only_moves_error
    (value : Element -> list N) (form : FormElement) (cls : gmap nat (list string))
    (el : Element) :
  (forall c, c <> "error" ->
     c ∈ snd (validateForm value form cls) !!! el <-> c ∈ cls !!! el)
  /\ (el ∉ requiredFields form -> email form <> Some el ->
      snd (validateForm value form cls) !!! el = cls !!! el).
Proof.
  rewrite validateForm_lookup. cbn zeta. split.
  - intros c Hc.
    assert (forall l, c ∈ add "error" l <-> c ∈ l) as Hadd.
    { intros l. rewrite elem_of_add. split; [by intros [?|?]|by right]. }
    assert (forall l, c ∈ remove "error" l <-> c ∈ l) as Hrem.
    { intros l. rewrite elem_of_remove. split; [by intros [_ ?]|done]. }
    assert (forall l, c ∈ verdict_on value el l <-> c ∈ l) as Hver.
    { intros l. unfold verdict_on. by destruct (negb _). }
    destruct (rejected_email value form el); rewrite ?Hadd;
      destruct (decide (el ∈ requiredFields form)); by rewrite ?Hver.
  - intros Hreq Hmail. rewrite decide_False by done.
    unfold rejected_email. destruct (email form) as [e|]; [|done].
    rewrite bool_decide_false; [done|]. congruence.
Qed.

Lemma validation_only_moves_error_witness :
  snd (validateForm Cases.sloppy Cases.contact_form Cases.stale_marks) !!! 7
  = Cases.stale_marks !!! 7.
Proof.
  destruct (validation_only_moves_error Cases.sloppy Cases.contact_form
              Cases.stale_marks 7) as [_ Hsame].
  apply Hsame; [compute_decision|discriminate].
Defined.

(** X18: Validating twice is the same as validating once, as long as no
    value changes in between: the second run returns the same verdict and
    leaves every class list as the first run left it. *)
Theorem validation_is_idempotent
    (value : Element -> list N) (form : FormElement) (cls : gmap nat (list string))
    (el : Element) :
  fst (validateForm value form (snd (validateForm value form cls)))
  = fst (validateForm value form cls)
  /\ snd (validateForm value form (snd (validateForm value form cls))) !!! el
     = snd (validateForm value form cls) !!! el.
Proof.
  split; [by rewrite !validateForm_verdict|].
  rewrite (validateForm_lookup value form (snd _)). cbn zeta.
  rewrite validateForm_lookup. cbn zeta.
  destruct (rejected_email value form el);
    destruct (decide (el ∈ requiredFields form)).
  - unfold verdict_on. destruct (negb (truthy (trim (value el)))).
    + by rewrite !add_idem.
    + by rewrite remove_add, remove_idem.
  - by rewrite add_idem.
  - by rewrite verdict_on_idem.
  - done.
Qed.

End FormClaims.

(** * Menu, accordion and anchors *)

Section UIFacts.

Import ClassList UI.

Lemma contains_true c l : contains c l = true <-> c ∈ l.
Proof. unfold contains. apply bool_decide_eq_true. Qed.

Lemma contains_add c l : contains c (add c l) = true.
Proof. apply contains_true, elem_of_add. by left. Qed.

Lemma contains_remove c l : contains c (remove c l) = false.
Proof.
  apply not_true_is_false. rewrite contains_true, elem_of_remove. by intros [? _].
Qed.

Lemma contains_toggle c l : contains c (toggle c l) = negb (contains c l).
Proof.
  unfold toggle. destruct (contains c l) eqn:Hc; cbn [negb].
  - apply contains_remove.
  - apply contains_true, elem_of_app. right. by apply list_elem_of_singleton.
Qed.

Lemma contains_toggle_to c b l : contains c (toggle_to c b l) = b.
Proof. destruct b; [apply contains_add | apply contains_remove]. Qed.

Lemma has_class_set c f el el' s :
  has_class c el (set_classes f el' s)
  = if decide (el' = el) then contains c (f (classes s !!! el)) else has_class c el s.
Proof.
  unfold has_class, set_classes. cbn [classes]. rewrite lookup_total_update.
  by destruct (decide (el' = el)) as [->|].
Qed.

Lemma classes_set f el el' s :
  classes (set_classes f el' s) !!! el
  = if decide (el' = el) then f (classes s !!! el) else classes s !!! el.
Proof.
  unfold set_classes. cbn [classes]. rewrite lookup_total_update.
  by destruct (decide (el' = el)) as [->|].
Qed.

(** What the loop of the question handler leaves. *)
Lemma close_others_classes item items s el :
  classes (foldl (fun acc otherItem =>
                    if decide (otherItem <> item)
                    then set_classes (remove "active") otherItem acc
                    else acc) s items) !!! el
  = if decide (el ∈ items /\ el <> item)
    then remove "active" (classes s !!! el) else classes s !!! el.
Proof.
  revert s. induction items as [|o items IH]; intros s; cbn [foldl].
  - rewrite decide_False; [done|]. by intros [?%elem_of_nil _].
  - rewrite IH. destruct (decide (o <> item)) as [Hoi|Hoi].
    + rewrite classes_set. destruct (decide (o = el)) as [->|Hne].
      * rewrite (decide_True (P := el ∈ el :: items /\ el <> item))
          by (split; [left|done]).
        destruct (decide (el ∈ items /\ el <> item)); [apply remove_idem|done].
      * destruct (decide (el ∈ items /\ el <> item)) as [[? ?]|Hno].
        -- by rewrite decide_True by (split; [by right|done]).
        -- rewrite decide_False; [done|].
           intros [[?|?]%elem_of_cons ?]; [congruence|]. by apply Hno.
    + apply dec_stable in Hoi. subst o.
      destruct (decide (el ∈ items /\ el <> item)) as [[? ?]|Hno].
      * by rewrite decide_True by (split; [by right|done]).
      * rewrite decide_False; [done|].
        intros [[?|?]%elem_of_cons ?]; [congruence|]. by apply Hno.
Qed.

Lemma close_others_rest item items s :
  overflow (foldl (fun acc otherItem =>
                     if decide (otherItem <> item)
                     then set_classes (remove "active") otherItem acc
                     else acc) s items) = overflow s
  /\ calls (foldl (fun acc otherItem =>
                     if decide (otherItem <> item)
                     then set_classes (remove "active") otherItem acc
                     else acc) s items) = calls s.
Proof.
  revert s. induction items as [|o items IH]; intros s; cbn [foldl]; [done|].
  destruct (IH (if decide (o <> item)
                then set_classes (remove "active") o s else s)) as [-> ->].
  by destruct (decide (o <> item)).
Qed.

Lemma question_click_classes item items s el :
  classes (on_question_click item items s) !!! el
  = if decide (el = item)
    then toggle_to "active" (negb (has_class "active" item s)) (classes s !!! el)
    else if decide (el ∈ items) then remove "active" (classes s !!! el)
    else classes s !!! el.
Proof.
  unfold on_question_click. cbn zeta. rewrite classes_set, close_others_classes.
  repeat case_decide; subst; try done; exfalso; tauto.
Qed.

Lemma question_click_rest item items s :
  overflow (on_question_click item items s) = overflow s
  /\ calls (on_question_click item items s) = calls s.
Proof.
  unfold on_question_click. cbn zeta. unfold set_classes. cbn [overflow calls].
  apply close_others_rest.
Qed.

(** *** What the load handler registers *)

Lemma initMobileMenu_wired doc : Forall (wired doc) (initMobileMenu (menu doc)).
Proof.
  unfold initMobileMenu.
  destruct (nav_toggle (menu doc)) as [t|] eqn:Ht; [|constructor].
  destruct (mobile_menu (menu doc)) as [m|] eqn:Hm; [|constructor].
  rewrite !Forall_app, Forall_fmap, !Forall_singleton. unfold wired. cbn.
  rewrite Ht, Hm. repeat split; try done.
  apply Forall_forall. intros link _. cbn. done.
Qed.

Lemma wire_faq_wired doc rest :
  (forall it, it ∈ rest -> item it ∈ item <$> faq doc) ->
  Forall (wired doc) (snd (wire_faq (item <$> faq doc) rest)).
Proof.
  induction rest as [|it rest IH]; intros Hin; cbn [wire_faq]; [constructor|].
  destruct (question it) as [q|]; [|constructor].
  destruct (wire_faq (item <$> faq doc) rest) as [r ls] eqn:Hw. cbn [snd] in *.
  constructor.
  - unfold wired. cbn. repeat split; try done. apply Hin. left.
  - apply IH. intros it' Hit'. apply Hin. by right.
Qed.

Lemma initFAQ_wired doc : Forall (wired doc) (snd (initFAQ (faq doc))).
Proof.
  unfold initFAQ. destruct (length (faq doc) =? 0)%nat; [constructor|].
  apply wire_faq_wired. intros it Hit. by apply list_elem_of_fmap_2.
Qed.

Lemma initSmoothScroll_wired doc : Forall (wired doc) (initSmoothScroll (anchors doc)).
Proof.
  unfold initSmoothScroll. rewrite Forall_fmap. apply Forall_forall.
  intros a Ha. unfold wired. cbn. done.
Qed.

Lemma loaded_wired doc :
  Forall (wired doc) (listeners (snd (on_DOMContentLoaded doc))).
Proof.
  unfold on_DOMContentLoaded. cbn zeta.
  pose proof (initMobileMenu_wired doc) as H1.
  pose proof (initFAQ_wired doc) as H2.
  pose proof (initSmoothScroll_wired doc) as H3.
  destruct (initFAQ (faq doc)) as [[e|u] ls2]; cbn [snd] in *.
  - cbn [listeners]. by apply Forall_app.
  - destruct (Foam.initFoamAnimation (foam doc) Foam.pristine) as [r w].
    cbn [snd listeners]. rewrite !Forall_app. done.
Qed.

(** *** Events *)

Lemma dispatch_keeps (P : Site -> Prop) env ls ev s :
  (forall l s', l ∈ ls -> hears l ev = true -> P s' -> P (handle env (handler l) ev s')) ->
  P s -> P (dispatch env ls ev s).
Proof.
  unfold dispatch. revert s.
  induction ls as [|l ls IH]; intros s Hstep Hs; cbn [foldl]; [done|].
  apply IH.
  - intros l' s' Hl'. apply Hstep. by right.
  - destruct (hears l ev) eqn:Hh; [|done]. apply Hstep; [left|done|done].
Qed.

Lemma run_keeps (P : Site -> Prop) env ls evs s :
  (forall l ev s', l ∈ ls -> hears l ev = true -> P s' -> P (handle env (handler l) ev s')) ->
  P s -> P (run env ls evs s).
Proof.
  unfold run. revert s.
  induction evs as [|ev evs IH]; intros s Hstep Hs; cbn [foldl]; [done|].
  apply IH; [done|]. apply dispatch_keeps; [|done].
  intros l s' Hl Hh. by apply Hstep.
Qed.

(** A property some listener of the event establishes and the others
    keep holds after the event. *)
Lemma dispatch_reaches (P : Site -> Prop) env ls ev l s :
  l ∈ ls -> hears l ev = true ->
  (forall s', P (handle env (handler l) ev s')) ->
  (forall l' s', l' ∈ ls -> hears l' ev = true -> P s' ->
                 P (handle env (handler l') ev s')) ->
  P (dispatch env ls ev s).
Proof.
  unfold dispatch. revert s.
  induction ls as [|l0 ls IH]; intros s Hin Hh Hl Hkeep; [by apply elem_of_nil in Hin|].
  cbn [foldl]. apply elem_of_cons in Hin as [->|Hin].
  - rewrite Hh. apply (dispatch_keeps P env ls ev).
    + intros l' s' Hl'. apply Hkeep. by right.
    + apply Hl.
  - apply IH; [done|done|done|].
    intros l' s' Hl'. apply Hkeep. by right.
Qed.

(** *** The menu handlers *)

Lemma toggle_click_elsewhere t m s el :
  el <> t -> el <> m -> classes (on_toggle_click t m s) !!! el = classes s !!! el.
Proof.
  intros Ht Hm. unfold on_toggle_click, set_overflow. cbn [classes].
  rewrite !classes_set. by rewrite !decide_False by congruence.
Qed.

Lemma close_menu_elsewhere t m s el :
  el <> t -> el <> m -> classes (close_menu t m s) !!! el = classes s !!! el.
Proof.
  intros Ht Hm. unfold close_menu, set_overflow. cbn [classes].
  rewrite !classes_set. by rewrite !decide_False by congruence.
Qed.

Lemma close_menu_closed t m s :
  has_class "active" m (close_menu t m s) = false
  /\ has_class "active" t (close_menu t m s) = false
  /\ overflow (close_menu t m s) = "".
Proof.
  unfold close_menu, set_overflow, has_class. cbn [classes overflow].
  rewrite !classes_set. repeat split.
  - destruct (decide (t = m)); [apply contains_remove|].
    rewrite decide_True by done. apply contains_remove.
  - rewrite decide_True by done. apply contains_remove.
Qed.

Lemma toggle_click_in_step t m s :
  t <> m -> in_step t m s -> in_step t m (on_toggle_click t m s).
Proof.
  intros Hne [Hsame Hlock]. unfold in_step, on_toggle_click, set_overflow, has_class in *.
  cbn [classes overflow]. rewrite !classes_set.
  rewrite (decide_True (P := t = t)), (decide_False (P := t = m)),
    (decide_True (P := m = m)), (decide_False (P := m = t)) by congruence.
  rewrite !contains_toggle, Hsame. split; [done|].
  by destruct (contains "active" (classes s !!! m)).
Qed.

Lemma close_menu_in_step t m s : in_step t m (close_menu t m s).
Proof.
  destruct (close_menu_closed t m s) as (Hm & Ht & Ho).
  unfold in_step. by rewrite Hm, Ht, Ho.
Qed.

Lemma handle_in_step env doc t m l ev s :
  wired doc l ->
  nav_toggle (menu doc) = Some t -> mobile_menu (menu doc) = Some m ->
  t <> m -> t ∉ item <$> faq doc -> m ∉ item <$> faq doc ->
  in_step t m s -> in_step t m (handle env (handler l) ev s).
Proof.
  intros Hw Ht Hm Hne Htf Hmf Hs. unfold wired in Hw.
  destruct (handler l) as [t' m'|t' m'|t' m'|it all|a]; cbn [handle].
  - destruct Hw as (Ht' & Hm' & _). rewrite Ht in Ht'. rewrite Hm in Hm'.
    injection Ht' as <-. injection Hm' as <-. by apply toggle_click_in_step.
  - destruct Hw as (Ht' & Hm' & _). rewrite Ht in Ht'. rewrite Hm in Hm'.
    injection Ht' as <-. injection Hm' as <-. apply close_menu_in_step.
  - destruct Hw as (Ht' & Hm'). rewrite Ht in Ht'. rewrite Hm in Hm'.
    injection Ht' as <-. injection Hm' as <-.
    destruct ev as [el|key]; [done|]. unfold on_keydown.
    destruct (String.eqb key "Escape" && has_class "active" m s); [|done].
    apply close_menu_in_step.
  - destruct Hw as (-> & Hit & _). destruct Hs as [Hsame Hlock].
    unfold in_step, has_class in *.
    destruct (question_click_rest it (item <$> faq doc) s) as [-> _].
    rewrite !question_click_classes.
    rewrite (decide_False (P := t = it)), (decide_False (P := m = it)) by congruence.
    by rewrite !decide_False by done.
  - unfold on_anchor_click.
    destruct (bool_decide (href env a = [35%N])); [done|].
    by destruct (querySelector env (href env a)).
Qed.

Lemma keydown_hears_escape doc l key :
  wired doc l -> hears l (Keydown key) = true ->
  exists t m, handler l = escape_key t m
              /\ nav_toggle (menu doc) = Some t /\ mobile_menu (menu doc) = Some m.
Proof.
  unfold wired, hears. intros Hw Hh.
  destruct (target l); [|done]. destruct (kind l) eqn:Hk; [done|].
  destruct (handler l) as [t' m'|t' m'|t' m'|it all|a].
  - by destruct Hw as (_ & _ & ?).
  - by destruct Hw as (_ & _ & ?).
  - destruct Hw. by exists t', m'.
  - by destruct Hw as (_ & _ & ?).
  - by destruct Hw as (_ & ?).
Qed.

Lemma escape_listener_loaded doc t m :
  nav_toggle (menu doc) = Some t -> mobile_menu (menu doc) = Some m ->
  mkListener document keydown (escape_key t m)
    ∈ listeners (snd (on_DOMContentLoaded doc)).
Proof.
  intros Ht Hm.
  assert (mkListener document keydown (escape_key t m) ∈ initMobileMenu (menu doc))
    as Hin.
  { unfold initMobileMenu. rewrite Ht, Hm. rewrite !elem_of_app. right. right. left. }
  unfold on_DOMContentLoaded. cbn zeta.
  destruct (initFAQ (faq doc)) as [[e|u] ls2]; cbn [snd listeners].
  - apply elem_of_app. by left.
  - destruct (Foam.initFoamAnimation (foam doc) Foam.pristine) as [r w].
    cbn [snd listeners]. apply elem_of_app. by left.
Qed.

(** *** The accordion *)

Lemma question_click_one_open it items s : one_open items (on_question_click it items s).
Proof.
  intros a b Ha Hb Hact Hbct. unfold has_class in *.
  rewrite question_click_classes in Hact, Hbct.
  destruct (decide (a = it)) as [->|Hai], (decide (b = it)) as [->|Hbi]; try done.
  - rewrite decide_True in Hbct by done. by rewrite contains_remove in Hbct.
  - rewrite decide_True in Hact by done. by rewrite contains_remove in Hact.
  - rewrite decide_True in Hact by done. by rewrite contains_remove in Hact.
Qed.

Lemma handle_one_open env doc l ev s :
  wired doc l ->
  (forall t, nav_toggle (menu doc) = Some t -> t ∉ item <$> faq doc) ->
  (forall m, mobile_menu (menu doc) = Some m -> m ∉ item <$> faq doc) ->
  one_open (item <$> faq doc) s ->
  one_open (item <$> faq doc) (handle env (handler l) ev s).
Proof.
  intros Hw Htf Hmf Hs. unfold wired in Hw.
  assert (forall s', (forall el, el ∈ item <$> faq doc ->
                        classes s' !!! el = classes s !!! el) ->
                     one_open (item <$> faq doc) s') as Hsame.
  { intros s' Heq a b Ha Hb Hact Hbct. unfold has_class in *.
    rewrite Heq in Hact, Hbct by done. by apply Hs. }
  destruct (handler l) as [t' m'|t' m'|t' m'|it all|a]; cbn [handle].
  - destruct Hw as (Ht' & Hm' & _). apply Hsame. intros el Hel.
    apply toggle_click_elsewhere; intros ->; [by apply (Htf t')|by apply (Hmf m')].
  - destruct Hw as (Ht' & Hm' & _). apply Hsame. intros el Hel.
    apply close_menu_elsewhere; intros ->; [by apply (Htf t')|by apply (Hmf m')].
  - destruct Hw as (Ht' & Hm'). destruct ev as [el|key]; [done|].
    unfold on_keydown.
    destruct (String.eqb key "Escape" && has_class "active" m' s); [|done].
    apply Hsame. intros el Hel.
    apply close_menu_elsewhere; intros ->; [by apply (Htf t')|by apply (Hmf m')].
  - destruct Hw as (-> & _). apply question_click_one_open.
  - unfold on_anchor_click.
    destruct (bool_decide (href env a = [35%N])); [done|].
    by destruct (querySelector env (href env a)).
Qed.

(** *** Scrolling *)

Lemma handle_calls env doc l ev s :
  wired doc l ->
  calls (handle env (handler l) ev s) = calls s
  \/ exists a t, a ∈ anchors doc /\ href env a <> [35%N]
               /\ querySelector env (href env a) = Present t
               /\ calls (handle env (handler l) ev s)
                  = calls s ++ [preventDefault; scrollIntoView t].
Proof.
  intros Hw. unfold wired in Hw.
  destruct (handler l) as [t' m'|t' m'|t' m'|it all|a]; cbn [handle].
  - by left.
  - by left.
  - left. destruct ev as [el|key]; [done|]. unfold on_keydown.
    by destruct (String.eqb key "Escape" && has_class "active" m' s).
  - left. apply question_click_rest.
  - destruct Hw as [Ha _]. unfold on_anchor_click.
    case_bool_decide as Hhash; [by left|].
    destruct (querySelector env (href env a)) as [| |t] eqn:Hq; [by left|by left|].
    right. exists a, t. cbn [call calls]. by rewrite <- app_assoc.
Qed.

Lemma handle_overflow env doc l ev s :
  wired doc l ->
  (nav_toggle (menu doc) = None \/ mobile_menu (menu doc) = None) ->
  overflow (handle env (handler l) ev s) = overflow s.
Proof.
  intros Hw Hnone. unfold wired in Hw.
  destruct (handler l) as [t' m'|t' m'|t' m'|it all|a]; cbn [handle].
  - destruct Hw as (? & ? & _), Hnone; congruence.
  - destruct Hw as (? & ? & _), Hnone; congruence.
  - destruct Hw as (? & ?), Hnone; congruence.
  - apply question_click_rest.
  - unfold on_anchor_click.
    destruct (bool_decide (href env a = [35%N])); [done|].
    by destruct (querySelector env (href env a)).
Qed.

(** *** The load handler *)

Lemma dispatch_app env ls ls' ev s :
  dispatch env (ls ++ ls') ev s = dispatch env ls' ev (dispatch env ls ev s).
Proof. unfold dispatch. apply foldl_app. Qed.

Lemma wire_faq_fails all rest it :
  it ∈ rest -> question it = None -> fst (wire_faq all rest) = inl TypeError.
Proof.
  induction rest as [|it0 rest IH]; intros Hin Hq; [by apply elem_of_nil in Hin|].
  cbn [wire_faq]. destruct (question it0) as [q|] eqn:Hq0; [|done].
  apply elem_of_cons in Hin as [->|Hin]; [congruence|].
  specialize (IH Hin Hq). by destruct (wire_faq all rest).
Qed.

Lemma wire_faq_succeeds all rest :
  Forall (fun it => is_Some (question it)) rest ->
  fst (wire_faq all rest) = inr tt
  /\ Forall2 (fun it l => exists q, question it = Some q
                 /\ l = mkListener (node q) click (question_click (item it) all))
       rest (snd (wire_faq all rest)).
Proof.
  induction 1 as [|it rest [q Hq] _ [IH1 IH2]]; cbn [wire_faq]; [by split; constructor|].
  rewrite Hq. destruct (wire_faq all rest) as [r ls]. cbn [fst snd] in *.
  split; [done|]. constructor; [by exists q|done].
Qed.

Lemma no_anchor_in_menu d l a : l ∈ initMobileMenu d -> handler l <> anchor_click a.
Proof.
  unfold initMobileMenu.
  destruct (nav_toggle d) as [t|]; [|by intros ?%elem_of_nil].
  destruct (mobile_menu d) as [m|]; [|by intros ?%elem_of_nil].
  rewrite !elem_of_app, list_elem_of_fmap, !list_elem_of_singleton.
  intros [->|[(link & -> & _)| ->]]; done.
Qed.

Lemma no_anchor_in_faq all rest l a :
  l ∈ snd (wire_faq all rest) -> handler l <> anchor_click a.
Proof.
  induction rest as [|it rest IH]; cbn [wire_faq]; [by intros ?%elem_of_nil|].
  destruct (question it) as [q|]; [|by intros ?%elem_of_nil].
  destruct (wire_faq all rest) as [r ls]. cbn [snd] in *.
  intros [->|Hin]%elem_of_cons; [done|]. by apply IH.
Qed.

Lemma initFoamAnimation_returns doc w : fst (Foam.initFoamAnimation doc w) = inr tt.
Proof.
  unfold Foam.initFoamAnimation.
  destruct (length (Foam.foamCells doc) =? 0)%nat; [done|].
  by destruct (Foam.svg doc).
Qed.

Lemma no_toggle_in_faq all rest l t m :
  l ∈ snd (wire_faq all rest) -> handler l <> toggle_click t m.
Proof.
  induction rest as [|it rest IH]; cbn [wire_faq]; [by intros ?%elem_of_nil|].
  destruct (question it) as [q|]; [|by intros ?%elem_of_nil].
  destruct (wire_faq all rest) as [r ls]. cbn [snd] in *.
  intros [->|Hin]%elem_of_cons; [done|]. by apply IH.
Qed.

(** With both menu parts present the toggle listener comes first, and no
    other listener toggles. *)
Lemma loaded_shape doc t m :
  nav_toggle (menu doc) = Some t -> mobile_menu (menu doc) = Some m ->
  exists rest,
    listeners (snd (on_DOMContentLoaded doc))
    = mkListener (node t) click (toggle_click t m) :: rest
    /\ Forall (fun l => wired doc l /\ forall t' m', handler l <> toggle_click t' m') rest
    /\ forall link, link ∈ menu_links (menu doc) ->
         mkListener (node link) click (link_click t m) ∈ rest.
Proof.
  intros Ht Hm. pose proof (loaded_wired doc) as Hw.
  assert (forall l t' m', l ∈ snd (initFAQ (faq doc)) -> handler l <> toggle_click t' m')
    as Hfaq.
  { intros l t' m'. unfold initFAQ. destruct (length (faq doc) =? 0)%nat;
      [by intros ?%elem_of_nil | apply no_toggle_in_faq]. }
  assert (forall l t' m', l ∈ initSmoothScroll (anchors doc) ->
                          handler l <> toggle_click t' m') as Hanchors.
  { intros l t' m' (a & -> & _)%list_elem_of_fmap. done. }
  revert Hw. unfold on_DOMContentLoaded. cbn zeta.
  unfold initMobileMenu. rewrite Ht, Hm.
  set (links := (fun link => mkListener (node link) click (link_click t m))
                  <$> menu_links (menu doc)).
  set (esc := mkListener document keydown (escape_key t m)).
  assert (forall tail,
            (forall l t' m', l ∈ tail -> handler l <> toggle_click t' m') ->
            Forall (wired doc)
              (([mkListener (node t) click (toggle_click t m)] ++ links ++ [esc]) ++ tail) ->
            exists rest,
              ([mkListener (node t) click (toggle_click t m)] ++ links ++ [esc]) ++ tail
              = mkListener (node t) click (toggle_click t m) :: rest
              /\ Forall (fun l => wired doc l
                                  /\ forall t' m', handler l <> toggle_click t' m') rest
              /\ forall link, link ∈ menu_links (menu doc) ->
                   mkListener (node link) click (link_click t m) ∈ rest) as Hshape.
  { intros tail Htail Hw. exists (links ++ [esc] ++ tail). split.
    - cbn [app]. by rewrite <- !app_assoc.
    - cbn [app] in Hw. rewrite <- !app_assoc in Hw.
      apply Forall_cons in Hw as [_ Hw]. split.
      + apply Forall_forall. intros l Hl. split; [by eapply Forall_forall in Hw|].
        intros t' m'. apply elem_of_app in Hl as [Hl|Hl].
        * subst links. by apply list_elem_of_fmap in Hl as (link & -> & _).
        * apply elem_of_cons in Hl as [->|Hl]; [done|]. by apply Htail.
      + intros link Hlink. apply elem_of_app. left. subst links.
        apply list_elem_of_fmap. by exists link. }
  destruct (initFAQ (faq doc)) as [[e|u] ls2]; cbn [snd listeners] in *.
  - intros Hw. apply Hshape; [|done]. intros l t' m'. apply Hfaq.
  - destruct (Foam.initFoamAnimation (foam doc) Foam.pristine) as [r w].
    cbn [snd listeners]. intros Hw. apply Hshape; [|done].
    intros l t' m' [Hl|Hl]%elem_of_app; [by apply Hfaq | by apply Hanchors].
Qed.

End UIFacts.

Section UIClaims.

Import ClassList UI.

(** X19: On a page whose toggle and menu are two different nodes, neither of
    them an FAQ item, the menu, the toggle icon and the scroll lock stay in
    step through every sequence of clicks and key presses: the toggle
    carries "active" exactly when the menu does, and the body overflow is
    "hidden" exactly then and empty otherwise. *)
Theorem menu_and_scroll_lock_stay_in_step
    (env : Env) (doc : Document) (t m : Element) (evs : list Event) (s : Site) :
  nav_toggle (menu doc) = Some t -> mobile_menu (menu doc) = Some m ->
  t <> m -> t ∉ item <$> faq doc -> m ∉ item <$> faq doc ->
  in_step t m s ->
  in_step t m (run env (listeners (snd (on_DOMContentLoaded doc))) evs s).
Proof.
  intros Ht Hm Hne Htf Hmf Hs. apply run_keeps; [|done].
  intros l ev s' Hl _ Hs'.
  apply (handle_in_step env doc t m l ev s'); try done.
  pose proof (loaded_wired doc) as Hw. by eapply Forall_forall in Hw.
Qed.

Lemma menu_and_scroll_lock_stay_in_step_witness :
  in_step 10 11
    (run Cases.links_to_top (listeners (snd (on_DOMContentLoaded Cases.site)))
       [Click 10; Click 30; Keydown "Escape"; Click 10; Click 12] Cases.closed).
Proof.
  apply (menu_and_scroll_lock_stay_in_step Cases.links_to_top Cases.site 10 11).
  - reflexivity.
  - reflexivity.
  - discriminate.
  - compute_decision.
  - compute_decision.
  - split; reflexivity.
Defined.

(** X20: On a page with a toggle and a menu, the Escape key closes the menu:
    after it the menu does not carry "active".  If the menu was already
    closed nothing changes at all, and no other key changes anything. *)
Theorem escape_closes_menu
    (env : Env) (doc : Document) (t m : Element) (s : Site) :
  nav_toggle (menu doc) = Some t -> mobile_menu (menu doc) = Some m ->
  let ls := listeners (snd (on_DOMContentLoaded doc)) in
  has_class "active" m (dispatch env ls (Keydown "Escape") s) = false
  /\ (has_class "active" m s = false -> dispatch env ls (Keydown "Escape") s = s)
  /\ (forall key, key <> "Escape" -> dispatch env ls (Keydown key) s = s).
Proof.
  intros Ht Hm ls. pose proof (loaded_wired doc) as Hw.
  assert (forall l key s', l ∈ ls -> hears l (Keydown key) = true ->
            handle env (handler l) (Keydown key) s' = on_keydown t m key s') as Hkey.
  { intros l key s' Hl Hh. eapply Forall_forall in Hw; [|exact Hl].
    destruct (keydown_hears_escape doc l key Hw Hh) as (t' & m' & -> & Ht' & Hm').
    rewrite Ht in Ht'. rewrite Hm in Hm'. by injection Ht' as <-; injection Hm' as <-. }
  repeat split.
  - apply (dispatch_reaches (fun s' => has_class "active" m s' = false) env ls
             (Keydown "Escape") (mkListener document keydown (escape_key t m))).
    + by apply escape_listener_loaded.
    + done.
    + intros s'. cbn [handler handle]. unfold on_keydown. cbn [String.eqb andb].
      change (("Escape" =? "Escape")%string) with true. cbn [andb].
      destruct (has_class "active" m s') eqn:Hact; [|done].
      apply close_menu_closed.
    + intros l' s' Hl' Hh Hs'. rewrite Hkey by done.
      unfold on_keydown. by rewrite Hs', andb_false_r.
  - intros Hclosed.
    apply (dispatch_keeps (fun s' => s' = s)); [|done].
    intros l s' Hl Hh ->. rewrite Hkey by done.
    unfold on_keydown. by rewrite Hclosed, andb_false_r.
  - intros key Hkeyne.
    apply (dispatch_keeps (fun s' => s' = s)); [|done].
    intros l s' Hl Hh ->. rewrite Hkey by done.
    unfold on_keydown. apply String.eqb_neq in Hkeyne. by rewrite Hkeyne.
Qed.

Lemma escape_closes_menu_witness :
  has_class "active" 11
    (dispatch Cases.links_to_top (listeners (snd (on_DOMContentLoaded Cases.site)))
       (Keydown "Escape")
       (run Cases.links_to_top (listeners (snd (on_DOMContentLoaded Cases.site)))
          [Click 10] Cases.closed)) = false.
Proof.
  by apply (escape_closes_menu Cases.links_to_top Cases.site 10 11).
Defined.

(** X21: A click on an FAQ question closes every other FAQ item and flips the
    clicked one: afterwards no other item carries "active", and the
    clicked item carries it exactly when it did not before. *)
Theorem question_click_flips_one
    (it : Element) (faqItems : list Element) (s : Site) :
  has_class "active" it (on_question_click it faqItems s)
  = negb (has_class "active" it s)
  /\ (forall other, other ∈ faqItems -> other <> it ->
        has_class "active" other (on_question_click it faqItems s) = false)
  /\ (forall el, el ∉ faqItems -> el <> it ->
        classes (on_question_click it faqItems s) !!! el = classes s !!! el).
Proof.
  unfold has_class. repeat split.
  - rewrite question_click_classes, decide_True by done. apply contains_toggle_to.
  - intros other Hin Hne.
    rewrite question_click_classes, decide_False, decide_True by done.
    apply contains_remove.
  - intros el Hout Hne.
    by rewrite question_click_classes, !decide_False by done.
Qed.

Lemma question_click_flips_one_witness :
  has_class "active" 20 (on_question_click 21 [20; 21] Cases.both_open) = false.
Proof.
  destruct (question_click_flips_one 21 [20; 21] Cases.both_open) as (_ & Hothers & _).
  apply Hothers; [left|discriminate].
Defined.

(** X22: On a page where the toggle and the menu are not FAQ items, the
    accordion never has two items open once it has one or none: no click
    and no key press can open a second item.  And whatever the markup had
    open, a click that reaches a wired question leaves at most one item
    open. *)
Theorem accordion_keeps_one_open
    (env : Env) (doc : Document) (evs : list Event) (s : Site) :
  (forall t, nav_toggle (menu doc) = Some t -> t ∉ item <$> faq doc) ->
  (forall m, mobile_menu (menu doc) = Some m -> m ∉ item <$> faq doc) ->
  let ls := listeners (snd (on_DOMContentLoaded doc)) in
  (one_open (item <$> faq doc) s -> one_open (item <$> faq doc) (run env ls evs s))
  /\ (forall l q it all,
        l ∈ ls -> target l = node q -> handler l = question_click it all ->
        one_open (item <$> faq doc) (dispatch env ls (Click q) s)).
Proof.
  intros Htf Hmf ls. pose proof (loaded_wired doc) as Hw. split.
  - intros Hs. apply run_keeps; [|done].
    intros l ev s' Hl _ Hs'. apply (handle_one_open env doc); try done.
    by eapply Forall_forall in Hw.
  - intros l q it all Hl Htarget Hhandler.
    assert (wired doc l) as Hwl by (by eapply Forall_forall in Hw).
    apply (dispatch_reaches _ env ls (Click q) l); [done| |..].
    + unfold hears. rewrite Htarget. unfold wired in Hwl. rewrite Hhandler in Hwl.
      destruct Hwl as (_ & _ & ->). by apply bool_decide_eq_true.
    + intros s'. rewrite Hhandler. cbn [handle]. unfold wired in Hwl.
      rewrite Hhandler in Hwl. destruct Hwl as (-> & _).
      apply question_click_one_open.
    + intros l' s' Hl' _ Hs'. apply (handle_one_open env doc); try done.
      by eapply Forall_forall in Hw.
Qed.

Lemma accordion_keeps_one_open_witness :
  one_open [20; 21]
    (dispatch Cases.links_to_top (listeners (snd (on_DOMContentLoaded Cases.site)))
       (Click 31) Cases.both_open).
Proof.
  destruct (accordion_keeps_one_open Cases.links_to_top Cases.site [] Cases.both_open)
    as [_ Hclick].
  - intros t [= <-]. compute_decision.
  - intros m [= <-]. compute_decision.
  - apply (Hclick (mkListener (node 31) click (question_click 21 [20; 21]))
             31 21 [20; 21]); [|reflexivity|reflexivity].
    vm_compute. right. right. right. right. left.
Defined.

(** X23: One FAQ item without a question stops the whole page set-up:
    [initFAQ] throws a TypeError, and the initialisers after it never run.
    No anchor gets its smooth-scroll listener, no card is ever hidden,
    observed or revealed whatever the browser reports later, and no foam
    frame is queued. *)
Theorem missing_question_aborts_load
    (doc : Document) (it : FaqItem) (evs : list Scroll.Event) (random : nat -> Q) :
  it ∈ faq doc -> question it = None ->
  let r := on_DOMContentLoaded doc in
  fst r = inl TypeError
  /\ (forall l a, l ∈ listeners (snd r) -> handler l <> anchor_click a)
  /\ Scroll.run (page (snd r)) evs = Scroll.fresh
  /\ Foam.next_animation_frame random (world (snd r)) = (inr tt, Foam.pristine).
Proof.
  intros Hin Hq r. subst r. unfold on_DOMContentLoaded. cbn zeta.
  assert (fst (initFAQ (faq doc)) = inl TypeError) as Hfail.
  { unfold initFAQ. destruct (faq doc) as [|it0 rest] eqn:Hfaq;
      [by apply elem_of_nil in Hin|].
    cbn [length Nat.eqb]. by apply (wire_faq_fails _ _ it). }
  assert (forall l a, l ∈ snd (initFAQ (faq doc)) -> handler l <> anchor_click a)
    as Hnone.
  { intros l a. unfold initFAQ. destruct (length (faq doc) =? 0)%nat;
      [by intros ?%elem_of_nil | apply no_anchor_in_faq]. }
  destruct (initFAQ (faq doc)) as [[e|u] ls2]; cbn [fst snd] in *; [|done].
  injection Hfail as ->. cbn [fst snd listeners page world].
  repeat split.
  - intros l a [Hl|Hl]%elem_of_app; [by eapply no_anchor_in_menu | by apply Hnone].
  - induction evs as [|ev evs IH]; [done|].
    cbn [Scroll.run foldl]. rewrite fresh_is_inert. apply IH.
Qed.

Lemma missing_question_aborts_load_witness :
  fst (on_DOMContentLoaded Cases.broken_site) = inl TypeError
  /\ Scroll.run (page (snd (on_DOMContentLoaded Cases.broken_site)))
       [Scroll.Notify [Scroll.mkEntry 20 true]] = Scroll.fresh.
Proof.
  destruct (missing_question_aborts_load Cases.broken_site (mkFaq 21 None)
              [Scroll.Notify [Scroll.mkEntry 20 true]] Samples.steady)
    as (Hthrow & _ & Hinert & _).
  - right. left.
  - reflexivity.
  - by split.
Defined.

(** X24: When every FAQ item has its question the load handler ends normally
    and everything is set up: the listeners are those of the menu, one
    click listener per FAQ item on its question, in order, and one per
    anchor; the scroll animator has been initialised on a fresh page and
    the foam assigner has queued its work. *)
Theorem load_wires_everything (doc : Document) :
  Forall (fun it => is_Some (question it)) (faq doc) ->
  let r := on_DOMContentLoaded doc in
  fst r = inr tt
  /\ page (snd r)
     = Scroll.initScrollAnimations (has_IntersectionObserver doc)
         (animatedElements doc) Scroll.fresh
  /\ world (snd r) = snd (Foam.initFoamAnimation (foam doc) Foam.pristine)
  /\ exists faq_ls,
       listeners (snd r)
       = initMobileMenu (menu doc) ++ faq_ls ++ initSmoothScroll (anchors doc)
       /\ Forall2 (fun it l => exists q, question it = Some q
                      /\ l = mkListener (node q) click
                               (question_click (item it) (item <$> faq doc)))
            (faq doc) faq_ls.
Proof.
  intros Hall r. subst r. unfold on_DOMContentLoaded. cbn zeta.
  assert (fst (initFAQ (faq doc)) = inr tt
          /\ Forall2 (fun it l => exists q, question it = Some q
                         /\ l = mkListener (node q) click
                                  (question_click (item it) (item <$> faq doc)))
               (faq doc) (snd (initFAQ (faq doc)))) as [Hok Hls].
  { unfold initFAQ. destruct (faq doc) as [|it0 rest] eqn:Hfaq.
    - cbn. split; [done|constructor].
    - cbn [length Nat.eqb]. rewrite <- Hfaq in *. by apply wire_faq_succeeds. }
  destruct (initFAQ (faq doc)) as [[e|[]] ls2]; cbn [fst snd] in *; [done|].
  pose proof (initFoamAnimation_returns (foam doc) Foam.pristine) as Hfoam.
  destruct (Foam.initFoamAnimation (foam doc) Foam.pristine) as [rf w].
  cbn [fst snd] in *. subst rf. cbn [fst snd listeners page world].
  repeat split. by exists ls2.
Qed.

Lemma load_wires_everything_witness :
  fst (on_DOMContentLoaded Cases.site) = inr tt
  /\ length (listeners (snd (on_DOMContentLoaded Cases.site))) = 6.
Proof.
  destruct (load_wires_everything Cases.site) as (Hok & _).
  - repeat constructor; by eexists.
  - split; [exact Hok|reflexivity].
Defined.

(** X25: Without a toggle or without a menu no menu listener exists: the body
    overflow is never changed by any click or key press, and a key press
    changes nothing at all. *)
Theorem page_without_menu_never_locks_scroll
    (env : Env) (doc : Document) (evs : list Event) (s : Site) :
  nav_toggle (menu doc) = None \/ mobile_menu (menu doc) = None ->
  let ls := listeners (snd (on_DOMContentLoaded doc)) in
  overflow (run env ls evs s) = overflow s
  /\ (forall key, dispatch env ls (Keydown key) s = s).
Proof.
  intros Hnone ls. pose proof (loaded_wired doc) as Hw. split.
  - apply (run_keeps (fun s' => overflow s' = overflow s)); [|done].
    intros l ev s' Hl _ <-. apply (handle_overflow env doc); [|done].
    by eapply Forall_forall in Hw.
  - intros key. apply (dispatch_keeps (fun s' => s' = s)); [|done].
    intros l s' Hl Hh _. eapply Forall_forall in Hw; [|exact Hl].
    destruct (keydown_hears_escape doc l key Hw Hh) as (t & m & _ & Ht & Hm).
    destruct Hnone; congruence.
Qed.

Lemma page_without_menu_never_locks_scroll_witness :
  overflow
    (run Cases.links_to_top
       (listeners (snd (on_DOMContentLoaded
          {| menu := {| nav_toggle := Some 10; mobile_menu := None; menu_links := [] |};
             faq := faq Cases.site; anchors := anchors Cases.site;
             has_IntersectionObserver := true;
             animatedElements := animatedElements Cases.site;
             foam := foam Cases.site |})))
       [Click 10; Keydown "Escape"; Click 30] Cases.closed) = "".
Proof.
  apply (page_without_menu_never_locks_scroll Cases.links_to_top
           {| menu := {| nav_toggle := Some 10; mobile_menu := None; menu_links := [] |};
              faq := faq Cases.site; anchors := anchors Cases.site;
              has_IntersectionObserver := true;
              animatedElements := animatedElements Cases.site;
              foam := foam Cases.site |}
           [Click 10; Keydown "Escape"; Click 30] Cases.closed).
  by right.
Defined.

(** X26: The page only ever scrolls in answer to an anchor: through any
    sequence of clicks and key presses the calls made are pairs of
    [preventDefault] and [scrollIntoView], each towards the element that
    the [href] of one of the wired anchors selects, that [href] being more
    than "#".  The default jump is never suppressed without a smooth
    scroll, and nothing else scrolls. *)
Theorem only_anchors_scroll
    (env : Env) (doc : Document) (evs : list Event) (s : Site) :
  exists ts,
    calls (run env (listeners (snd (on_DOMContentLoaded doc))) evs s)
    = calls s ++ smooth_scrolls ts
    /\ Forall (fun t => exists a, a ∈ anchors doc /\ href env a <> [35%N]
                          /\ querySelector env (href env a) = Present t) ts.
Proof.
  pose proof (loaded_wired doc) as Hw.
  apply (run_keeps (fun s' => exists ts, calls s' = calls s ++ smooth_scrolls ts
           /\ Forall (fun t => exists a, a ∈ anchors doc /\ href env a <> [35%N]
                          /\ querySelector env (href env a) = Present t) ts)).
  - intros l ev s' Hl _ (ts & Hcalls & Hts).
    eapply Forall_forall in Hw; [|exact Hl].
    destruct (handle_calls env doc l ev s' Hw) as [->|(a & t & Ha & Hhash & Hq & ->)].
    + by exists ts.
    + exists (ts ++ [t]). split.
      * rewrite Hcalls. unfold smooth_scrolls. rewrite bind_app. cbn.
        by rewrite <- app_assoc.
      * apply Forall_app. split; [done|]. apply Forall_singleton. by exists a.
  - exists []. split; [by rewrite app_nil_r|constructor].
Qed.

(** X27: A click on a link of the mobile menu closes the menu: afterwards
    neither the menu nor the toggle carries "active" and the body overflow
    is reset, whatever the state before, provided the menu and the toggle
    are not FAQ items. *)
Theorem menu_link_closes_menu
    (env : Env) (doc : Document) (t m link : Element) (s : Site) :
  nav_toggle (menu doc) = Some t -> mobile_menu (menu doc) = Some m ->
  t ∉ item <$> faq doc -> m ∉ item <$> faq doc ->
  link ∈ menu_links (menu doc) ->
  let s' := dispatch env (listeners (snd (on_DOMContentLoaded doc))) (Click link) s in
  has_class "active" m s' = false
  /\ has_class "active" t s' = false
  /\ overflow s' = "".
Proof.
  intros Ht Hm Htf Hmf Hlink.
  destruct (loaded_shape doc t m Ht Hm) as (rest & -> & Hrest & Hlinks).
  change (mkListener (node t) click (toggle_click t m) :: rest)
    with ([mkListener (node t) click (toggle_click t m)] ++ rest).
  rewrite dispatch_app. cbn zeta.
  apply (dispatch_reaches
           (fun s' => has_class "active" m s' = false
                      /\ has_class "active" t s' = false /\ overflow s' = "")
           env rest (Click link) (mkListener (node link) click (link_click t m))).
  - by apply Hlinks.
  - cbn. by apply bool_decide_eq_true.
  - intros s'. cbn [handler handle]. apply close_menu_closed.
  - intros l s' Hl _ (Hcm & Hct & Hov).
    eapply Forall_forall in Hrest as [Hw Hnot]; [|exact Hl]. unfold wired in Hw.
    destruct (handler l) as [t' m'|t' m'|t' m'|it all|a] eqn:Hh; cbn [handle].
    + by destruct (Hnot t' m').
    + destruct Hw as (Ht' & Hm' & _). rewrite Ht in Ht'. rewrite Hm in Hm'.
      injection Ht' as <-. injection Hm' as <-. apply close_menu_closed.
    + done.
    + destruct Hw as (-> & Hit & _). unfold has_class in *.
      destruct (question_click_rest it (item <$> faq doc) s') as [-> _].
      rewrite !question_click_classes.
      rewrite (decide_False (P := m = it)), (decide_False (P := t = it)) by congruence.
      by rewrite !decide_False by done.
    + unfold on_anchor_click.
      destruct (bool_decide (href env a = [35%N])); [done|].
      by destruct (querySelector env (href env a)).
Qed.

Lemma menu_link_closes_menu_witness :
  overflow
    (dispatch Cases.links_to_top (listeners (snd (on_DOMContentLoaded Cases.site)))
       (Click 12)
       (run Cases.links_to_top (listeners (snd (on_DOMContentLoaded Cases.site)))
          [Click 10] Cases.closed)) = "".
Proof.
  apply (menu_link_closes_menu Cases.links_to_top Cases.site 10 11 12).
  - reflexivity.
  - reflexivity.
  - compute_decision.
  - compute_decision.
  - left.
Defined.

End UIClaims.
